(** * pdf-parser: text chunker and fuzzy search, embedded and verified

    A shallow embedding of the chunker ([lib/chunker]: [chunkText],
    [chunkPages]), the token counter ([utils/tokenCounter.ts]), the fuzzy
    search library ([lib/fuzzySearch]) and the pure core of the search
    route ([app/api/search]).

    Conventions of the embedding.
    - A JavaScript string is the list of its UTF-16 code units; the
      embedding covers strings whose code units are below 256, one [ascii]
      each, so [length] is [String.prototype.length].
    - JavaScript numbers that count things (token counts, indices) are [Z];
      numbers that may be fractional (options, scores, similarities) are
      rationals [Q].  The overlap target of the chunker is computed as the
      code computes it, in IEEE 754 double precision ([roundDouble]); the
      scores and similarities of the fuzzy search are exact rationals.
    - Arrays that the code mutates are threaded through explicit loop
      states. *)

From Stdlib Require Import ZArith QArith Qround Qabs Ascii String List Bool Lia Lqa.
From Stdlib Require Import Permutation Sorted.
From stdpp Require Import base list.
Import ListNotations.

Close Scope Q_scope.
Local Open Scope Z_scope.

(** ** JavaScript strings *)

Module JS.

Abbreviation jsstring := (list ascii).

(** A string literal as a list of code units. *)
Definition str (s : string) : jsstring := list_ascii_of_string s.

(** [x.length === 0], for a string or an array. *)
Definition isEmpty {A} (l : list A) : bool :=
  match l with [] => true | _ => false end.

(** [WhiteSpace] and [LineTerminator] code units below 256: TAB, LF, VT, FF,
    CR, SP and NBSP.  This is what [trim] strips and what [\s] matches. *)
Definition isSpace (c : ascii) : bool :=
  let n := nat_of_ascii c in
  ((9 <=? n)%nat && (n <=? 13)%nat) || (n =? 32)%nat || (n =? 160)%nat.

(** [\w] is [[A-Za-z0-9_]]. *)
Definition isWordChar (c : ascii) : bool :=
  let n := nat_of_ascii c in
  ((65 <=? n)%nat && (n <=? 90)%nat) || ((97 <=? n)%nat && (n <=? 122)%nat)
  || ((48 <=? n)%nat && (n <=? 57)%nat) || (n =? 95)%nat.

(** [toLowerCase] on one code unit: A-Z and the Latin-1 capitals
    (U+00C0..U+00DE except the multiplication sign U+00D7) move up by 32.
    On the strings of the embedding [String.prototype.toLowerCase] works
    code unit by code unit; beyond them it can make a string longer
    (U+0130), so a statement that needs the length to be kept says so. *)
Definition lowerChar (c : ascii) : ascii :=
  let n := nat_of_ascii c in
  if ((65 <=? n)%nat && (n <=? 90)%nat)
     || ((192 <=? n)%nat && (n <=? 222)%nat && negb (n =? 215)%nat)
  then ascii_of_nat (n + 32) else c.

Definition toLowerCase (s : jsstring) : jsstring := map lowerChar s.

Fixpoint dropWhile {A} (p : A -> bool) (l : list A) : list A :=
  match l with
  | [] => []
  | x :: r => if p x then dropWhile p r else l
  end.

Definition trimStart (s : jsstring) : jsstring := dropWhile isSpace s.
Definition trimEnd (s : jsstring) : jsstring := rev (dropWhile isSpace (rev s)).
Definition trim (s : jsstring) : jsstring := trimEnd (trimStart s).

(** [Array.prototype.join]. *)
Fixpoint join (sep : jsstring) (l : list jsstring) : jsstring :=
  match l with
  | [] => []
  | [x] => x
  | x :: r => x ++ sep ++ join sep r
  end.

(** [s.startsWith(p)] on code units. *)
Fixpoint startsWith (p s : jsstring) : bool :=
  match p, s with
  | [], _ => true
  | _ :: _, [] => false
  | a :: p', b :: s' => Ascii.eqb a b && startsWith p' s'
  end.

(** [String.prototype.includes]: the needle occurs at some offset. *)
Fixpoint includes (s needle : jsstring) : bool :=
  startsWith needle s ||
  match s with
  | [] => false
  | _ :: s' => includes s' needle
  end.

(** [s.split(/\s+/)]: the pieces between maximal runs of white space.  A
    string that starts (ends) with white space yields a leading (trailing)
    empty piece, and the empty string yields one empty piece.  [cur] is the
    piece being read, reversed; [inSep] tells that the previous code unit
    was white space. *)
Fixpoint splitSpacesFrom (cur : jsstring) (inSep : bool) (s : jsstring)
  : list jsstring :=
  match s with
  | [] => [rev cur]
  | c :: r =>
      if isSpace c then
        if inSep then splitSpacesFrom cur true r
        else rev cur :: splitSpacesFrom [] true r
      else splitSpacesFrom (c :: cur) false r
  end.

Definition splitSpaces (s : jsstring) : list jsstring :=
  splitSpacesFrom [] false s.

(** *** Numbers

    A [number]: a finite value, [NaN] or an infinity. *)
Inductive Num := finite (q : Q) | NaN | Infinity | NegInfinity.

(** [2 ** e] *)
Definition pow2 (e : Z) : Q :=
  if 0 <=? e then inject_Z (2 ^ e) else (1 / inject_Z (2 ^ (- e)))%Q.

(** [floor(log2(x))] for [x > 0]. *)
Definition floorLog2 (x : Q) : Z :=
  let e := Z.log2 (Qnum x) - Z.log2 (Z.pos (Qden x)) in
  if Qle_bool (pow2 e) x then e else e - 1.

(** The nearest integer, the even one of two that are equally near. *)
Definition roundHalfEven (x : Q) : Z :=
  let f := Qfloor x in
  match (x - inject_Z f ?= 1 # 2)%Q with
  | Lt => f
  | Gt => f + 1
  | Eq => if Z.even f then f else f + 1
  end.

(** The double that an arithmetic operation returns for the exact result
    [x] (IEEE 754 binary64, round to nearest, ties to even): [x] rounded
    to 53 significant bits, to a multiple of [2 ** -1074] when it is
    subnormal, and to an infinity when the rounded value reaches
    [2 ** 1024]. *)
Definition roundDouble (x : Q) : Num :=
  if Qeq_bool x 0 then finite 0
  else
    let a := Qabs x in
    let q := Z.max (floorLog2 a - 52) (-1074) in
    let r := (inject_Z (roundHalfEven (a / pow2 q)) * pow2 q)%Q in
    if Qle_bool (pow2 1024) r then (if Qle_bool 0 x then Infinity else NegInfinity)
    else finite (Qred (if Qle_bool 0 x then r else - r)).

(** [a / b] on finite numbers, for a divisor that is not zero. *)
Definition divDouble (a b : Q) : Num := roundDouble (a / b).

(** [a * b] for a finite [a]. *)
Definition mulDouble (a : Q) (b : Num) : Num :=
  match b with
  | finite y => roundDouble (a * y)
  | NaN => NaN
  | Infinity =>
      if Qeq_bool a 0 then NaN else if Qle_bool 0 a then Infinity else NegInfinity
  | NegInfinity =>
      if Qeq_bool a 0 then NaN else if Qle_bool 0 a then NegInfinity else Infinity
  end.

(** [Math.floor] *)
Definition Math_floor (x : Num) : Num :=
  match x with finite q => finite (inject_Z (Qfloor q)) | _ => x end.

(** [a < b] for an integer [a]. *)
Definition ltNum (a : Z) (b : Num) : bool :=
  match b with
  | finite t => negb (Qle_bool t (inject_Z a))
  | NaN => false
  | Infinity => true
  | NegInfinity => false
  end.

End JS.

(** ** utils/tokenCounter.ts *)

Module TokenCounter.
Import JS.

Definition CHARS_PER_TOKEN : Z := 4.

(** [countTokens]: 0 for the empty string, else
    [Math.ceil(text.length / CHARS_PER_TOKEN)]. *)
Definition countTokens (text : jsstring) : Z :=
  if isEmpty text then 0
  else (Z.of_nat (length text) + (CHARS_PER_TOKEN - 1)) / CHARS_PER_TOKEN.

End TokenCounter.

(** ** lib/chunker *)

Module Chunker.
Import JS TokenCounter.

Record ChunkOptions := {
  minTokens : option Q;
  maxTokens : option Q;
  overlapPercentage : option Q
}.

(** [Required<ChunkOptions>]. *)
Record Options := {
  optMinTokens : Q;
  optMaxTokens : Q;
  optOverlapPercentage : Q
}.

Inductive Position := pos_start | pos_middle | pos_end.

Record Meta := {
  meta_page_no : Z;
  meta_chunk_index : Z;
  position : Position;
  has_overlap : bool
}.

(** The SHA-256 hex digest of a content string, kept symbolic: it is a
    function of the content alone and nothing below looks at its bits. *)
Inductive Digest := sha256_hex (content : jsstring).

Record Chunk := {
  content : jsstring;
  token_count : Z;
  page_no : Z;
  chunk_index : Z;
  meta : Meta;
  content_hash : Digest
}.

Definition DEFAULT_OPTIONS : Options :=
  {| optMinTokens := 600%Q; optMaxTokens := 1200%Q;
     optOverlapPercentage := (25 # 2)%Q |}.

Definition noOptions : ChunkOptions :=
  {| minTokens := None; maxTokens := None; overlapPercentage := None |}.

(** [{ ...DEFAULT_OPTIONS, ...options }]. *)
Definition mergeOptions (options : ChunkOptions) : Options :=
  {| optMinTokens := default (optMinTokens DEFAULT_OPTIONS) (minTokens options);
     optMaxTokens := default (optMaxTokens DEFAULT_OPTIONS) (maxTokens options);
     optOverlapPercentage :=
       default (optOverlapPercentage DEFAULT_OPTIONS) (overlapPercentage options) |}.

Definition isTerminator (c : ascii) : bool :=
  let n := nat_of_ascii c in
  (n =? 46)%nat || (n =? 33)%nat || (n =? 63)%nat.   (* . ! ? *)

(** [text.match(/[^.!?]+[.!?]+|[^.!?]+$/g) || []].  A match is a maximal
    run of non-terminators followed by the maximal run of terminators after
    it, or a last run of non-terminators that reaches the end of the text.
    Terminators with no run before them (only possible at the start of the
    text) belong to no match.  [cur] is the match being read, reversed;
    [inTerm] tells that its terminators have started. *)
Fixpoint matchSentences (cur : jsstring) (inTerm : bool) (text : jsstring)
  : list jsstring :=
  match text with
  | [] => if isEmpty cur then [] else [rev cur]
  | c :: r =>
      if isTerminator c then
        if isEmpty cur then matchSentences [] false r
        else matchSentences (c :: cur) true r
      else
        if inTerm then rev cur :: matchSentences [c] false r
        else matchSentences (c :: cur) false r
  end.

Definition splitIntoSentences (text : jsstring) : list jsstring :=
  let sentences := matchSentences [] false text in
  List.filter (fun s => negb (isEmpty s)) (map trim sentences).

Definition hashContent (content : jsstring) : Digest := sha256_hex content.

(** The object literal pushed at both places of [chunkText]. *)
Definition mkChunk (chunkContent : jsstring) (pageNo chunkIndex : Z)
  (pos : Position) : Chunk :=
  {| content := chunkContent;
     token_count := countTokens chunkContent;
     page_no := pageNo;
     chunk_index := chunkIndex;
     meta := {| meta_page_no := pageNo;
                meta_chunk_index := chunkIndex;
                position := pos;
                has_overlap := 0 <? chunkIndex |};
     content_hash := hashContent chunkContent |}.

(** [Math.floor(tokenCount * (opts.overlapPercentage / 100))], the
    quotient and the product each rounded to a double. *)
Definition overlapTokenTarget (opts : Options) (tokenCount : Z) : Num :=
  Math_floor (mulDouble (inject_Z tokenCount)
                (divDouble (optOverlapPercentage opts) 100)).

(** The backward loop
    [for (j = currentChunk.length - 1; j >= 0 && overlapTokens < target; j--)]:
    [remaining] holds [currentChunk[j], currentChunk[j-1], ..., currentChunk[0]]. *)
Fixpoint overlapLoop (target : Num) (remaining overlapSentences : list jsstring)
  (overlapTokens : Z) : list jsstring * Z :=
  match remaining with
  | [] => (overlapSentences, overlapTokens)
  | overlapSentence :: earlier =>
      if ltNum overlapTokens target
      then overlapLoop target earlier (overlapSentence :: overlapSentences)
             (overlapTokens + countTokens overlapSentence)
      else (overlapSentences, overlapTokens)
  end.

Definition overlapOf (target : Num) (currentChunk : list jsstring)
  : list jsstring * Z :=
  overlapLoop target (rev currentChunk) [] 0.

(** The variables of the main loop of [chunkText]. *)
Record LoopState := {
  chunks : list Chunk;
  currentChunk : list jsstring;
  currentTokens : Z;
  chunkIndex : Z
}.

Definition initState : LoopState :=
  {| chunks := []; currentChunk := []; currentTokens := 0; chunkIndex := 0 |}.

(** [currentTokens + sentenceTokens > opts.maxTokens && currentChunk.length > 0] *)
Definition mustFlush (opts : Options) (st : LoopState) (sentenceTokens : Z) : bool :=
  negb (Qle_bool (inject_Z (currentTokens st + sentenceTokens)) (optMaxTokens opts))
  && negb (isEmpty (currentChunk st)).

(** The body of that [if]: push the chunk, rebuild the accumulator from the
    overlap, increment the index. *)
Definition flush (opts : Options) (pageNo : Z) (st : LoopState) : LoopState :=
  let chunkContent := join (str " ") (currentChunk st) in
  let tokenCount := countTokens chunkContent in
  let pos := if chunkIndex st =? 0 then pos_start else pos_middle in
  let ov := overlapOf (overlapTokenTarget opts tokenCount) (currentChunk st) in
  {| chunks := chunks st ++ [mkChunk chunkContent pageNo (chunkIndex st) pos];
     currentChunk := fst ov;
     currentTokens := snd ov;
     chunkIndex := chunkIndex st + 1 |}.

(** [currentChunk.push(sentence); currentTokens += sentenceTokens] *)
Definition pushSentence (sentence : jsstring) (sentenceTokens : Z)
  (st : LoopState) : LoopState :=
  {| chunks := chunks st;
     currentChunk := currentChunk st ++ [sentence];
     currentTokens := currentTokens st + sentenceTokens;
     chunkIndex := chunkIndex st |}.

(** [if (i === sentences.length - 1 && currentChunk.length > 0)]: push the
    last chunk of the page. *)
Definition flushLast (pageNo : Z) (isLast : bool) (st : LoopState) : LoopState :=
  if isLast && negb (isEmpty (currentChunk st)) then
    let chunkContent := join (str " ") (currentChunk st) in
    {| chunks := chunks st ++ [mkChunk chunkContent pageNo (chunkIndex st) pos_end];
       currentChunk := currentChunk st;
       currentTokens := currentTokens st;
       chunkIndex := chunkIndex st |}
  else st.

(** One iteration of the main loop. *)
Definition loopBody (opts : Options) (pageNo : Z) (isLast : bool)
  (sentence : jsstring) (st : LoopState) : LoopState :=
  let sentenceTokens := countTokens sentence in
  let st1 := if mustFlush opts st sentenceTokens then flush opts pageNo st else st in
  let st2 := pushSentence sentence sentenceTokens st1 in
  flushLast pageNo isLast st2.

(** [for (let i = 0; i < sentences.length; i++)] over the sentences that
    are left; the iteration is the last one when none follows. *)
Fixpoint mainLoop (opts : Options) (pageNo : Z) (sentences : list jsstring)
  (st : LoopState) : LoopState :=
  match sentences with
  | [] => st
  | sentence :: rest =>
      mainLoop opts pageNo rest (loopBody opts pageNo (isEmpty rest) sentence st)
  end.

Definition chunkText (text : jsstring) (pageNo : Z) (options : ChunkOptions)
  : list Chunk :=
  let opts := mergeOptions options in
  let sentences := splitIntoSentences text in
  if isEmpty sentences then []
  else chunks (mainLoop opts pageNo sentences initState).

Record Page := { pageNo : Z; text : jsstring }.

(** [{ ...chunk, chunk_index: g, meta: { ...chunk.meta, chunk_index: g } }] *)
Definition withGlobalIndex (chunk : Chunk) (g : Z) : Chunk :=
  {| content := content chunk;
     token_count := token_count chunk;
     page_no := page_no chunk;
     chunk_index := g;
     meta := {| meta_page_no := meta_page_no (meta chunk);
                meta_chunk_index := g;
                position := position (meta chunk);
                has_overlap := has_overlap (meta chunk) |};
     content_hash := content_hash chunk |}.

(** The inner loop of [chunkPages] on the pair
    [(allChunks, globalChunkIndex)]. *)
Fixpoint pushPageChunks (pageChunks : list Chunk) (acc : list Chunk * Z)
  : list Chunk * Z :=
  match pageChunks with
  | [] => acc
  | chunk :: rest =>
      pushPageChunks rest
        (fst acc ++ [withGlobalIndex chunk (snd acc)], snd acc + 1)
  end.

Fixpoint pagesLoop (options : ChunkOptions) (pages : list Page)
  (acc : list Chunk * Z) : list Chunk * Z :=
  match pages with
  | [] => acc
  | page :: rest =>
      let pageChunks := chunkText (text page) (pageNo page) options in
      pagesLoop options rest (pushPageChunks pageChunks acc)
  end.

Definition chunkPages (pages : list Page) (options : ChunkOptions) : list Chunk :=
  fst (pagesLoop options pages ([], 0)).

End Chunker.

(** ** lib/fuzzySearch *)

Module FuzzySearch.
Import JS.

Inductive MatchType := exact | fuzzy | partial | trigram.

(** The entries of [highlights]: ['exact'], ['exact-words'],
    [`fuzzy-${similarity.toFixed(2)}`] (the similarity is kept as a number)
    and ['partial']. *)
Inductive Highlight :=
| hl_exact | hl_exact_words | hl_fuzzy (similarity : Q) | hl_partial.

(** A row of [doc_chunks] ([DocChunk] in lib/types.ts), the [chunk: any] of
    a search result. *)
Record DocChunk := {
  id : jsstring;
  document_id : jsstring;
  chunk_index : Z;
  page_no : Z;
  content : jsstring;
  token_count : Z
}.

Record SearchResult := {
  chunk : DocChunk;
  score : Q;
  highlights : list Highlight;
  matchType : MatchType
}.

Record SearchOptions := {
  threshold : option Q;
  maxResults : option Z;
  includePartial : option bool;
  boostExact : option bool
}.

(** [a > b] and [a >= b] on numbers. *)
Definition Qgtb (a b : Q) : bool := negb (Qle_bool a b).
Definition Qgeb (a b : Q) : bool := Qle_bool b a.

(** [a === b] on strings. *)
Fixpoint strEq (a b : jsstring) : bool :=
  match a, b with
  | [], [] => true
  | x :: a', y :: b' => Ascii.eqb x y && strEq a' b'
  | _, _ => false
  end.

(** [str1[i] === str2[j]] ([undefined] past the end). *)
Definition charEq (a b : option ascii) : bool :=
  match a, b with
  | Some x, Some y => Ascii.eqb x y
  | None, None => true
  | _, _ => false
  end.

(** The table of [levenshteinDistance]: an array of rows, every cell [null]
    until it is assigned. *)
Abbreviation Matrix := (list (list (option Z))).

(** [Array(rows).fill(null).map(() => Array(cols).fill(null))] *)
Definition newMatrix (rows cols : nat) : Matrix :=
  replicate rows (replicate cols None).

(** [matrix[j][i]] read as a number ([null] counts as 0 in a sum).  Every
    read of the code is inside the table. *)
Definition getCell (matrix : Matrix) (j i : nat) : Z :=
  match matrix !! j with
  | Some row => match row !! i with Some (Some v) => v | _ => 0 end
  | None => 0
  end.

(** [matrix[j][i] = v] *)
Definition setCell (matrix : Matrix) (j i : nat) (v : Z) : Matrix :=
  alter (fun row => <[i := Some v]> row) j matrix.

(** The body of the double loop, for [1 <= j] and [1 <= i]. *)
Definition fillCell (str1 str2 : jsstring) (j : nat) (matrix : Matrix) (i : nat)
  : Matrix :=
  let cost := if charEq (str1 !! (i - 1)%nat) (str2 !! (j - 1)%nat) then 0 else 1 in
  setCell matrix j i
    (Z.min (Z.min (getCell matrix j (i - 1) + 1)          (* deletion *)
                  (getCell matrix (j - 1) i + 1))          (* insertion *)
           (getCell matrix (j - 1) (i - 1) + cost)).       (* substitution *)

Definition levenshteinDistance (str1 str2 : jsstring) : Z :=
  let matrix := newMatrix (length str2 + 1) (length str1 + 1) in
  (* for (let i = 0; i <= str1.length; i++) matrix[0][i] = i *)
  let matrix :=
    fold_left (fun m i => setCell m 0 i (Z.of_nat i)) (seq 0 (length str1 + 1)) matrix in
  (* for (let j = 0; j <= str2.length; j++) matrix[j][0] = j *)
  let matrix :=
    fold_left (fun m j => setCell m j 0 (Z.of_nat j)) (seq 0 (length str2 + 1)) matrix in
  (* for (let j = 1; j <= str2.length; j++)
       for (let i = 1; i <= str1.length; i++) ... *)
  let matrix :=
    fold_left (fun m j => fold_left (fillCell str1 str2 j) (seq 1 (length str1)) m)
      (seq 1 (length str2)) matrix in
  getCell matrix (length str2) (length str1).

Definition calculateSimilarity (str1 str2 : jsstring) : Q :=
  let distance := levenshteinDistance (toLowerCase str1) (toLowerCase str2) in
  let maxLength := Z.max (Z.of_nat (length str1)) (Z.of_nat (length str2)) in
  if maxLength =? 0 then 1%Q
  else (inject_Z (maxLength - distance) / inject_Z maxLength)%Q.

(** [variations.add(v)] on a [Set], kept in insertion order. *)
Definition setAdd (v : jsstring) (variations : list jsstring) : list jsstring :=
  if existsb (strEq v) variations then variations else variations ++ [v].

(** [word.replace(/(ing|ed|er|est|ly|s)$/, '')]: the first offset, from the
    left, at which what is left of the word is one of the suffixes; the
    word is cut there.  [before] is the part already passed, reversed. *)
Definition suffixes : list jsstring :=
  [str "ing"; str "ed"; str "er"; str "est"; str "ly"; str "s"].

Fixpoint stripSuffixFrom (before rest : jsstring) : jsstring :=
  if existsb (strEq rest) suffixes then rev before
  else match rest with
       | [] => rev before
       | c :: r => stripSuffixFrom (c :: before) r
       end.

Definition stripSuffix (word : jsstring) : jsstring := stripSuffixFrom [] word.

(** [word.slice(0, -n)] and [word.slice(-1)]. *)
Definition sliceDropLast (n : nat) (word : jsstring) : jsstring :=
  firstn (length word - n) word.
Definition sliceLast (word : jsstring) : jsstring :=
  skipn (length word - 1) word.

Definition addStem (variations : list jsstring) (word : jsstring) : list jsstring :=
  if (3 <? length word)%nat then
    let stemmed := stripSuffix word in
    if (2 <? length stemmed)%nat then setAdd stemmed variations else variations
  else variations.

Definition addPartials (variations : list jsstring) (word : jsstring) : list jsstring :=
  if (4 <? length word)%nat then
    let variations := setAdd (sliceDropLast 1 word) variations in
    if (5 <? length word)%nat
    then setAdd (sliceDropLast 2 word ++ sliceLast word) variations
    else variations
  else variations.

Definition generateQueryVariations (query : jsstring) : list jsstring :=
  let words :=
    List.filter (fun w => negb (isEmpty w)) (splitSpaces (toLowerCase query)) in
  let variations := setAdd (toLowerCase query) [] in
  let variations := fold_left (fun vs word => setAdd word vs) words variations in
  let variations := fold_left addStem words variations in
  let variations := fold_left addPartials words variations in
  variations.

(** [s.replace(/[^\w\s]/g, ' ')] *)
Definition blankSpecials (s : jsstring) : jsstring :=
  map (fun c => if isWordChar c || isSpace c then c else " "%char) s.

(** [s.replace(/\s+/g, ' ')]: every maximal run of white space becomes one
    space. *)
Fixpoint collapseSpaces (inSep : bool) (s : jsstring) : jsstring :=
  match s with
  | [] => []
  | c :: r =>
      if isSpace c then
        if inSep then collapseSpaces true r else " "%char :: collapseSpaces true r
      else c :: collapseSpaces false r
  end.

Record Preprocessed := {
  original : jsstring;
  processed : jsstring;
  variations : list jsstring;
  keywords : list jsstring
}.

Definition preprocessQuery (query : jsstring) : Preprocessed :=
  let original := trim query in
  let processed :=
    trim (collapseSpaces false (blankSpecials (toLowerCase original))) in
  {| original := original;
     processed := processed;
     variations := generateQueryVariations processed;
     keywords := List.filter (fun w => negb (isEmpty w)) (splitSpaces processed) |}.

(** A piece of highlighted text: left as it is, or wrapped in
    [<mark class="search-highlight" data-score="...">]. *)
Inductive Piece :=
| plain (s : jsstring)
| mark (dataScore : Q) (s : jsstring).

(** [text.split(/(\s+)/)]: the pieces of [split(/\s+/)] with the runs of
    white space between them. *)
Fixpoint splitKeepSpacesFrom (cur : jsstring) (inSep : bool) (s : jsstring)
  : list jsstring :=
  match s with
  | [] => if inSep then [rev cur; []] else [rev cur]
  | c :: r =>
      if isSpace c then
        if inSep then splitKeepSpacesFrom (c :: cur) true r
        else rev cur :: splitKeepSpacesFrom [c] true r
      else
        if inSep then rev cur :: splitKeepSpacesFrom [c] false r
        else splitKeepSpacesFrom (c :: cur) false r
  end.

(** The inner [variations.forEach] of [smartHighlight] on
    [(bestMatch, bestScore)]. *)
Definition bestVariation (cleanWord : jsstring) (best : jsstring * Q)
  (variation : jsstring) : jsstring * Q :=
  let score := calculateSimilarity cleanWord variation in
  if Qgtb score (snd best) && Qgtb score (6 # 10) then (variation, score) else best.

Definition highlightWord (variations : list jsstring) (word : jsstring) : Piece :=
  let cleanWord := List.filter isWordChar (toLowerCase word) in
  if isEmpty cleanWord then plain word
  else
    let best := fold_left (bestVariation cleanWord) variations ([], 0%Q) in
    if negb (isEmpty (fst best)) then mark (snd best) word else plain word.

Definition smartHighlight (text query : jsstring) (variations : list jsstring)
  : list Piece :=
  map (highlightWord variations) (splitKeepSpacesFrom [] false text).

(** The characters that are not themselves in a pattern:
    [^ $ \ . * + ? ( ) [ ] { } |]. *)
Definition isPatternChar (c : ascii) : bool :=
  existsb (Ascii.eqb c) (str "^$\.*+?()[]{}|").

Definition isLiteralWord (word : jsstring) : bool :=
  forallb (fun c => negb (isPatternChar c)) word.

(** [\b]: of the code units before and after the position, exactly one is
    a word character; there is none past either end of the string. *)
Definition isWordAt (c : option ascii) : bool :=
  match c with Some c => isWordChar c | None => false end.

Definition wordBoundary (before after : option ascii) : bool :=
  xorb (isWordAt before) (isWordAt after).

(** The code unit before the end of an occurrence of [word] that starts
    after [prev]. *)
Definition lastOf (prev : option ascii) (word : jsstring) : option ascii :=
  match rev word with c :: _ => Some c | [] => prev end.

(** [new RegExp(`\\b${word}\\b`).test(content)] for a word without pattern
    characters ([isLiteralWord]), which is what the words of a preprocessed
    query are: the pattern is then the word itself between two [\b], and
    the test looks for an occurrence of the word with a word boundary at
    its start and at its end.  For a word with a pattern character the
    code compiles another pattern, or throws a [SyntaxError]; such words
    are outside the embedding and the statements about them exclude them.
    [prev] is the code unit before the current offset. *)
Fixpoint wordTestFrom (word : jsstring) (prev : option ascii) (rest : jsstring)
  : bool :=
  (startsWith word rest
   && wordBoundary prev (head rest)
   && wordBoundary (lastOf prev word) (head (skipn (length word) rest))) ||
  match rest with
  | [] => false
  | c :: r => wordTestFrom word (Some c) r
  end.

Definition wordBoundaryTest (word content : jsstring) : bool :=
  wordTestFrom word None content.

(** The local variables of [calculateSearchScore]. *)
Record ScoreState := {
  curScore : Q;
  curMatchType : MatchType;
  curHighlights : list Highlight;
  fuzzyMatches : Z
}.

Record Scored := {
  scoredScore : Q;
  scoredMatchType : MatchType;
  scoredHighlights : list Highlight
}.

Definition isTrigram (t : MatchType) : bool :=
  match t with trigram => true | _ => false end.
Definition isExact (t : MatchType) : bool :=
  match t with exact => true | _ => false end.

(** The body of the fuzzy double loop, for one variation and one word. *)
Definition fuzzyStep (variation : jsstring) (st : ScoreState) (word : jsstring)
  : ScoreState :=
  if (2 <? length word)%nat then
    let similarity := calculateSimilarity word variation in
    if Qgtb similarity (7 # 10) then
      {| curScore := (curScore st + similarity * 30)%Q;
         curMatchType := if isTrigram (curMatchType st) then fuzzy else curMatchType st;
         curHighlights := curHighlights st ++ [hl_fuzzy similarity];
         fuzzyMatches := fuzzyMatches st + 1 |}
    else st
  else st.

Definition partialStep (contentLower : jsstring) (st : ScoreState)
  (variation : jsstring) : ScoreState :=
  if includes contentLower variation then
    {| curScore := (curScore st + 20)%Q;
       curMatchType := if isTrigram (curMatchType st) then partial else curMatchType st;
       curHighlights := curHighlights st ++ [hl_partial];
       fuzzyMatches := fuzzyMatches st |}
  else st.

(** [Math.min(100, Math.max(0, score))] *)
Definition normalizeScore (score : Q) : Q :=
  let m := if Qgeb 0 score then 0%Q else score in       (* Math.max(0, score) *)
  if Qle_bool 100 m then 100%Q else m.                  (* Math.min(100, m) *)

Definition calculateSearchScore (content query : jsstring)
  (variations : list jsstring) (options : SearchOptions) : Scored :=
  let boostExact := default true (boostExact options) in
  let contentLower := toLowerCase content in
  let queryLower := toLowerCase query in
  let st := {| curScore := 0; curMatchType := trigram; curHighlights := [];
               fuzzyMatches := 0 |} in
  (* exact match *)
  let st :=
    if includes contentLower queryLower then
      {| curScore := (curScore st + 100)%Q; curMatchType := exact;
         curHighlights := curHighlights st ++ [hl_exact];
         fuzzyMatches := fuzzyMatches st |}
    else st in
  (* word boundary exact matches *)
  let exactWordMatches :=
    List.filter (fun word => negb (isEmpty word) && wordBoundaryTest word contentLower)
      (splitSpaces queryLower) in
  let st :=
    if negb (isEmpty exactWordMatches) then
      {| curScore := (curScore st + inject_Z (Z.of_nat (length exactWordMatches)) * 50)%Q;
         curMatchType := exact;
         curHighlights := curHighlights st ++ [hl_exact_words];
         fuzzyMatches := fuzzyMatches st |}
    else st in
  (* fuzzy matches *)
  let words := splitSpaces contentLower in
  let st :=
    fold_left (fun st variation => fold_left (fuzzyStep variation) words st)
      variations st in
  (* partial matches *)
  let st := fold_left (partialStep contentLower) variations st in
  (* boost *)
  let score :=
    if boostExact && isExact (curMatchType st)
    then (curScore st * (3 # 2))%Q else curScore st in
  {| scoredScore := normalizeScore score;
     scoredMatchType := curMatchType st;
     scoredHighlights := curHighlights st |}.

Definition typePriority (t : MatchType) : Z :=
  match t with exact => 4 | fuzzy => 3 | partial => 2 | trigram => 1 end.

(** The comparator of [sortSearchResults]. *)
Definition compareResults (a b : SearchResult) : Q :=
  let typeDiff := typePriority (matchType b) - typePriority (matchType a) in
  if negb (typeDiff =? 0) then inject_Z typeDiff
  else (score b - score a)%Q.

(** [Array.prototype.sort(compare)] is a stable sort: [b] moves in front of
    [a] only when [compare(a, b) > 0].  It is written here as the stable
    insertion sort. *)
Fixpoint sortInsert {A} (compare : A -> A -> Q) (a : A) (sorted : list A) : list A :=
  match sorted with
  | [] => [a]
  | b :: rest =>
      if Qgtb (compare a b) 0 then b :: sortInsert compare a rest
      else a :: sorted
  end.

Definition arraySort {A} (compare : A -> A -> Q) (l : list A) : list A :=
  fold_right (sortInsert compare) [] l.

Definition sortSearchResults (results : list SearchResult) : list SearchResult :=
  arraySort compareResults results.

(** [score >= threshold] for a finite score; the threshold is what
    [parseFloat] yields: a finite number, [NaN] or an infinity. *)
Definition geNum (score : Q) (threshold : Num) : bool :=
  match threshold with
  | finite t => Qgeb score t
  | NaN => false
  | Infinity => false
  | NegInfinity => true
  end.

(** [filterSearchResults(results, threshold = 10)] *)
Definition filterSearchResults (results : list SearchResult)
  (threshold : option Num) : list SearchResult :=
  let threshold := default (finite 10) threshold in
  List.filter (fun result => geNum (score result) threshold) results.

End FuzzySearch.

(** ** app/api/search: the GET handler

    The Supabase queries are the only effects of the handler.  They are
    taken as a function [db] from a query to its settled outcome: the rows,
    or nothing when the promise is rejected or carries no data. *)

Module SearchRoute.
Import JS FuzzySearch.

Inductive Strategy :=
| textSearch (processed : jsstring)   (* .textSearch('content', processed, ...) *)
| ilike (needle : jsstring).          (* .ilike('content', `%${needle}%`) *)

(** A strategy, the document it is restricted to, if any, and its [limit]
    ([parseInt] of the parameter; no value stands for [NaN]). *)
Definition Database :=
  Strategy -> option jsstring -> option Z -> option (list DocChunk).

Record QueryInfo := {
  qOriginal : jsstring;
  qProcessed : jsstring;
  qVariations : list jsstring;
  qKeywords : list jsstring
}.

(** [{ ...result.chunk, highlighted, searchScore, matchType, highlights }] *)
Record ResultRow := {
  row : DocChunk;
  highlighted : list Piece;
  searchScore : Q;
  rowMatchType : MatchType;
  rowHighlights : list Highlight
}.

Inductive Response :=
| badRequest                                   (* 400, 'Search query is required' *)
| noCandidates (query : QueryInfo)             (* results: [], count: 0 *)
| found (results : list ResultRow) (count totalFound : Z) (query : QueryInfo)
    (threshold : Num) (maxResults : option Z) (strategiesUsed : Z).

(** [if (!allChunks.has(chunk.id)) allChunks.set(chunk.id, chunk)], the map
    kept as the list of its values in insertion order. *)
Definition addChunk (allChunks : list DocChunk) (chunk : DocChunk) : list DocChunk :=
  if existsb (fun c => strEq (id c) (id chunk)) allChunks then allChunks
  else allChunks ++ [chunk].

Definition collect (allChunks : list DocChunk) (result : option (list DocChunk))
  : list DocChunk :=
  match result with
  | Some data => fold_left addChunk data allChunks
  | None => allChunks
  end.

Definition scoreChunk (processed : jsstring) (variations : list jsstring)
  (chunk : DocChunk) : SearchResult :=
  let s := calculateSearchScore (content chunk) processed variations
             {| threshold := None; maxResults := None; includePartial := None;
                boostExact := Some true |} in
  {| chunk := chunk; score := scoredScore s;
     highlights := scoredHighlights s; matchType := scoredMatchType s |}.

Definition highlightResult (processed : jsstring) (variations : list jsstring)
  (result : SearchResult) : ResultRow :=
  {| row := chunk result;
     highlighted := smartHighlight (content (chunk result)) processed variations;
     searchScore := score result;
     rowMatchType := matchType result;
     rowHighlights := highlights result |}.

(** The handler after the request parameters are read: [q] and
    [documentId] are [searchParams.get(...)], [threshold] and [maxResults]
    the parsed numbers. *)
Definition GET (db : Database) (q documentId : option jsstring)
  (threshold : Num) (maxResults : option Z) : Response :=
  match q with
  | None | Some [] => badRequest
  | Some query =>
      let pre := preprocessQuery query in
      let scope := match documentId with Some (c :: r) => Some (c :: r) | _ => None end in
      let searchStrategies :=
        [textSearch (processed pre); ilike (processed pre)]
        ++ map ilike (List.filter (fun keyword => (2 <? length keyword)%nat) (keywords pre)) in
      let searchResults := map (fun strategy => db strategy scope maxResults) searchStrategies in
      let chunks := fold_left collect searchResults [] in
      let info := {| qOriginal := query; qProcessed := processed pre;
                     qVariations := variations pre; qKeywords := keywords pre |} in
      if isEmpty chunks then noCandidates info
      else
        let searchResultsWithScores :=
          map (scoreChunk (processed pre) (variations pre)) chunks in
        let sortedResults := sortSearchResults searchResultsWithScores in
        let filteredResults := filterSearchResults sortedResults (Some threshold) in
        let highlightedResults :=
          map (highlightResult (processed pre) (variations pre)) filteredResults in
        found highlightedResults (Z.of_nat (length highlightedResults))
          (Z.of_nat (length chunks)) info threshold maxResults
          (Z.of_nat (length searchStrategies))
  end.

End SearchRoute.

(** ** Vocabulary of the statements about the chunker *)

Module ChunkerSpec.
Import JS TokenCounter Chunker.

(** What [chunkPages] makes of a list of page chunks: the same chunks,
    numbered from [g] on. *)
Fixpoint reindexFrom (g : Z) (cs : list Chunk) : list Chunk :=
  match cs with
  | [] => []
  | c :: r => withGlobalIndex c g :: reindexFrom (g + 1) r
  end.

Definition pageChunksOf (options : ChunkOptions) (pages : list Page) : list Chunk :=
  concat (map (fun page => chunkText (text page) (pageNo page) options) pages).

(** The position of a chunk that is not the last one of its run. *)
Definition headPosition (k : nat) : Position :=
  if (k =? 0)%nat then pos_start else pos_middle.

(** The position of chunk [k] in a run of [n] chunks: [end] for the last
    one (also when it is the only one), [start] for the first, [middle]
    otherwise. *)
Definition pagePosition (n k : nat) : Position :=
  if (S k =? n)%nat then pos_end else headPosition k.

Definition indexedAs (k : nat) (c : Chunk) : Prop :=
  chunk_index c = Z.of_nat k /\ meta_chunk_index (meta c) = Z.of_nat k /\
  has_overlap (meta c) = (0 <? k)%nat.

(** Invariant of the main loop of [chunkText] before the last iteration. *)
Definition ShapeInv (st : LoopState) : Prop :=
  chunkIndex st = Z.of_nat (length (chunks st)) /\
  forall k c, chunks st !! k = Some c ->
    indexedAs k c /\ position (meta c) = headPosition k.

Definition PageShape (cs : list Chunk) : Prop :=
  forall k c, cs !! k = Some c ->
    indexedAs k c /\ position (meta c) = pagePosition (length cs) k.

Definition nonEmptyChunk (c : Chunk) : Prop :=
  content c <> [] /\ 1 <= token_count c.

Definition ContentInv (st : LoopState) : Prop :=
  Forall (fun s => s <> []) (currentChunk st) /\ Forall nonEmptyChunk (chunks st).

(** The token sum of a list of sentences, as [currentTokens] and
    [overlapTokens] accumulate it. *)
Definition sumTokens (l : list jsstring) : Z :=
  fold_right (fun s acc => countTokens s + acc) 0 l.

(** From the words of the specification: the largest trailing run of the
    sentences, taken from the end and kept in order, whose token sum does
    not exceed [budget].  [remaining] holds the sentences not yet looked
    at, last one first. *)
Fixpoint trailingRunWithin (budget : Z) (remaining run : list jsstring)
  : list jsstring :=
  match remaining with
  | [] => run
  | s :: earlier =>
      if sumTokens (s :: run) <=? budget
      then trailingRunWithin budget earlier (s :: run)
      else run
  end.

Definition largestTrailingRunWithin (budget : Z) (sentences : list jsstring)
  : list jsstring :=
  trailingRunWithin budget (rev sentences) [].

Definition withMinTokens (m : option Q) (options : ChunkOptions) : ChunkOptions :=
  {| minTokens := m; maxTokens := maxTokens options;
     overlapPercentage := overlapPercentage options |}.

(** Inputs of the examples. *)
Definition tinyChunks : ChunkOptions :=
  {| minTokens := None; maxTokens := Some 8%Q; overlapPercentage := None |}.

Definition fiveSentences : jsstring :=
  str "Aaaaaaa. Bbbbbbb. Ccccccc. Ddddddd. Eeeeeee.".

Definition fourSentences : list jsstring :=
  [str "Aaaaaaa."; str "Bbbbbbb."; str "Ccccccc."; str "Ddddddd."].

Definition twoPages : list Page :=
  [ {| pageNo := 1; text := str "A." |};
    {| pageNo := 2; text := fiveSentences |} ].

(** Twenty-three sentences of two tokens each, chunked with an overlap of
    58 per cent. *)
Definition manySentences : jsstring :=
  join (str " ") (repeat (str "Aaaaaaa.") 23).

Definition wideOverlap : ChunkOptions :=
  {| minTokens := None; maxTokens := Some 44%Q; overlapPercentage := Some 58%Q |}.

Definition minAboveMax : ChunkOptions :=
  {| minTokens := Some 1200%Q; maxTokens := Some 600%Q; overlapPercentage := None |}.

End ChunkerSpec.

(** ** Vocabulary of the statements about the fuzzy search *)

Module FuzzySpec.
Import JS FuzzySearch.

(** [0] when the code units at offsets [i] of [str1] and [j] of [str2] are
    equal, else [1]. *)
Definition substCost (str1 str2 : jsstring) (i j : nat) : Z :=
  if charEq (str1 !! i) (str2 !! j) then 0 else 1.

(** The recurrence of the edit distance between the first [i] code units of
    [str1] and the first [j] of [str2] (Wagner and Fischer). *)
Fixpoint levTable (str1 str2 : jsstring) (j : nat) : nat -> Z :=
  match j with
  | O => fun i => Z.of_nat i
  | S j' =>
      fix row (i : nat) : Z :=
        match i with
        | O => Z.of_nat (S j')
        | S i' =>
            Z.min (Z.min (row i' + 1) (levTable str1 str2 j' (S i') + 1))
                  (levTable str1 str2 j' i' + substCost str1 str2 i' j')
        end
  end.

(** From the words of the specification: a way to transform [a] into [b]
    by single-character deletions, insertions and substitutions, each of
    cost 1, read from the left to the right end of both strings; a
    character that is kept costs nothing. *)
Inductive EditScript : jsstring -> jsstring -> Z -> Prop :=
| edit_done : EditScript [] [] 0
| edit_delete a b x n :
    EditScript a b n -> EditScript (a ++ [x]) b (n + 1)
| edit_insert a b y n :
    EditScript a b n -> EditScript a (b ++ [y]) (n + 1)
| edit_keep a b x n :
    EditScript a b n -> EditScript (a ++ [x]) (b ++ [x]) n
| edit_substitute a b x y n :
    EditScript a b n -> EditScript (a ++ [x]) (b ++ [y]) (n + 1).

(** The classic edit distance: the cost of a cheapest script. *)
Definition isEditDistance (a b : jsstring) (d : Z) : Prop :=
  EditScript a b d /\ forall n, EditScript a b n -> d <= n.

(** The table of [levenshteinDistance] has [rows] rows of [cols] cells. *)
Definition wellFormed (rows cols : nat) (matrix : Matrix) : Prop :=
  length matrix = rows /\
  forall j row, matrix !! j = Some row -> length row = cols.

(** The cells of [matrix] selected by [P] hold the recurrence. *)
Definition Known (str1 str2 : jsstring) (P : nat -> nat -> Prop) (matrix : Matrix)
  : Prop :=
  wellFormed (length str2 + 1) (length str1 + 1) matrix /\
  forall j i, (j <= length str2)%nat -> (i <= length str1)%nat -> P j i ->
    getCell matrix j i = levTable str1 str2 j i.

(** [a] is not ranked after [b]: a higher type priority, or the same
    priority and a score that is not smaller. *)
Definition ranksBefore (a b : SearchResult) : Prop :=
  typePriority (matchType b) < typePriority (matchType a)
  \/ (typePriority (matchType a) = typePriority (matchType b)
      /\ (score b <= score a)%Q).

(** [a] and [b] have the same match type and the same score. *)
Definition sameRank (a b : SearchResult) : bool :=
  (typePriority (matchType a) =? typePriority (matchType b))
  && Qeq_bool (score a) (score b).

(** Inputs of the examples. *)
Definition rowAt (i : Z) (text : string) : DocChunk :=
  {| id := str "chunk-" ++ [ascii_of_nat (48 + Z.to_nat i)];
     document_id := str "doc-1"; chunk_index := i; page_no := 1;
     content := str text; token_count := 2 |}.

Definition tiedResult (i : Z) : SearchResult :=
  {| chunk := rowAt i "the report"; score := 100; highlights := [hl_exact];
     matchType := exact |}.

End FuzzySpec.

(** ** Inputs of the examples about the search route *)

Module RouteSpec.
Import JS FuzzySearch FuzzySpec SearchRoute.

(** A database of two rows in which only the [ilike] queries succeed. *)
Definition twoRows : Database :=
  fun strategy _ _ =>
    match strategy with
    | ilike _ => Some [rowAt 0 "nothing here"; rowAt 1 "the document is ready"]
    | textSearch _ => None
    end.

(** A database whose queries return one row each, as a limit of 1 asks:
    the text search finds row 1 and every [ilike] query finds row 0. *)
Definition oneRowEach : Database :=
  fun strategy _ _ =>
    match strategy with
    | textSearch _ => Some [rowAt 1 "the document is ready"]
    | ilike _ => Some [rowAt 0 "a document"]
    end.

Definition emptyDatabase : Database := fun _ _ _ => Some [].

Definition routeOptions : SearchOptions :=
  {| threshold := None; maxResults := None; includePartial := None;
     boostExact := Some true |}.

End RouteSpec.

(** ** utils/tokenCounter.ts, continued *)

Module TokenCounterMore.
Import JS.

(** [countTokensAccurate]: 0 for the empty string, else
    [Math.ceil(words.length / 0.75)] for the pieces of
    [text.trim().split(/\s+/)]. *)
Definition countTokensAccurate (text : jsstring) : Z :=
  if isEmpty text then 0
  else
    let words := splitSpaces (trim text) in
    Qceiling (inject_Z (Z.of_nat (length words)) / (3 # 4))%Q.

(** The test [w => w.length > 0] on a piece of a split. *)
Abbreviation nonEmptyPiece := (fun w : jsstring => negb (isEmpty w)).

(** The number of words of a text: its maximal runs of characters that are
    not white space. *)
Definition wordCount (text : jsstring) : nat :=
  length (List.filter (fun w => negb (isEmpty w)) (splitSpaces text)).

End TokenCounterMore.

(** ** Vocabulary of further statements about the chunker *)

Module ChunkerVocabulary.
Import JS TokenCounter Chunker ChunkerSpec.

(** The string neither starts nor ends with white space. *)
Definition noEdgeSpace (s : jsstring) : Prop :=
  match s with c :: _ => isSpace c = false | [] => True end /\
  match rev s with c :: _ => isSpace c = false | [] => True end.

(** Characters that end no sentence, followed by terminators only. *)
Definition sentenceShape (s : jsstring) : Prop :=
  exists body terms,
    s = body ++ terms /\
    forallb (fun c => negb (isTerminator c)) body = true /\
    forallb isTerminator terms = true.

(** The sentences of one chunk: those repeated from the chunk before it
    (the overlap), then those that no earlier chunk holds. *)
Record Part := { seed : list jsstring; fresh : list jsstring }.

Definition partSentences (part : Part) : list jsstring := seed part ++ fresh part.

Definition partContent (part : Part) : jsstring :=
  join (str " ") (partSentences part).

(** The overlap of every part is a trailing run of the sentences of the
    part before it; [prev] stands for the sentences before the first part. *)
Fixpoint chained (prev : list jsstring) (parts : list Part) : Prop :=
  match parts with
  | [] => True
  | part :: rest =>
      (exists pre, prev = pre ++ seed part) /\ chained (partSentences part) rest
  end.

(** [seed] is the shortest trailing run of [sentences] whose token sum
    reaches [target], that is, is not below it; or it is all of
    [sentences] when no trailing run reaches the target. *)
Definition shortestRunReaching (target : Num) (sentences seed : list jsstring)
  : Prop :=
  exists pre,
    sentences = pre ++ seed /\
    (pre = [] \/ ltNum (sumTokens seed) target = false) /\
    (forall pre' seed', sentences = pre' ++ seed' ->
       (length seed' < length seed)%nat -> ltNum (sumTokens seed') target = true).

(** The overlap of [next] is the one that the code takes from the chunk of
    [prev]: the target is computed from the token count of that chunk. *)
Definition overlapSeed (opts : Options) (prev next : Part) : Prop :=
  shortestRunReaching (overlapTokenTarget opts (countTokens (partContent prev)))
    (partSentences prev) (seed next).

Fixpoint overlapLinked (opts : Options) (parts : list Part) : Prop :=
  match parts with
  | prev :: rest =>
      match rest with
      | next :: _ => overlapSeed opts prev next
      | [] => True
      end /\ overlapLinked opts rest
  | [] => True
  end.

(** The token sum of the sentences of a part stays within [maxTokens],
    unless the part holds a single new sentence. *)
Definition withinBudget (opts : Options) (part : Part) : Prop :=
  (inject_Z (sumTokens (partSentences part)) <= optMaxTokens opts)%Q
  \/ length (fresh part) = 1%nat.

(** The accumulator of the main loop, read as an open part. *)
Definition OpenPart (opts : Options) (st : LoopState) (part : Part) : Prop :=
  currentChunk st = partSentences part /\
  (currentChunk st <> [] -> fresh part <> []) /\
  currentTokens st = sumTokens (currentChunk st) /\
  ((inject_Z (currentTokens st) <= optMaxTokens opts)%Q
   \/ (length (fresh part) <= 1)%nat).

End ChunkerVocabulary.

(** ** The parse function (supabase/functions): from the text of a PDF to
    pages

    The function has its own copy of [countTokens], [splitIntoSentences]
    and [chunkText], the same as those of lib/chunker, and chunks the pages
    by the loop of [chunkPages].  What is embedded here is how [parsePDF]
    makes pages of the result of the [pdf-parse] library: [numpages] and
    the whole [text]. *)

Module EdgeFunction.
Import JS Chunker.

Definition imageOnlyText : jsstring :=
  str "[Empty or image-only page - OCR not implemented]".

Definition emptyPageText : jsstring := str "[Empty page]".

(** The form feed ['\f']. *)
Definition formFeed : ascii := ascii_of_nat 12.

(** [s.split(sep)] for a separator of one character; [cur] is the piece
    being read, reversed. *)
Fixpoint splitOn (sep : ascii) (cur s : jsstring) : list jsstring :=
  match s with
  | [] => [rev cur]
  | c :: r =>
      if Ascii.eqb c sep then rev cur :: splitOn sep [] r
      else splitOn sep (c :: cur) r
  end.

(** [s.substring(start, end)] for indices that are not negative: both are
    cut down to the length, and swapped when the first is the larger. *)
Definition substring (s : jsstring) (start finish : nat) : jsstring :=
  let a := Nat.min start (length s) in
  let b := Nat.min finish (length s) in
  firstn (Nat.max a b - Nat.min a b) (skipn (Nat.min a b) s).

(** [pageText || '[Empty page]'] *)
Definition orEmptyPage (pageText : jsstring) : jsstring :=
  if isEmpty pageText then emptyPageText else pageText.

(** [Math.ceil(fullText.length / pageCount)], used for [pageCount > 0]. *)
Definition textPerPage (fullText : jsstring) (pageCount : nat) : nat :=
  (length fullText + pageCount - 1) / pageCount.

(** [while (pages.length < pageCount) pages.push(...)], with the number of
    iterations that are left. *)
Fixpoint padPages (missing : nat) (pages : list Page) : list Page :=
  match missing with
  | O => pages
  | S missing' =>
      padPages missing'
        (pages ++ [ {| pageNo := Z.of_nat (length pages + 1); text := emptyPageText |} ])
  end.

Definition parsePDF (fullText : jsstring) (pageCount : nat) : list Page :=
  if isEmpty fullText || isEmpty (trim fullText) then
    (* for (let i = 1; i <= pageCount; i++) *)
    map (fun i => {| pageNo := Z.of_nat i; text := imageOnlyText |}) (seq 1 pageCount)
  else
    let pageTexts :=
      List.filter (fun t => negb (isEmpty (trim t))) (splitOn formFeed [] fullText) in
    let pages :=
      if (length pageTexts <? pageCount)%nat then
        let textPerPage := textPerPage fullText pageCount in
        map (fun i =>
               let start := (i * textPerPage)%nat in
               let finish := Nat.min (start + textPerPage) (length fullText) in
               let pageText := trim (substring fullText start finish) in
               {| pageNo := Z.of_nat (i + 1); text := orEmptyPage pageText |})
          (seq 0 pageCount)
      else
        map (fun i =>
               {| pageNo := Z.of_nat (i + 1);
                  text := orEmptyPage (trim (nth i pageTexts [])) |})
          (seq 0 (Nat.min (length pageTexts) pageCount)) in
    let pages := padPages (pageCount - length pages) pages in
    firstn pageCount pages.

End EdgeFunction.

(** ** Vocabulary of further statements about the fuzzy search *)

Module FuzzyVocabulary.
Import JS FuzzySearch.

(** What holds of the score, the match type and the highlights while
    [calculateSearchScore] runs: without a signal the type is [trigram],
    the score 0 and the highlights empty. *)
Definition ScoreInv (st : ScoreState) : Prop :=
  (0 <= curScore st)%Q /\
  (curMatchType st = trigram -> curScore st = 0%Q /\ curHighlights st = []) /\
  (curMatchType st <> trigram -> curHighlights st <> []).

(** A step of [calculateSearchScore] keeps the invariant, never lowers the
    score and neither gives nor takes the type [exact]. *)
Definition StepOK (st st' : ScoreState) : Prop :=
  (ScoreInv st -> ScoreInv st') /\
  (curScore st <= curScore st')%Q /\
  (curMatchType st' = exact <-> curMatchType st = exact).

(** The words of the query that occur in the content between word
    boundaries. *)
Definition exactWords (contentLower queryLower : jsstring) : list jsstring :=
  List.filter (fun word => negb (isEmpty word) && wordBoundaryTest word contentLower)
    (splitSpaces queryLower).

(** What a step does to the set of variations: the first one stays first,
    no variation is lost, none is listed twice. *)
Definition growsSet (l l' : list jsstring) : Prop :=
  (forall x rest, l = x :: rest -> exists rest', l' = x :: rest')
  /\ (forall x, In x l -> In x l')
  /\ (NoDup l -> NoDup l').

(** [[a-z0-9_]]: the word characters that are left in a normalized
    query. *)
Definition isLowerWordChar (c : ascii) : bool :=
  let n := nat_of_ascii c in
  ((97 <=? n)%nat && (n <=? 122)%nat) || ((48 <=? n)%nat && (n <=? 57)%nat)
  || (n =? 95)%nat.

(** A keyword: at least one character, all of them in [[a-z0-9_]]. *)
Definition isKeyword (w : jsstring) : Prop :=
  w <> [] /\ forallb isLowerWordChar w = true.

(** Every white-space character of the string is a space that no
    white space follows. *)
Fixpoint singleSpaced (s : jsstring) : Prop :=
  match s with
  | [] => True
  | c :: r =>
      (isSpace c = true ->
       c = " "%char /\ match r with c' :: _ => isSpace c' = false | [] => True end)
      /\ singleSpaced r
  end.

(** The string is made of [[a-z0-9_]] and white space. *)
Definition queryChars (s : jsstring) : Prop :=
  forallb (fun c => isLowerWordChar c || isSpace c) s = true.

(** The text of a piece of highlighted content. *)
Definition pieceText (piece : Piece) : jsstring :=
  match piece with plain s => s | mark _ s => s end.

End FuzzyVocabulary.

(** ** Vocabulary of further statements about the search route *)

Module RouteVocabulary.
Import JS FuzzySearch FuzzySpec SearchRoute.

(** The parts of [GET], named. *)
Definition scopeOf (documentId : option jsstring) : option jsstring :=
  match documentId with Some (c :: r) => Some (c :: r) | _ => None end.

Definition strategiesOf (pre : Preprocessed) : list Strategy :=
  [textSearch (processed pre); ilike (processed pre)]
  ++ map ilike (List.filter (fun keyword => (2 <? length keyword)%nat) (keywords pre)).

Definition candidatesOf (db : Database) (pre : Preprocessed)
  (documentId : option jsstring) (maxResults : option Z) : list DocChunk :=
  fold_left collect
    (map (fun strategy => db strategy (scopeOf documentId) maxResults) (strategiesOf pre))
    [].

Definition rowsOf (pre : Preprocessed) (threshold : Num) (chunks : list DocChunk)
  : list ResultRow :=
  map (highlightResult (processed pre) (variations pre))
    (filterSearchResults
       (sortSearchResults (map (scoreChunk (processed pre) (variations pre)) chunks))
       (Some threshold)).

Definition infoOf (query : jsstring) : QueryInfo :=
  let pre := preprocessQuery query in
  {| qOriginal := query; qProcessed := processed pre;
     qVariations := variations pre; qKeywords := keywords pre |}.

(** [ranksBefore] on the rows of a response. *)
Definition rowRanksBefore (a b : ResultRow) : Prop :=
  typePriority (rowMatchType b) < typePriority (rowMatchType a)
  \/ (typePriority (rowMatchType a) = typePriority (rowMatchType b)
      /\ (searchScore b <= searchScore a)%Q).

(** A database in which a failed query is an empty answer. *)
Definition failuresAsEmpty (db : Database) : Database :=
  fun strategy scope limit => Some (default [] (db strategy scope limit)).

Definition allFail : Database := fun _ _ _ => None.

Definition resultsOf (response : Response) : list ResultRow :=
  match response with found results _ _ _ _ _ _ => results | _ => [] end.

End RouteVocabulary.

(** ** Proofs about the chunker *)

Module ChunkerProofs.
Import JS TokenCounter Chunker ChunkerSpec.

(** *** [chunkPages] renumbers the page chunks and changes nothing else *)

Lemma reindexFrom_app g l1 l2 :
  reindexFrom g (l1 ++ l2)
  = reindexFrom g l1 ++ reindexFrom (g + Z.of_nat (length l1)) l2.
Proof.
  revert g; induction l1 as [|c l1 IH]; intros g; simpl.
  - by rewrite Z.add_0_r.
  - rewrite IH. do 3 f_equal. lia.
Qed.

Lemma pushPageChunks_eq pcs acc :
  pushPageChunks pcs acc =
  (fst acc ++ reindexFrom (snd acc) pcs, snd acc + Z.of_nat (length pcs)).
Proof.
  revert acc; induction pcs as [|c r IH]; intros [all g]; simpl.
  - by rewrite app_nil_r, Z.add_0_r.
  - rewrite IH; simpl. rewrite <- app_assoc. simpl. f_equal. lia.
Qed.

Lemma pagesLoop_eq options pages acc :
  pagesLoop options pages acc =
  (fst acc ++ reindexFrom (snd acc) (pageChunksOf options pages),
   snd acc + Z.of_nat (length (pageChunksOf options pages))).
Proof.
  revert acc; induction pages as [|p r IH]; intros [all g]; simpl.
  - by rewrite app_nil_r, Z.add_0_r.
  - rewrite IH, pushPageChunks_eq; simpl. unfold pageChunksOf; simpl.
    rewrite reindexFrom_app, length_app, <- app_assoc. f_equal. lia.
Qed.

Lemma chunkPages_eq pages options :
  chunkPages pages options = reindexFrom 0 (pageChunksOf options pages).
Proof. unfold chunkPages. by rewrite pagesLoop_eq. Qed.

Lemma reindexFrom_length g cs : length (reindexFrom g cs) = length cs.
Proof. revert g; induction cs; intros; simpl; auto. Qed.

Lemma reindexFrom_meta {B} (f : Chunk -> B) g cs :
  (forall c i, f (withGlobalIndex c i) = f c) ->
  map f (reindexFrom g cs) = map f cs.
Proof.
  intros Hf. revert g; induction cs as [|c cs IH]; intros g; simpl; [done|].
  by rewrite Hf, IH.
Qed.

Lemma reindexFrom_In g cs c :
  In c (reindexFrom g cs) -> exists c0 i, In c0 cs /\ c = withGlobalIndex c0 i.
Proof.
  revert g; induction cs as [|c0 cs IH]; intros g; simpl; [done|].
  intros [<- | H]; [by eauto|]. destruct (IH _ H) as (c1 & i & ? & ?). eauto 6.
Qed.

Lemma reindexFrom_indices cs g :
  map chunk_index (reindexFrom g cs)
  = map (fun i => g + Z.of_nat i) (seq 0 (length (reindexFrom g cs)))
  /\ map (fun c => meta_chunk_index (meta c)) (reindexFrom g cs)
     = map chunk_index (reindexFrom g cs).
Proof.
  revert g; induction cs as [|c cs IH]; intros g; simpl; [done|].
  destruct (IH (g + 1)) as [IH1 IH2]. split; [|by rewrite IH2].
  rewrite IH1. f_equal; [lia|]. rewrite <- seq_shift, map_map.
  apply map_ext. intros; lia.
Qed.

(** C7.  The [chunk_index] values of the chunks of [chunkPages], in output
    order, are 0, 1, ..., N-1 where N is the number of chunks; the copy in
    [meta] agrees. *)
Theorem chunkPages_indices_contiguous pages options :
  map chunk_index (chunkPages pages options)
  = map Z.of_nat (seq 0 (length (chunkPages pages options)))
  /\ map (fun c => meta_chunk_index (meta c)) (chunkPages pages options)
     = map chunk_index (chunkPages pages options).
Proof.
  rewrite chunkPages_eq.
  destruct (reindexFrom_indices (pageChunksOf options pages) 0) as [H1 H2].
  split; [|done]. rewrite H1. by apply map_ext.
Qed.

(** *** The shape of the chunks of one page *)

Lemma isEmpty_snoc {A} (l : list A) x : isEmpty (l ++ [x]) = false.
Proof. by destruct l. Qed.

Lemma isEmpty_false {A} (l : list A) : isEmpty l = false <-> l <> [].
Proof. by destruct l. Qed.

Lemma ltb_of_nat k : (0 <? Z.of_nat k) = (0 <? k)%nat.
Proof. by destruct k. Qed.

Lemma ShapeInv_init : ShapeInv initState.
Proof. split; [done|]. intros k c; simpl. by rewrite lookup_nil. Qed.

Lemma ShapeInv_flush opts p st : ShapeInv st -> ShapeInv (flush opts p st).
Proof.
  intros [Hi Hc]. split; simpl.
  - rewrite length_app; simpl. lia.
  - intros k c Hk. apply lookup_app_Some in Hk as [Hk | [Hlen Hk]]; [by apply Hc|].
    apply list_lookup_singleton_Some in Hk as [Hk <-].
    assert (k = length (chunks st)) as -> by lia.
    unfold indexedAs, headPosition; simpl. rewrite Hi, ltb_of_nat.
    repeat split. destruct (length (chunks st)); simpl; done.
Qed.

Lemma ShapeInv_step opts p s st :
  ShapeInv st -> ShapeInv (loopBody opts p false s st).
Proof.
  intros H. unfold loopBody, flushLast; simpl.
  destruct (mustFlush opts st (countTokens s)); [apply (ShapeInv_flush opts p) in H|];
    destruct H as [Hi Hc]; split; simpl; auto.
Qed.

Lemma PageShape_last opts p s st :
  ShapeInv st -> PageShape (chunks (loopBody opts p true s st)).
Proof.
  intros H. unfold loopBody.
  set (st1 := if mustFlush _ _ _ then _ else _).
  assert (H1 : ShapeInv st1).
  { subst st1. destruct (mustFlush _ _ _); [by apply ShapeInv_flush | done]. }
  clearbody st1. destruct H1 as [Hi Hc].
  unfold flushLast, pushSentence; simpl. rewrite isEmpty_snoc; simpl.
  intros k c Hk. rewrite length_app, Nat.add_1_r. unfold pagePosition.
  apply lookup_app_Some in Hk as [Hk | [Hlen Hk]].
  - destruct (Hc k c Hk) as [? ->]. split; [done|].
    apply lookup_lt_Some in Hk.
    destruct (Nat.eqb_spec (S k) (S (length (chunks st1)))); [lia | done].
  - apply list_lookup_singleton_Some in Hk as [Hk <-].
    assert (k = length (chunks st1)) as -> by lia.
    rewrite Nat.eqb_refl. unfold indexedAs; simpl. by rewrite Hi, ltb_of_nat.
Qed.

Lemma mainLoop_shape opts p sentences st :
  sentences <> [] -> ShapeInv st ->
  PageShape (chunks (mainLoop opts p sentences st)).
Proof.
  revert st; induction sentences as [|s rest IH]; intros st Hne Hinv; [done|].
  simpl. destruct rest as [|s' rest'].
  - simpl. by apply PageShape_last.
  - apply IH; [done|]. by apply ShapeInv_step.
Qed.

Lemma chunkText_shape t p options : PageShape (chunkText t p options).
Proof.
  unfold chunkText. destruct (splitIntoSentences t) as [|s r] eqn:E; cbn [isEmpty].
  - intros k c. by rewrite lookup_nil.
  - apply mainLoop_shape; [done | apply ShapeInv_init].
Qed.

Lemma map_by_index {B} (f : Chunk -> B) (g : nat -> B) cs off :
  (forall k c, cs !! k = Some c -> f c = g (off + k)%nat) ->
  map f cs = map g (seq off (length cs)).
Proof.
  revert off; induction cs as [|c cs IH]; intros off H; simpl; [done|].
  f_equal.
  - rewrite (H 0%nat c eq_refl). f_equal. lia.
  - apply IH. intros k c' Hk. rewrite (H (S k) c' Hk). f_equal. lia.
Qed.

Lemma PageShape_positions cs :
  PageShape cs ->
  map (fun c => position (meta c)) cs
  = map (pagePosition (length cs)) (seq 0 (length cs)).
Proof. intros H. apply map_by_index. intros k c Hk. by destruct (H k c Hk). Qed.

Lemma PageShape_overlaps cs :
  PageShape cs ->
  map (fun c => has_overlap (meta c)) cs
  = map (fun k => (0 <? k)%nat) (seq 0 (length cs)).
Proof.
  intros H. apply map_by_index. intros k c Hk.
  by destruct (H k c Hk) as [(_ & _ & ?) _].
Qed.

Lemma map_pageChunksOf {B} (f : Chunk -> B) options pages :
  map f (pageChunksOf options pages)
  = concat (map (fun page => map f (chunkText (text page) (pageNo page) options)) pages).
Proof. unfold pageChunksOf. by rewrite concat_map, map_map. Qed.

(** C1, as the code has it.  [chunkPages] leaves the position that
    [chunkText] gave each chunk within its page: the positions of the
    document are, page after page, those of a run of n chunks (last one
    [end], first one [start] unless it is the last, others [middle]), n
    being the number of chunks of the page.  For a document of one page
    this is the numbering of the whole document. *)
Theorem chunkPages_position_per_page pages options :
  map (fun c => position (meta c)) (chunkPages pages options)
  = concat (map (fun page =>
              let n := length (chunkText (text page) (pageNo page) options) in
              map (pagePosition n) (seq 0 n)) pages)
  /\ (forall page,
        let n := length (chunkPages [page] options) in
        map (fun c => position (meta c)) (chunkPages [page] options)
        = map (pagePosition n) (seq 0 n)).
Proof.
  assert (H : forall pages,
    map (fun c => position (meta c)) (chunkPages pages options)
    = concat (map (fun page =>
                let n := length (chunkText (text page) (pageNo page) options) in
                map (pagePosition n) (seq 0 n)) pages)).
  { intros ps. rewrite chunkPages_eq, reindexFrom_meta by done.
    rewrite map_pageChunksOf. f_equal. apply map_ext. intros page.
    apply PageShape_positions, chunkText_shape. }
  split; [apply H|]. intros page n. subst n. rewrite H. simpl.
  rewrite app_nil_r, chunkPages_eq, reindexFrom_length.
  unfold pageChunksOf; simpl. by rewrite app_nil_r.
Qed.

(** C1 as stated fails: in this document of three chunks, chunk 0 has
    position [end] although it is not the last one, and chunk 1 has
    position [start]. *)
Lemma chunkPages_position_not_global :
  map (fun c => (chunk_index c, position (meta c))) (chunkPages twoPages tinyChunks)
  = [(0, pos_end); (1, pos_start); (2, pos_end)]
  /\ map (fun c => position (meta c)) (chunkPages twoPages tinyChunks)
     <> map (pagePosition 3) (seq 0 3).
Proof. split; [by vm_compute | by vm_compute]. Qed.

(** C2, as the code has it.  [has_overlap] is decided by the index of the
    chunk within its page: in the run of each page the first chunk has
    [has_overlap = false] and every later one [true].  The chunk with global
    index 0 has [has_overlap = false]. *)
Theorem chunkPages_has_overlap_per_page pages options :
  map (fun c => has_overlap (meta c)) (chunkPages pages options)
  = concat (map (fun page =>
              map (fun k => (0 <? k)%nat)
                (seq 0 (length (chunkText (text page) (pageNo page) options)))) pages)
  /\ match chunkPages pages options with
     | c :: _ => chunk_index c = 0 /\ has_overlap (meta c) = false
     | [] => True
     end.
Proof.
  split.
  - rewrite chunkPages_eq, reindexFrom_meta by done.
    rewrite map_pageChunksOf. f_equal. apply map_ext. intros page.
    apply PageShape_overlaps, chunkText_shape.
  - rewrite chunkPages_eq. unfold pageChunksOf.
    induction pages as [|page rest IH]; simpl; [done|].
    pose proof (chunkText_shape (text page) (pageNo page) options) as Hs.
    destruct (chunkText (text page) (pageNo page) options) as [|c cs]; simpl; [done|].
    split; [done|]. by destruct (Hs 0%nat c eq_refl) as [(_ & _ & ?) _].
Qed.

(** C2 as stated fails: chunk 1 of this document is the first chunk of its
    page and has [has_overlap = false]. *)
Lemma chunkPages_has_overlap_not_global :
  map (fun c => (chunk_index c, has_overlap (meta c))) (chunkPages twoPages tinyChunks)
  = [(0, false); (1, false); (2, true)].
Proof. by vm_compute. Qed.

(** *** Chunks are never empty *)

Lemma countTokens_nonneg s : 0 <= countTokens s.
Proof.
  unfold countTokens, CHARS_PER_TOKEN. destruct (isEmpty s); [lia|].
  apply Z.div_pos; lia.
Qed.

Lemma countTokens_pos s : s <> [] -> 1 <= countTokens s.
Proof.
  unfold countTokens, CHARS_PER_TOKEN. destruct s as [|c s]; [done|]. intros _.
  cbn [isEmpty]. apply Z.div_le_lower_bound; [lia|]. simpl length. lia.
Qed.

Lemma join_nonempty sep l :
  l <> [] -> Forall (fun s => s <> []) l -> join sep l <> [].
Proof.
  destruct l as [|x r]; [done|]. intros _ H. inversion H as [|? ? Hx _]; subst.
  destruct x as [|a x]; [done|]. simpl. by destruct r.
Qed.

Lemma mkChunk_nonEmpty l p i pos :
  l <> [] -> Forall (fun s => s <> []) l ->
  nonEmptyChunk (mkChunk (join (str " ") l) p i pos).
Proof.
  intros Hl Hf. pose proof (join_nonempty (str " ") l Hl Hf).
  split; simpl; [done | by apply countTokens_pos].
Qed.

Lemma overlapLoop_Forall (P : jsstring -> Prop) target remaining acc tok :
  Forall P remaining -> Forall P acc ->
  Forall P (fst (overlapLoop target remaining acc tok)).
Proof.
  revert acc tok; induction remaining as [|s r IH]; intros acc tok Hr Ha; simpl; [done|].
  inversion Hr; subst. destruct (ltNum tok target); [|done].
  apply IH; [done | by constructor].
Qed.

Lemma ContentInv_step opts p isLast s st :
  s <> [] -> ContentInv st -> ContentInv (loopBody opts p isLast s st).
Proof.
  intros Hs [Hc Hk]. unfold loopBody.
  set (st1 := if mustFlush _ _ _ then _ else _).
  assert (H1 : ContentInv st1).
  { subst st1. destruct (mustFlush _ _ _) eqn:E; [|done].
    apply andb_true_iff in E as [_ E]. apply negb_true_iff, isEmpty_false in E.
    split; simpl.
    - apply overlapLoop_Forall; [by apply Forall_rev | constructor].
    - apply Forall_app; split; [done|]. constructor; [|constructor].
      by apply mkChunk_nonEmpty. }
  clearbody st1. destruct H1 as [Hc1 Hk1].
  assert (Hc2 : Forall (fun s => s <> []) (currentChunk st1 ++ [s])).
  { apply Forall_app; split; [done|]. by repeat constructor. }
  unfold flushLast, pushSentence; simpl. rewrite isEmpty_snoc.
  destruct isLast; simpl; split; try done.
  apply Forall_app; split; [done|]. constructor; [|constructor].
  apply mkChunk_nonEmpty; [by destruct (currentChunk st1) | done].
Qed.

Lemma mainLoop_ContentInv opts p sentences st :
  Forall (fun s => s <> []) sentences -> ContentInv st ->
  ContentInv (mainLoop opts p sentences st).
Proof.
  revert st; induction sentences as [|s r IH]; intros st Hs Hinv; simpl; [done|].
  inversion Hs; subst. apply IH; [done|]. by apply ContentInv_step.
Qed.

Lemma splitIntoSentences_nonempty t :
  Forall (fun s => s <> []) (splitIntoSentences t).
Proof.
  unfold splitIntoSentences. apply List.Forall_forall. intros s Hs.
  apply filter_In in Hs as [_ Hs]. by apply negb_true_iff, isEmpty_false in Hs.
Qed.

Lemma chunkText_nonEmpty t p options :
  Forall nonEmptyChunk (chunkText t p options).
Proof.
  unfold chunkText. destruct (isEmpty _); [constructor|].
  apply mainLoop_ContentInv; [apply splitIntoSentences_nonempty|].
  split; constructor.
Qed.

(** C9.  Every chunk of [chunkText] and every chunk of [chunkPages] has a
    content that is not the empty string and a token count of at least 1. *)
Theorem chunks_nonempty_positive t p pages options :
  Forall (fun c => content c <> [] /\ 1 <= token_count c) (chunkText t p options)
  /\ Forall (fun c => content c <> [] /\ 1 <= token_count c) (chunkPages pages options).
Proof.
  split; [apply chunkText_nonEmpty|].
  apply List.Forall_forall. intros c H.
  rewrite chunkPages_eq in H. apply reindexFrom_In in H as (c0 & i & Hin & ->).
  unfold pageChunksOf in Hin. apply in_concat in Hin as (l & Hl & Hin).
  apply in_map_iff in Hl as (pg & <- & _).
  pose proof (chunkText_nonEmpty (text pg) (pageNo pg) options) as HF.
  rewrite List.Forall_forall in HF. exact (HF c0 Hin).
Qed.

(** *** The options *)

Lemma loopBody_options opts1 opts2 p isLast s st :
  optMaxTokens opts1 = optMaxTokens opts2 ->
  optOverlapPercentage opts1 = optOverlapPercentage opts2 ->
  loopBody opts1 p isLast s st = loopBody opts2 p isLast s st.
Proof.
  intros Hm Ho. unfold loopBody, mustFlush, flush, overlapTokenTarget.
  by rewrite Hm, Ho.
Qed.

Lemma mainLoop_options opts1 opts2 p sentences st :
  optMaxTokens opts1 = optMaxTokens opts2 ->
  optOverlapPercentage opts1 = optOverlapPercentage opts2 ->
  mainLoop opts1 p sentences st = mainLoop opts2 p sentences st.
Proof.
  intros Hm Ho. revert st; induction sentences as [|s r IH]; intros st; simpl; [done|].
  by rewrite IH, (loopBody_options opts1 opts2).
Qed.

Lemma chunkText_ignores_minTokens t p m options :
  chunkText t p (withMinTokens m options) = chunkText t p options.
Proof.
  unfold chunkText. destruct (isEmpty _); [done|]. f_equal.
  by apply mainLoop_options.
Qed.

(** C3, as the code has it.  Nothing validates the options and
    [minTokens] is never read: [chunkText] and [chunkPages] return the same
    chunks whatever [minTokens] is, also when it exceeds [maxTokens]. *)
Theorem chunkPages_ignores_minTokens pages t p m options :
  chunkPages pages (withMinTokens m options) = chunkPages pages options
  /\ chunkText t p (withMinTokens m options) = chunkText t p options.
Proof.
  split; [|apply chunkText_ignores_minTokens].
  rewrite !chunkPages_eq. f_equal. unfold pageChunksOf. f_equal.
  apply map_ext. intros page. apply chunkText_ignores_minTokens.
Qed.

(** C3 as stated fails: with [minTokens = 1200 > maxTokens = 600] the page
    is chunked as usual. *)
Lemma chunkPages_accepts_min_above_max :
  (optMaxTokens (mergeOptions minAboveMax) < optMinTokens (mergeOptions minAboveMax))%Q
  /\ chunkPages [ {| pageNo := 1; text := str "First sentence. Second sentence." |} ]
       minAboveMax
     = [ mkChunk (str "First sentence. Second sentence.") 1 0 pos_end ].
Proof. split; by vm_compute. Qed.

(** *** The overlap *)

Lemma sumTokens_app l1 l2 : sumTokens (l1 ++ l2) = sumTokens l1 + sumTokens l2.
Proof. induction l1; simpl; lia. Qed.

Lemma sumTokens_nonneg l : 0 <= sumTokens l.
Proof.
  induction l as [|s l IH]; simpl; [lia|]. pose proof (countTokens_nonneg s). lia.
Qed.

Lemma ltNum_mono a b target : a <= b -> ltNum b target = true -> ltNum a target = true.
Proof.
  destruct target as [t| | |]; cbn [ltNum]; try done.
  intros Hab H. apply negb_true_iff in H. apply negb_true_iff.
  destruct (Qle_bool t (inject_Z a)) eqn:E; [|done].
  apply Qle_bool_iff in E.
  assert (Hle : (t <= inject_Z b)%Q).
  { eapply Qle_trans; [exact E|]. by rewrite <- Zle_Qle. }
  apply Qle_bool_iff in Hle. congruence.
Qed.

Lemma overlapLoop_spec target remaining acc tok :
  tok = sumTokens acc ->
  exists taken rest,
    remaining = taken ++ rest /\
    fst (overlapLoop target remaining acc tok) = rev taken ++ acc /\
    snd (overlapLoop target remaining acc tok) = sumTokens (rev taken ++ acc) /\
    (rest = [] \/ ltNum (sumTokens (rev taken ++ acc)) target = false) /\
    (forall x taken', taken = taken' ++ [x] ->
       ltNum (sumTokens (rev taken' ++ acc)) target = true).
Proof.
  revert acc tok; induction remaining as [|s r IH]; intros acc tok ->; simpl.
  - exists [], []. repeat split; auto. intros x t' H. by destruct t'.
  - destruct (ltNum (sumTokens acc) target) eqn:Hlt.
    + destruct (IH (s :: acc) (sumTokens acc + countTokens s))
        as (tk & rs & -> & H1 & H2 & H3 & H4).
      { simpl. lia. }
      exists (s :: tk), rs. simpl. rewrite <- !app_assoc. simpl.
      repeat split; auto.
      intros x t' E. destruct t' as [|y t'].
      * simpl in *. done.
      * simpl in E. injection E as <- ->. simpl. rewrite <- app_assoc. simpl.
        eapply H4; eauto.
    + exists [], (s :: r). simpl. repeat split; auto.
      intros x t' H. by destruct t'.
Qed.

Lemma suffix_of_shorter {A} (p1 s1 p2 s2 : list A) :
  p1 ++ s1 = p2 ++ s2 -> (length s2 <= length s1)%nat -> exists q, s1 = q ++ s2.
Proof.
  intros E Hl. apply app_eq_app in E as (l & [[-> ->] | [-> ->]]).
  - rewrite length_app in Hl. destruct l; [|simpl in Hl; lia]. by exists [].
  - by exists l.
Qed.

(** The backward loop returns the shortest trailing run that reaches the
    target, or everything when no run does. *)
Lemma overlapOf_spec target chunk :
  exists pre seed,
    chunk = pre ++ seed /\
    overlapOf target chunk = (seed, sumTokens seed) /\
    (pre = [] \/ ltNum (sumTokens seed) target = false) /\
    (forall pre' seed', chunk = pre' ++ seed' ->
       (length seed' < length seed)%nat -> ltNum (sumTokens seed') target = true).
Proof.
  unfold overlapOf.
  destruct (overlapLoop_spec target (rev chunk) [] 0 eq_refl)
    as (tk & rs & E & H1 & H2 & H3 & H4).
  rewrite app_nil_r in *.
  exists (rev rs), (rev tk). repeat split.
  - by rewrite <- rev_app_distr, <- E, rev_involutive.
  - rewrite (surjective_pairing (overlapLoop _ _ _ _)). by rewrite H1, H2.
  - destruct H3 as [-> | H3]; auto.
  - intros pre' seed' E' Hlen.
    destruct (rev tk) as [|x seed0] eqn:Etk; [simpl in Hlen; lia|].
    assert (tk = rev seed0 ++ [x]) as Htk.
    { rewrite <- (rev_involutive tk), Etk. done. }
    specialize (H4 x (rev seed0) Htk). rewrite rev_involutive, app_nil_r in H4.
    assert (chunk = (rev rs ++ [x]) ++ seed0) as E2.
    { rewrite <- app_assoc. simpl. rewrite <- Etk.
      by rewrite <- rev_app_distr, <- E, rev_involutive. }
    rewrite E2 in E'. apply suffix_of_shorter in E' as [q ->]; [|simpl in Hlen; lia].
    eapply ltNum_mono; [|exact H4].
    rewrite sumTokens_app. pose proof (sumTokens_nonneg q). lia.
Qed.

(** The target is computed in double precision: 58 / 100 is the double
    just below 0.58, and 50 times it is the double just below 29, so the
    target for a chunk of 50 tokens is 28 where the exact product gives
    29.  With the default 12.5 the quotient 0.125 is exact. *)
Lemma overlapTokenTarget_double :
  overlapTokenTarget {| optMinTokens := 600; optMaxTokens := 1200;
                        optOverlapPercentage := 58 |} 50 = finite 28
  /\ Qfloor (50 * (58 / 100)) = 29
  /\ overlapTokenTarget DEFAULT_OPTIONS 800 = finite 100.
Proof. repeat split; by vm_compute. Qed.

(** On [manySentences] the first chunk has 22 sentences and 50 tokens; the
    target is 28, which the last 14 sentences reach, and the second chunk
    is these and the last sentence: 15 sentences, 34 tokens. *)
Lemma chunkText_overlap_double :
  map (fun c => (length (splitIntoSentences (content c)), token_count c))
    (chunkText manySentences 1 wideOverlap)
  = [ (22%nat, 50); (15%nat, 34) ].
Proof. by vm_compute. Qed.

(** C4 as stated fails.  On [fiveSentences] with [maxTokens = 8], chunk 0 is
    made of four sentences of 2 tokens each and has 9 tokens, so the target
    is [floor(9 * (12.5 / 100)) = 1].  The code carries the last sentence,
    of 2 tokens, into chunk 1, while the largest trailing run that does not
    exceed 1 token is empty. *)
Lemma overlap_seed_exceeds_target :
  splitIntoSentences fiveSentences = fourSentences ++ [str "Eeeeeee."]
  /\ map (fun c => (content c, token_count c)) (chunkText fiveSentences 1 tinyChunks)
     = [ (join (str " ") fourSentences, 9);
         (join (str " ") [str "Ddddddd."; str "Eeeeeee."], 5) ]
  /\ overlapTokenTarget (mergeOptions tinyChunks) 9 = finite 1
  /\ sumTokens [str "Ddddddd."] = 2
  /\ sumTokens (largestTrailingRunWithin 1 fourSentences) = 0.
Proof. repeat split; by vm_compute. Qed.

End ChunkerProofs.

(** ** Proofs about the fuzzy search *)

Module FuzzyProofs.
Import JS FuzzySearch FuzzySpec.

(** *** The table of [levenshteinDistance] *)

Lemma fold_left_seq_inv {A} (f : A -> nat -> A) (I : nat -> A -> Prop) len :
  forall start a,
    I start a ->
    (forall k a, (start <= k < start + len)%nat -> I k a -> I (S k) (f a k)) ->
    I (start + len)%nat (fold_left f (seq start len) a).
Proof.
  induction len as [|len IH]; intros start a H0 Hstep; simpl.
  - by rewrite Nat.add_0_r.
  - replace (start + S len)%nat with (S start + len)%nat by lia.
    apply IH.
    + apply Hstep; [lia | done].
    + intros k a' Hk. apply Hstep. lia.
Qed.

Lemma wellFormed_new rows cols : wellFormed rows cols (newMatrix rows cols).
Proof.
  unfold newMatrix. split; [by rewrite length_replicate|].
  intros j row H. apply lookup_replicate in H as [-> _]. by rewrite length_replicate.
Qed.

Lemma wellFormed_setCell rows cols m j i v :
  wellFormed rows cols m -> wellFormed rows cols (setCell m j i v).
Proof.
  intros [Hl Hr]. unfold setCell. split; [by rewrite length_alter|].
  intros j' row H. destruct (decide (j = j')) as [<- | Hne].
  - rewrite list_lookup_alter_eq in H.
    destruct (m !! j) as [r|] eqn:E; simpl in H; [|done].
    injection H as <-. rewrite length_insert. by eapply Hr.
  - rewrite list_lookup_alter_ne in H by done. by eapply Hr.
Qed.

Lemma getCell_setCell_eq rows cols m j i v :
  wellFormed rows cols m -> (j < rows)%nat -> (i < cols)%nat ->
  getCell (setCell m j i v) j i = v.
Proof.
  intros [Hl Hr] Hj Hi. unfold getCell, setCell.
  rewrite list_lookup_alter_eq.
  destruct (lookup_lt_is_Some_2 m j) as [r E]; [lia|]. rewrite E; simpl.
  rewrite list_lookup_insert_eq; [done|]. rewrite (Hr j r E). lia.
Qed.

Lemma getCell_setCell_ne m j i v j' i' :
  (j', i') <> (j, i) -> getCell (setCell m j i v) j' i' = getCell m j' i'.
Proof.
  intros Hne. unfold getCell, setCell. destruct (decide (j = j')) as [<- | Hj].
  - rewrite list_lookup_alter_eq. destruct (m !! j) as [r|]; simpl; [|done].
    rewrite list_lookup_insert_ne; [done|]. congruence.
  - by rewrite list_lookup_alter_ne.
Qed.

Lemma Known_setCell str1 str2 (P Q : nat -> nat -> Prop) m j0 i0 :
  Known str1 str2 P m ->
  (j0 <= length str2)%nat -> (i0 <= length str1)%nat ->
  (forall j i, Q j i -> P j i \/ (j = j0 /\ i = i0)) ->
  Known str1 str2 Q (setCell m j0 i0 (levTable str1 str2 j0 i0)).
Proof.
  intros [Hwf Hk] Hj0 Hi0 HQ. split; [by apply wellFormed_setCell|].
  intros j i Hj Hi Hq.
  destruct (decide ((j, i) = (j0, i0))) as [[= -> ->] | Hne].
  - eapply getCell_setCell_eq; [done | lia | lia].
  - rewrite getCell_setCell_ne by done. apply Hk; [done | done |].
    destruct (HQ j i Hq) as [? | [-> ->]]; done.
Qed.

Lemma levTable_step str1 str2 j i :
  levTable str1 str2 (S j) (S i)
  = Z.min (Z.min (levTable str1 str2 (S j) i + 1) (levTable str1 str2 j (S i) + 1))
          (levTable str1 str2 j i + substCost str1 str2 i j).
Proof. reflexivity. Qed.

Lemma levTable_row0 str1 str2 i : levTable str1 str2 0 i = Z.of_nat i.
Proof. reflexivity. Qed.

Lemma levTable_col0 str1 str2 j : levTable str1 str2 j 0 = Z.of_nat j.
Proof. by destruct j. Qed.

Lemma fillCell_Known str1 str2 J I m :
  (1 <= J <= length str2)%nat -> (1 <= I <= length str1)%nat ->
  Known str1 str2 (fun j i => (j < J)%nat \/ i = 0%nat \/ (j = J /\ (i < I)%nat)) m ->
  Known str1 str2 (fun j i => (j < J)%nat \/ i = 0%nat \/ (j = J /\ (i < S I)%nat))
    (fillCell str1 str2 J m I).
Proof.
  intros HJ HI HK. unfold fillCell.
  destruct HK as [Hwf Hk].
  rewrite !Hk by (try lia; auto; right; right; lia).
  destruct J as [|j]; [lia|]. destruct I as [|i]; [lia|].
  replace (S i - 1)%nat with i by lia. replace (S j - 1)%nat with j by lia.
  fold (substCost str1 str2 i j). rewrite <- levTable_step.
  apply (Known_setCell str1 str2
           (fun j' i' => (j' < S j)%nat \/ i' = 0%nat \/ (j' = S j /\ (i' < S i)%nat)));
    [by split | lia | lia |].
  intros j' i' H. destruct (decide (j' = S j /\ i' = S i)); [by right|].
  left. lia.
Qed.

(** The value returned by the code is the entry of the recurrence for the
    two whole strings. *)
Lemma levenshteinDistance_levTable str1 str2 :
  levenshteinDistance str1 str2 = levTable str1 str2 (length str2) (length str1).
Proof.
  unfold levenshteinDistance.
  set (n1 := length str1). set (n2 := length str2).
  set (m0 := newMatrix (n2 + 1) (n1 + 1)).
  assert (K0 : Known str1 str2 (fun j i => j = 0%nat /\ (i < 0)%nat) m0).
  { split; [apply wellFormed_new | intros; lia]. }
  set (m1 := fold_left _ (seq 0 (n1 + 1)) m0).
  assert (K1 : Known str1 str2 (fun j i => j = 0%nat /\ (i < 0 + (n1 + 1))%nat) m1).
  { subst m1.
    apply (fold_left_seq_inv _
             (fun k m => Known str1 str2 (fun j i => j = 0%nat /\ (i < k)%nat) m));
      [done|].
    intros k m Hk HK. rewrite <- (levTable_row0 str1 str2 k).
    eapply Known_setCell; [exact HK | lia | fold n1; lia |].
    intros j i [-> Hi]. destruct (decide (i = k)); [by right | left; lia]. }
  clearbody m1. clear K0 m0.
  set (m2 := fold_left _ (seq 0 (n2 + 1)) m1).
  assert (K2 : Known str1 str2
                 (fun j i => j = 0%nat \/ (i = 0%nat /\ (j < 0 + (n2 + 1))%nat)) m2).
  { subst m2.
    apply (fold_left_seq_inv _
             (fun k m => Known str1 str2
                           (fun j i => j = 0%nat \/ (i = 0%nat /\ (j < k)%nat)) m)).
    - destruct K1 as [Hwf Hk]. split; [done|]. intros j i Hj Hi [-> | [_ ?]]; [|lia].
      apply Hk; [lia | done | lia].
    - intros k m Hk HK. rewrite <- (levTable_col0 str1 str2 k).
      eapply Known_setCell; [exact HK | fold n2; lia | lia |].
      intros j i [-> | [-> Hj]]; [by left; left|].
      destruct (decide (j = k)); [by right | left; right; lia]. }
  clearbody m2. clear K1 m1.
  set (m3 := fold_left _ (seq 1 n2) m2).
  assert (K3 : Known str1 str2 (fun j i => (j < 1 + n2)%nat \/ i = 0%nat) m3).
  { subst m3.
    apply (fold_left_seq_inv _
             (fun J m => Known str1 str2 (fun j i => (j < J)%nat \/ i = 0%nat) m)).
    - destruct K2 as [Hwf Hk]. split; [done|]. intros j i Hj Hi H.
      apply Hk; [done | done |]. destruct H as [H | ->]; [left; lia | right; lia].
    - intros J m HJ HK.
      assert (HI : Known str1 str2
                (fun j i => (j < J)%nat \/ i = 0%nat \/ (j = J /\ (i < 1 + n1)%nat))
                (fold_left (fillCell str1 str2 J) (seq 1 n1) m)).
      { apply (fold_left_seq_inv _
                 (fun I m => Known str1 str2
                    (fun j i => (j < J)%nat \/ i = 0%nat \/ (j = J /\ (i < I)%nat)) m)).
        - destruct HK as [Hwf Hk]. split; [done|]. intros j i Hj Hi H.
          apply Hk; [done | done |]. destruct H as [H | [H | [_ H]]]; auto. right; lia.
        - intros I m' HI HK'. apply fillCell_Known; [fold n2; lia | fold n1; lia | done]. }
      destruct HI as [Hwf Hk]. split; [done|]. intros j i Hj Hi H.
      apply Hk; [done | done |]. destruct H as [H | ->]; [|by auto].
      destruct (decide (j = J)) as [-> | ?]; [right; right; fold n1 in Hi; lia | left; lia]. }
  destruct K3 as [_ Hk]. apply Hk; [done | done | left; lia].
Qed.

(** *** The recurrence is the cost of a cheapest edit script *)

Lemma take_snoc_inv {A} (a : list A) x i s :
  a ++ [x] = take i s -> (i <= length s)%nat ->
  exists i', i = S i' /\ a = take i' s /\ s !! i' = Some x.
Proof.
  intros E Hi. assert (Hl : length (a ++ [x]) = i).
  { rewrite E, length_take. lia. }
  rewrite length_app in Hl; simpl in Hl.
  exists (length a). split; [lia|].
  assert (Hx : take i s !! length a = Some x).
  { rewrite <- E. by rewrite lookup_app_r, Nat.sub_diag. }
  rewrite lookup_take_lt in Hx by lia. split; [|done].
  pose proof (take_S_r s (length a) x Hx) as Ht.
  replace (S (length a)) with i in Ht by lia. rewrite Ht in E.
  by apply app_inj_tail in E as [? _].
Qed.

Lemma take_nil_inv {A} i (s : list A) :
  [] = take i s -> (i <= length s)%nat -> i = 0%nat.
Proof.
  intros E Hi. assert (Hl : length (take i s) = 0%nat) by by rewrite <- E.
  rewrite length_take in Hl. lia.
Qed.

Lemma substCost_bounds str1 str2 i j : 0 <= substCost str1 str2 i j <= 1.
Proof. unfold substCost. destruct (charEq _ _); lia. Qed.

Lemma levTable_delete_le str1 str2 j i :
  levTable str1 str2 j (S i) <= levTable str1 str2 j i + 1.
Proof.
  destruct j as [|j]; [rewrite !levTable_row0; lia|]. rewrite levTable_step. lia.
Qed.

Lemma levTable_insert_le str1 str2 j i :
  levTable str1 str2 (S j) i <= levTable str1 str2 j i + 1.
Proof.
  destruct i as [|i]; [rewrite !levTable_col0; lia|]. rewrite levTable_step. lia.
Qed.

Lemma levTable_subst_le str1 str2 j i :
  levTable str1 str2 (S j) (S i)
  <= levTable str1 str2 j i + substCost str1 str2 i j.
Proof. rewrite levTable_step. lia. Qed.

Lemma Ascii_eqb_refl x : Ascii.eqb x x = true.
Proof. by apply Ascii.eqb_eq. Qed.

Lemma levTable_lower_bound str1 str2 a b n :
  EditScript a b n ->
  forall i j, a = take i str1 -> b = take j str2 ->
    (i <= length str1)%nat -> (j <= length str2)%nat ->
    levTable str1 str2 j i <= n.
Proof.
  induction 1 as [|a b x n H IH|a b y n H IH|a b x n H IH|a b x y n H IH];
    intros i j Ea Eb Hi Hj.
  - apply take_nil_inv in Ea as ->; [|done]. apply take_nil_inv in Eb as ->; [|done].
    done.
  - apply take_snoc_inv in Ea as (i' & -> & -> & Hx); [|done].
    specialize (IH i' j eq_refl Eb). pose proof (levTable_delete_le str1 str2 j i'). lia.
  - apply take_snoc_inv in Eb as (j' & -> & -> & Hy); [|done].
    specialize (IH i j' Ea eq_refl). pose proof (levTable_insert_le str1 str2 j' i). lia.
  - apply take_snoc_inv in Ea as (i' & -> & -> & Hx); [|done].
    apply take_snoc_inv in Eb as (j' & -> & -> & Hy); [|done].
    specialize (IH i' j' eq_refl eq_refl).
    pose proof (levTable_subst_le str1 str2 j' i') as Hs.
    assert (Hc : substCost str1 str2 i' j' = 0).
    { unfold substCost. rewrite Hx, Hy. cbn [charEq]. by rewrite Ascii_eqb_refl. }
    lia.
  - apply take_snoc_inv in Ea as (i' & -> & -> & Hx); [|done].
    apply take_snoc_inv in Eb as (j' & -> & -> & Hy); [|done].
    specialize (IH i' j' eq_refl eq_refl).
    pose proof (levTable_subst_le str1 str2 j' i').
    pose proof (substCost_bounds str1 str2 i' j'). lia.
Qed.

Lemma levTable_script str1 str2 j :
  (j <= length str2)%nat -> forall i, (i <= length str1)%nat ->
  EditScript (take i str1) (take j str2) (levTable str1 str2 j i).
Proof.
  induction j as [|j IHj]; intros Hj.
  - induction i as [|i IHi]; intros Hi; [constructor|].
    destruct (lookup_lt_is_Some_2 str1 i) as [x Hx]; [lia|].
    rewrite (take_S_r _ _ _ Hx), levTable_row0.
    replace (Z.of_nat (S i)) with (levTable str1 str2 0 i + 1) by (rewrite levTable_row0; lia).
    apply edit_delete, IHi. lia.
  - destruct (lookup_lt_is_Some_2 str2 j) as [y Hy]; [lia|].
    induction i as [|i IHi]; intros Hi.
    + rewrite (take_S_r _ _ _ Hy), levTable_col0.
      replace (Z.of_nat (S j)) with (levTable str1 str2 j 0 + 1) by (rewrite levTable_col0; lia).
      apply edit_insert. apply (IHj ltac:(lia) 0%nat). lia.
    + destruct (lookup_lt_is_Some_2 str1 i) as [x Hx]; [lia|].
      rewrite levTable_step.
      destruct (Z.min_spec (levTable str1 str2 (S j) i + 1) (levTable str1 str2 j (S i) + 1))
        as [[_ ->] | [_ ->]];
      match goal with |- EditScript _ _ (Z.min ?u ?v) =>
        destruct (Z.min_spec u v) as [[_ ->] | [_ ->]] end.
      * rewrite (take_S_r str1 _ _ Hx). apply edit_delete, IHi. lia.
      * rewrite (take_S_r str1 _ _ Hx), (take_S_r str2 _ _ Hy).
        unfold substCost. rewrite Hx, Hy. simpl.
        destruct (Ascii.eqb x y) eqn:E.
        -- apply Ascii.eqb_eq in E as ->. rewrite Z.add_0_r.
           apply edit_keep, IHj; lia.
        -- apply edit_substitute, IHj; lia.
      * rewrite (take_S_r str2 _ _ Hy). apply edit_insert, IHj; lia.
      * rewrite (take_S_r str1 _ _ Hx), (take_S_r str2 _ _ Hy).
        unfold substCost. rewrite Hx, Hy. simpl.
        destruct (Ascii.eqb x y) eqn:E.
        -- apply Ascii.eqb_eq in E as ->. rewrite Z.add_0_r.
           apply edit_keep, IHj; lia.
        -- apply edit_substitute, IHj; lia.
Qed.

(** [levenshteinDistance] returns the classic edit distance. *)
Lemma levenshteinDistance_correct str1 str2 :
  isEditDistance str1 str2 (levenshteinDistance str1 str2).
Proof.
  rewrite levenshteinDistance_levTable. split.
  - pose proof (levTable_script str1 str2 (length str2) ltac:(lia) (length str1) ltac:(lia)) as H.
    by rewrite !firstn_all in H.
  - intros n H. eapply levTable_lower_bound; eauto; by rewrite firstn_all.
Qed.

(** C5, as the code has it.  ["documnt"] becomes ["document"] by inserting
    one character: [levenshteinDistance] returns 1, which is the classic
    unit-cost edit distance of the two strings (as it is for every pair of
    strings), and [calculateSimilarity] returns (8 - 1) / 8 = 0.875. *)
Theorem levenshtein_documnt_document :
  levenshteinDistance (str "documnt") (str "document") = 1
  /\ isEditDistance (str "documnt") (str "document") 1
  /\ calculateSimilarity (str "documnt") (str "document") = (7 # 8)%Q
  /\ (forall a b, isEditDistance a b (levenshteinDistance a b)).
Proof.
  assert (H : levenshteinDistance (str "documnt") (str "document") = 1) by by vm_compute.
  split; [exact H|]. split; [|split].
  - rewrite <- H. apply levenshteinDistance_correct.
  - by vm_compute.
  - apply levenshteinDistance_correct.
Qed.

(** C5 as stated fails: the distance is not 2 and the similarity is not
    0.75. *)
Lemma levenshtein_documnt_document_not_2 :
  levenshteinDistance (str "documnt") (str "document") <> 2
  /\ ~ (calculateSimilarity (str "documnt") (str "document") == 3 # 4)%Q.
Proof. split; by vm_compute. Qed.

(** *** Ranking *)

Lemma compareResults_gt a b :
  Qgtb (compareResults a b) 0 = false <-> ranksBefore a b.
Proof.
  unfold Qgtb, compareResults, ranksBefore. rewrite negb_false_iff, Qle_bool_iff.
  destruct (Z.eqb_spec (typePriority (matchType b) - typePriority (matchType a)) 0)
    as [E | E]; simpl.
  - split.
    + intros H. right. split; [lia | lra].
    + intros [H | [_ H]]; [lia | lra].
  - unfold Qle; simpl. split.
    + intros H. left. lia.
    + intros [H | [H _]]; lia.
Qed.

Lemma ranksBefore_total a b : ranksBefore a b \/ ranksBefore b a.
Proof.
  unfold ranksBefore.
  destruct (Z.lt_trichotomy (typePriority (matchType a)) (typePriority (matchType b)))
    as [H | [H | H]]; [by right; left | | by left; left].
  destruct (Qlt_le_dec (score a) (score b)) as [Hs | Hs].
  - right. right. split; [done | lra].
  - left. by right.
Qed.

Lemma ranksBefore_trans a b c : ranksBefore a b -> ranksBefore b c -> ranksBefore a c.
Proof.
  unfold ranksBefore. intros [H1 | [H1 S1]] [H2 | [H2 S2]];
    [left; lia | left; lia | left; lia | right; split; [lia | lra]].
Qed.

Lemma sameRank_ranksBefore x a b :
  sameRank x a = true -> sameRank x b = true -> ranksBefore a b.
Proof.
  unfold sameRank, ranksBefore. rewrite !andb_true_iff, !Z.eqb_eq, !Qeq_bool_iff.
  intros [P1 S1] [P2 S2]. right. split; [lia | lra].
Qed.

Lemma sortInsert_perm {A} (compare : A -> A -> Q) a l :
  Permutation (a :: l) (sortInsert compare a l).
Proof.
  induction l as [|b l IH]; simpl; [done|].
  destruct (Qgtb (compare a b) 0); [|done].
  rewrite <- IH. apply perm_swap.
Qed.

Lemma arraySort_perm {A} (compare : A -> A -> Q) l :
  Permutation l (arraySort compare l).
Proof.
  induction l as [|a l IH]; simpl; [done|].
  rewrite <- sortInsert_perm. by constructor.
Qed.

Lemma sortInsert_sorted a l :
  StronglySorted ranksBefore l ->
  StronglySorted ranksBefore (sortInsert compareResults a l).
Proof.
  induction 1 as [|b l Hs IH Hb]; simpl; [repeat constructor|].
  destruct (Qgtb (compareResults a b) 0) eqn:E.
  - constructor; [done|].
    assert (Hba : ranksBefore b a).
    { destruct (ranksBefore_total a b) as [H | H]; [|done].
      apply compareResults_gt in H. congruence. }
    rewrite List.Forall_forall in Hb. apply List.Forall_forall. intros c Hc.
    apply (Permutation_in _ (Permutation_sym (sortInsert_perm compareResults a l))) in Hc.
    destruct Hc as [<- | Hc]; [done | by apply Hb].
  - apply compareResults_gt in E. constructor; [by constructor|].
    constructor; [done|].
    eapply List.Forall_impl; [|exact Hb]. intros c Hc. by eapply ranksBefore_trans.
Qed.

Lemma sortInsert_stable x a l :
  List.filter (sameRank x) (sortInsert compareResults a l)
  = List.filter (sameRank x) (a :: l).
Proof.
  induction l as [|b l IH]; [done|]. cbn [sortInsert].
  destruct (Qgtb (compareResults a b) 0) eqn:E; [|done].
  cbn [List.filter] in *. rewrite IH.
  destruct (sameRank x a) eqn:Ea, (sameRank x b) eqn:Eb; try done.
  pose proof (sameRank_ranksBefore x a b Ea Eb) as H.
  apply compareResults_gt in H. congruence.
Qed.

(** C6, as the code has it.  [sortSearchResults] permutes the results so
    that the match-type priority never increases along the list and, among
    results of one type, the score never increases.  Results of the same
    type and the same score keep the order in which they were given:
    nothing looks at [chunk_index]. *)
Theorem sortSearchResults_stable_sorted results :
  Permutation results (sortSearchResults results)
  /\ StronglySorted ranksBefore (sortSearchResults results)
  /\ (forall x, List.filter (sameRank x) (sortSearchResults results)
                = List.filter (sameRank x) results).
Proof.
  unfold sortSearchResults. split; [apply arraySort_perm|]. split.
  - induction results as [|a l IH]; simpl; [constructor | by apply sortInsert_sorted].
  - intros x. induction results as [|a l IH]; [done|].
    cbn [arraySort fold_right]. rewrite sortInsert_stable.
    cbn [List.filter]. fold (arraySort compareResults l). by rewrite IH.
Qed.

(** C6 as stated fails: two results of the same type and score come out in
    the order in which they went in, here with [chunk_index] 1 before 0. *)
Lemma sortSearchResults_no_chunk_index_tiebreak :
  map (fun r => chunk_index (chunk r)) (sortSearchResults [tiedResult 1; tiedResult 0])
  = [1; 0]
  /\ map (fun r => chunk_index (chunk r)) (sortSearchResults [tiedResult 0; tiedResult 1])
     = [0; 1].
Proof. split; by vm_compute. Qed.

End FuzzyProofs.

(** ** Proofs about the search route *)

Module RouteProofs.
Import JS FuzzySearch FuzzySpec SearchRoute RouteSpec FuzzyProofs.

Lemma filterSearchResults_ge results threshold :
  Forall (fun r => geNum (score r) threshold = true)
    (filterSearchResults results (Some threshold)).
Proof.
  unfold filterSearchResults. apply List.Forall_forall. intros r Hr.
  by apply filter_In in Hr as [_ ?].
Qed.

(** *** A query that normalizes to the empty string *)

Lemma includes_nil s : includes s [] = true.
Proof. by destruct s. Qed.

Lemma levenshteinDistance_nil_r s : levenshteinDistance s [] = Z.of_nat (length s).
Proof. by rewrite levenshteinDistance_levTable. Qed.

Lemma calculateSimilarity_nil_r word :
  word <> [] -> Qgtb (calculateSimilarity word []) (7 # 10) = false.
Proof.
  intros Hw. unfold calculateSimilarity, Qgtb. rewrite negb_false_iff, Qle_bool_iff.
  change (toLowerCase []) with (@nil ascii).
  rewrite levenshteinDistance_nil_r. unfold toLowerCase. rewrite length_map.
  simpl length. rewrite Z.max_l by lia.
  destruct (Z.eqb_spec (Z.of_nat (length word)) 0) as [E | E].
  - by destruct word.
  - rewrite Z.sub_diag. unfold Qdiv. by rewrite Qmult_0_l.
Qed.

Lemma fuzzyStep_nil st word : fuzzyStep [] st word = st.
Proof.
  unfold fuzzyStep. destruct (Nat.ltb_spec 2 (length word)) as [H | H]; [|done].
  rewrite calculateSimilarity_nil_r; [done|]. by destruct word; [simpl in H; lia|].
Qed.

Lemma fold_fuzzyStep_nil words st : fold_left (fuzzyStep []) words st = st.
Proof.
  revert st; induction words as [|w r IH]; intros st; simpl; [done|].
  by rewrite fuzzyStep_nil.
Qed.

Lemma calculateSearchScore_empty_query content options :
  calculateSearchScore content [] [[]] options
  = {| scoredScore := 100; scoredMatchType := exact;
       scoredHighlights := [hl_exact; hl_partial] |}.
Proof.
  unfold calculateSearchScore. change (toLowerCase []) with (@nil ascii).
  rewrite includes_nil. cbn [splitSpaces splitSpacesFrom rev List.filter isEmpty negb andb].
  cbn [fold_left]. rewrite fold_fuzzyStep_nil.
  unfold partialStep. rewrite includes_nil.
  cbn [curScore curMatchType curHighlights isTrigram isExact app].
  by destruct (default true (boostExact options)).
Qed.

(** C10.  A query that is not the empty string but whose normalized form
    is (only punctuation or white space) is not answered with the
    400 response, and [calculateSearchScore], called with the normalized
    query and its variations as the route does, gives every content the
    score 100 and the match type [exact]. *)
Theorem empty_processed_query_scores_100_exact db query documentId threshold
  maxResults content options :
  query <> [] ->
  processed (preprocessQuery query) = [] ->
  GET db (Some query) documentId threshold maxResults <> badRequest
  /\ calculateSearchScore content (processed (preprocessQuery query))
       (variations (preprocessQuery query)) options
     = {| scoredScore := 100; scoredMatchType := exact;
          scoredHighlights := [hl_exact; hl_partial] |}.
Proof.
  intros Hq Hp. split.
  - unfold GET. destruct query as [|c query]; [done|]. by destruct (isEmpty _).
  - assert (Hv : variations (preprocessQuery query) = [[]]).
    { change (variations (preprocessQuery query))
        with (generateQueryVariations (processed (preprocessQuery query))).
      by rewrite Hp. }
    rewrite Hp, Hv. apply calculateSearchScore_empty_query.
Qed.

Lemma empty_processed_query_scores_100_exact_witness :
  str "?! " <> []
  /\ processed (preprocessQuery (str "?! ")) = []
  /\ GET emptyDatabase (Some (str "?! ")) None (finite 10) (Some 50) <> badRequest
  /\ calculateSearchScore (str "the document is ready")
       (processed (preprocessQuery (str "?! ")))
       (variations (preprocessQuery (str "?! "))) routeOptions
     = {| scoredScore := 100; scoredMatchType := exact;
          scoredHighlights := [hl_exact; hl_partial] |}.
Proof.
  split; [discriminate|]. split; [reflexivity|].
  apply (empty_processed_query_scores_100_exact emptyDatabase (str "?! ") None
           (finite 10) (Some 50) (str "the document is ready") routeOptions);
    [discriminate | reflexivity].
Defined.

End RouteProofs.

(** ** Facts about the string operations *)

Module JSFacts.
Import JS ChunkerVocabulary.

Lemma dropWhile_head {A} (p : A -> bool) l :
  match dropWhile p l with c :: _ => p c = false | [] => True end.
Proof.
  induction l as [|x l IH]; simpl; [done|]. by destruct (p x) eqn:E.
Qed.

Lemma dropWhile_split {A} (p : A -> bool) l :
  exists w, l = w ++ dropWhile p l /\ forallb p w = true.
Proof.
  induction l as [|x l (w & E & Hw)]; simpl; [by exists []|].
  destruct (p x) eqn:Ex; [|by exists []].
  exists (x :: w). simpl. rewrite Ex, Hw. by rewrite <- E.
Qed.

Lemma dropWhile_id {A} (p : A -> bool) l :
  match l with c :: _ => p c = false | [] => True end -> dropWhile p l = l.
Proof. destruct l as [|x l]; simpl; [done|]. by intros ->. Qed.

Lemma forallb_rev {A} (p : A -> bool) l : forallb p (rev l) = forallb p l.
Proof.
  induction l as [|x l IH]; simpl; [done|].
  rewrite forallb_app, IH. simpl. rewrite andb_true_r. apply andb_comm.
Qed.

Lemma trimEnd_split s :
  exists w, s = trimEnd s ++ w /\ forallb isSpace w = true.
Proof.
  unfold trimEnd. destruct (dropWhile_split isSpace (rev s)) as (w & E & Hw).
  exists (rev w). split.
  - rewrite <- rev_app_distr, <- E. by rewrite rev_involutive.
  - by rewrite forallb_rev.
Qed.

Lemma trim_noEdgeSpace s : noEdgeSpace (trim s).
Proof.
  unfold trim, noEdgeSpace. split.
  - pose proof (dropWhile_head isSpace s) as Hh. unfold trimStart.
    destruct (trimEnd_split (dropWhile isSpace s)) as (w & E & _).
    destruct (trimEnd (dropWhile isSpace s)) as [|c r]; [done|].
    rewrite E in Hh. exact Hh.
  - unfold trimEnd. rewrite rev_involutive. apply dropWhile_head.
Qed.

Lemma forallb_snoc {A} (p : A -> bool) l x :
  forallb p (l ++ [x]) = forallb p l && p x.
Proof. rewrite forallb_app. simpl. by rewrite andb_true_r. Qed.

Lemma dropWhile_app {A} (p : A -> bool) a b :
  dropWhile p (a ++ b)
  = if forallb p a then dropWhile p b else dropWhile p a ++ b.
Proof.
  induction a as [|x a IH]; simpl; [done|]. destruct (p x); simpl; [done|done].
Qed.

Lemma forallb_dropWhile {A} (q p : A -> bool) l :
  forallb q l = true -> forallb q (dropWhile p l) = true.
Proof.
  induction l as [|x l IH]; simpl; [done|]. intros H.
  apply andb_true_iff in H as [Hx Hl]. destruct (p x); [by apply IH|].
  simpl. by rewrite Hx, Hl.
Qed.

Lemma dropWhile_all {A} (p : A -> bool) l : forallb p l = true -> dropWhile p l = [].
Proof.
  induction l as [|x l IH]; simpl; [done|]. intros H.
  apply andb_true_iff in H as [-> Hl]. by apply IH.
Qed.

Lemma trim_spaces s : forallb isSpace s = true -> trim s = [].
Proof. intros H. unfold trim, trimStart. by rewrite dropWhile_all. Qed.

Lemma isEmpty_rev {A} (l : list A) : isEmpty (rev l) = isEmpty l.
Proof. destruct l as [|x l]; [done|]. simpl. by destruct (rev l). Qed.

Lemma filter_all {A} (p : A -> bool) l :
  Forall (fun x => p x = true) l -> List.filter p l = l.
Proof. induction 1 as [|x l Hx _ IH]; simpl; [done|]. by rewrite Hx, IH. Qed.

Lemma splitSpacesFrom_nonempty s :
  forall cur inSep, splitSpacesFrom cur inSep s <> [].
Proof.
  induction s as [|c s IH]; intros cur inSep; cbn [splitSpacesFrom]; [done|].
  destruct (isSpace c); [destruct inSep|]; [apply IH | done | apply IH].
Qed.

(** The pieces of a string that neither starts nor ends with white space
    are its words. *)
Lemma splitSpaces_pieces s :
  forall cur (inSep : bool),
    (inSep = false -> cur <> []) ->
    match rev s with c :: _ => isSpace c = false | [] => inSep = false end ->
    Forall (fun w => w <> []) (splitSpacesFrom cur inSep s).
Proof.
  induction s as [|c s IH]; intros cur inSep Hcur Hlast.
  - simpl in Hlast. constructor; [|constructor].
    specialize (Hcur Hlast). destruct cur as [|x cur]; [done|].
    simpl. by destruct (rev cur).
  - cbn [splitSpacesFrom].
    assert (Hs : forall b : bool, s <> [] \/ b = false ->
              match rev s with c :: _ => isSpace c = false | [] => b = false end).
    { intros b Hb. cbn [rev] in Hlast. destruct (rev s) as [|y r] eqn:E.
      - destruct Hb as [Hb | Hb]; [|done]. apply (f_equal (@rev _)) in E.
        rewrite rev_involutive in E. done.
      - done. }
    destruct (isSpace c) eqn:Ec.
    + assert (Hne : s <> []).
      { intros ->. simpl in Hlast. congruence. }
      destruct inSep.
      * apply IH; [done | by apply Hs; left].
      * constructor.
        -- specialize (Hcur eq_refl). destruct cur as [|x cur]; [done|].
           simpl. by destruct (rev cur).
        -- apply IH; [done | by apply Hs; left].
    + apply IH; [done | by apply Hs; right].
Qed.

End JSFacts.

(** ** Facts about the token counter *)

Module TokenCounterFacts.
Import JS TokenCounter TokenCounterMore ChunkerVocabulary JSFacts.

Lemma countTokens_length text :
  countTokens text = (Z.of_nat (length text) + 3) / 4.
Proof. by destruct text. Qed.

(** X10.  [countTokens] is the length divided by four and rounded up: four
    times the count is at least the length and exceeds it by at most three;
    only the empty string counts zero tokens. *)
Theorem countTokens_ceiling text :
  4 * countTokens text - 3 <= Z.of_nat (length text) <= 4 * countTokens text
  /\ (countTokens text = 0 <-> text = []).
Proof.
  rewrite countTokens_length.
  pose proof (Z.div_mod (Z.of_nat (length text) + 3) 4 ltac:(lia)) as Hd.
  pose proof (Z.mod_pos_bound (Z.of_nat (length text) + 3) 4 ltac:(lia)) as Hm.
  split; [lia|]. split.
  - intros E. destruct text; [done|]. simpl length in *. lia.
  - by intros ->.
Qed.

Lemma countTokens_app a b :
  countTokens (a ++ b) <= countTokens a + countTokens b.
Proof.
  rewrite !countTokens_length, length_app, Nat2Z.inj_add.
  pose proof (Z.div_mod (Z.of_nat (length a) + 3) 4 ltac:(lia)).
  pose proof (Z.mod_pos_bound (Z.of_nat (length a) + 3) 4 ltac:(lia)).
  pose proof (Z.div_mod (Z.of_nat (length b) + 3) 4 ltac:(lia)).
  pose proof (Z.mod_pos_bound (Z.of_nat (length b) + 3) 4 ltac:(lia)).
  apply Z.lt_succ_r, Z.div_lt_upper_bound; lia.
Qed.

(** *** [countTokensAccurate] *)

(** White space at the end of a text adds no word. *)
Lemma splitSpaces_spaces_end w :
  forallb isSpace w = true ->
  forall cur inSep,
    List.filter nonEmptyPiece (splitSpacesFrom cur inSep w)
    = List.filter nonEmptyPiece [rev cur].
Proof.
  intros Hw. induction w as [|c w IH]; intros cur inSep; [done|].
  simpl in Hw. apply andb_true_iff in Hw as [Hc Hw].
  cbn [splitSpacesFrom]. rewrite Hc. destruct inSep; [by apply IH|].
  cbn [List.filter]. rewrite (IH Hw). simpl. by destruct (negb (isEmpty (rev cur))).
Qed.

Lemma splitSpaces_app_spaces s w :
  forallb isSpace w = true ->
  forall cur inSep,
    List.filter nonEmptyPiece (splitSpacesFrom cur inSep (s ++ w))
    = List.filter nonEmptyPiece (splitSpacesFrom cur inSep s).
Proof.
  intros Hw. induction s as [|c s IH]; intros cur inSep.
  - by apply splitSpaces_spaces_end.
  - cbn [app splitSpacesFrom]. destruct (isSpace c); [|by apply IH].
    destruct inSep; [by apply IH|]. cbn [List.filter]. by rewrite IH.
Qed.

Lemma splitSpaces_inSep s :
  List.filter nonEmptyPiece (splitSpacesFrom [] true s)
  = List.filter nonEmptyPiece (splitSpacesFrom [] false s).
Proof. destruct s as [|c s]; [done|]. cbn [splitSpacesFrom]. by destruct (isSpace c). Qed.

Lemma splitSpaces_spaces_app w s :
  forallb isSpace w = true ->
  List.filter nonEmptyPiece (splitSpacesFrom [] true (w ++ s))
  = List.filter nonEmptyPiece (splitSpacesFrom [] false s).
Proof.
  intros Hw. induction w as [|c w IH]; [apply splitSpaces_inSep|].
  simpl in Hw. apply andb_true_iff in Hw as [Hc Hw].
  cbn [app splitSpacesFrom]. rewrite Hc. by apply IH.
Qed.

Lemma wordCount_trim text : wordCount (trim text) = wordCount text.
Proof.
  unfold wordCount, splitSpaces. f_equal.
  destruct (dropWhile_split isSpace text) as (w1 & E1 & H1).
  destruct (dropWhile_split isSpace (rev (trimStart text))) as (w2 & E2 & H2).
  assert (E3 : trimStart text = trim text ++ rev w2).
  { unfold trim, trimEnd. rewrite <- rev_app_distr, <- E2. by rewrite rev_involutive. }
  assert (S1 : List.filter nonEmptyPiece (splitSpacesFrom [] false (trimStart text))
               = List.filter nonEmptyPiece (splitSpacesFrom [] false (trim text))).
  { rewrite E3. apply splitSpaces_app_spaces. by rewrite forallb_rev. }
  assert (S2 : List.filter nonEmptyPiece (splitSpacesFrom [] false text)
               = List.filter nonEmptyPiece (splitSpacesFrom [] false (trimStart text))).
  { fold (trimStart text) in E1. revert E1. generalize (trimStart text) as ts.
    intros ts ->. destruct w1 as [|c w1]; [done|].
    simpl in H1. apply andb_true_iff in H1 as [Hc Hw].
    cbn [app splitSpacesFrom]. rewrite Hc. cbn [rev List.filter isEmpty negb].
    by apply splitSpaces_spaces_app. }
  by rewrite S2, S1.
Qed.

Lemma splitSpaces_trim_length text :
  Z.of_nat (length (splitSpaces (trim text))) = Z.max 1 (Z.of_nat (wordCount text)).
Proof.
  rewrite <- wordCount_trim. unfold wordCount.
  destruct (trim_noEdgeSpace text) as [Hh Hl].
  destruct (trim text) as [|c r] eqn:E; [done|].
  assert (HF : Forall (fun w => w <> []) (splitSpaces (c :: r))).
  { unfold splitSpaces. cbn [splitSpacesFrom]. rewrite Hh.
    apply splitSpaces_pieces; [done|]. cbn [rev] in Hl.
    destruct (rev r) as [|y l] eqn:Er; [|done]. by simpl in Hl. }
  rewrite filter_all.
  - unfold splitSpaces. cbn [splitSpacesFrom]. rewrite Hh.
    pose proof (splitSpacesFrom_nonempty r [c] false).
    destruct (splitSpacesFrom [c] false r); [done | simpl length; lia].
  - eapply List.Forall_impl; [|exact HF]. intros w Hw. by destruct w.
Qed.

(** X12.  [countTokensAccurate] is four thirds of the number of words,
    rounded up, where a text without a word counts as one word: only the
    empty string gives 0, and any other text gives at least 2. *)
Theorem countTokensAccurate_words text :
  countTokensAccurate text
  = (if isEmpty text then 0
     else (4 * Z.max 1 (Z.of_nat (wordCount text)) + 2) / 3)
  /\ (countTokensAccurate text = 0 <-> text = [])
  /\ (text = [] \/ 2 <= countTokensAccurate text).
Proof.
  assert (H : countTokensAccurate text
              = if isEmpty text then 0
                else (4 * Z.max 1 (Z.of_nat (wordCount text)) + 2) / 3).
  { unfold countTokensAccurate. destruct (isEmpty text); [done|].
    rewrite splitSpaces_trim_length.
    set (n := Z.max 1 (Z.of_nat (wordCount text))).
    unfold Qceiling, Qfloor, Qdiv, Qmult, Qinv, Qopp, inject_Z. cbn [Qnum Qden].
    change (Z.pos (1 * 3)) with 3. change (n * 4) with (n * 4).
    pose proof (Z.div_mod (- (n * 4)) 3 ltac:(lia)).
    pose proof (Z.mod_pos_bound (- (n * 4)) 3 ltac:(lia)).
    pose proof (Z.div_mod (4 * n + 2) 3 ltac:(lia)).
    pose proof (Z.mod_pos_bound (4 * n + 2) 3 ltac:(lia)).
    lia. }
  split; [exact H|]. rewrite H.
  assert (Hge : 2 <= (4 * Z.max 1 (Z.of_nat (wordCount text)) + 2) / 3).
  { apply Z.div_le_lower_bound; lia. }
  destruct text as [|c r]; cbn [isEmpty].
  - split; [done | by left].
  - split; [split; [lia | done] | by right].
Qed.

End TokenCounterFacts.

(** ** Further facts about the chunker *)

Module ChunkerFacts.
Import JS TokenCounter Chunker ChunkerSpec ChunkerVocabulary ChunkerProofs JSFacts.

(** *** Every sentence goes into a chunk, in order *)

Lemma loopBody_last opts p s st :
  loopBody opts p true s st = flushLast p true (loopBody opts p false s st).
Proof. reflexivity. Qed.

Lemma sumTokens_snoc l s : sumTokens (l ++ [s]) = sumTokens l + countTokens s.
Proof. rewrite sumTokens_app. simpl. lia. Qed.

(** One iteration that is not the last: either the sentence joins the open
    part, or the open part is closed and a new one starts from its
    overlap. *)
Lemma loopBody_part opts p s st part :
  OpenPart opts st part ->
  exists closed part',
    map content (chunks (loopBody opts p false s st))
    = map content (chunks st) ++ map partContent closed /\
    OpenPart opts (loopBody opts p false s st) part' /\
    fresh part' <> [] /\
    ((closed = [] /\ seed part' = seed part /\ fresh part' = fresh part ++ [s])
     \/ (closed = [part] /\ fresh part <> [] /\ withinBudget opts part /\
         fresh part' = [s] /\ overlapSeed opts part part')).
Proof.
  intros (Hcur & Hne & Htok & Hbud).
  unfold loopBody, flushLast. cbn [andb].
  destruct (mustFlush opts st (countTokens s)) eqn:E.
  - (* the open part is closed *)
    unfold mustFlush in E. apply andb_true_iff in E as [_ E].
    apply negb_true_iff, isEmpty_false in E.
    destruct (overlapOf_spec
                (overlapTokenTarget opts (countTokens (join (str " ") (currentChunk st))))
                (currentChunk st)) as (pre & sd & Epre & Hov & Hreach & Hmin).
    exists [part], {| seed := sd; fresh := [s] |}.
    unfold flush, pushSentence. rewrite Hov.
    cbn [chunks currentChunk currentTokens fst snd seed fresh].
    split; [|split; [|split]].
    + rewrite map_app. cbn [map content mkChunk]. unfold partContent. by rewrite Hcur.
    + unfold OpenPart, partSentences.
      cbn [chunks currentChunk currentTokens fst snd seed fresh].
      split; [done|]. split; [done|]. split; [by rewrite sumTokens_snoc|].
      right. simpl. lia.
    + done.
    + right. split; [done|]. split; [by apply Hne|]. split.
      * unfold withinBudget. destruct Hbud as [Hb | Hl].
        -- left. by rewrite <- Hcur, <- Htok.
        -- right. specialize (Hne E). destruct (fresh part) as [|x [|y r]]; simpl in *; [done | done | lia].
      * split; [done|]. unfold overlapSeed, partContent. rewrite <- Hcur.
        exists pre. by cbn [seed].
  - (* the sentence joins the open part *)
    exists [], {| seed := seed part; fresh := fresh part ++ [s] |}.
    unfold pushSentence. cbn [chunks currentChunk currentTokens seed fresh].
    split; [by rewrite app_nil_r|]. split; [|split].
    + unfold OpenPart, partSentences.
      cbn [chunks currentChunk currentTokens seed fresh].
      split; [by rewrite Hcur, app_assoc|]. split; [by destruct (fresh part)|].
      split; [by rewrite sumTokens_snoc, Htok|].
      unfold mustFlush in E. apply andb_false_iff in E as [E | E].
      * left. apply negb_false_iff in E. by apply Qle_bool_iff in E.
      * right. apply negb_false_iff in E. destruct (currentChunk st) eqn:Ec; [|done].
        symmetry in Hcur. apply app_eq_nil in Hcur as [_ ->]. simpl. lia.
    + by destruct (fresh part).
    + by left.
Qed.

Lemma chained_weaken prev prev' parts :
  (forall sd, (exists pre, prev = pre ++ sd) -> exists pre, prev' = pre ++ sd) ->
  chained prev parts -> chained prev' parts.
Proof. destruct parts as [|part rest]; simpl; [done|]. intros H [H1 H2]. auto. Qed.

Lemma mainLoop_parts opts p sentences :
  forall st part,
    sentences <> [] -> OpenPart opts st part ->
    exists parts,
      map content (chunks (mainLoop opts p sentences st))
      = map content (chunks st) ++ map partContent parts /\
      concat (map fresh parts) = fresh part ++ sentences /\
      Forall (fun part => fresh part <> []) parts /\
      Forall (withinBudget opts) parts /\
      chained (seed part) parts /\
      (exists first rest, parts = first :: rest /\ seed first = seed part) /\
      overlapLinked opts parts.
Proof.
  induction sentences as [|s rest IH]; intros st part Hne Hopen; [done|].
  cbn [mainLoop].
  destruct (loopBody_part opts p s st part Hopen)
    as (closed & part' & Hcont & Hopen' & Hfresh' & Hcase).
  assert (Hchain : chained (seed part) (closed ++ [part']) /\
                   concat (map fresh closed) ++ fresh part' = fresh part ++ [s] /\
                   Forall (fun part => fresh part <> []) closed /\
                   Forall (withinBudget opts) closed).
  { destruct Hcase as [(-> & Hs & Hf) | (-> & Hf & Hb & Hf' & pre & Hpre & _)].
    - simpl. repeat split; auto. exists []. by rewrite Hs.
    - simpl. rewrite Hf', app_nil_r. repeat split; auto. by exists []. eauto. }
  destruct Hchain as (Hch & Hcat & Hfr & Hbu).
  destruct rest as [|s' rest'].
  - (* the last sentence: the open part is closed *)
    cbn [isEmpty mainLoop]. rewrite loopBody_last.
    destruct Hopen' as (Hcur & Hne' & Htok & Hbud).
    assert (Hcne : currentChunk (loopBody opts p false s st) <> []).
    { rewrite Hcur. unfold partSentences. by destruct (seed part'), (fresh part'). }
    exists (closed ++ [part']).
    unfold flushLast. apply isEmpty_false in Hcne as Hce. rewrite Hce.
    cbn [andb negb chunks].
    split; [|split; [|split; [|split; [|split; [|split]]]]].
    + rewrite !map_app, Hcont, <- app_assoc. cbn [map content mkChunk].
      unfold partContent. by rewrite Hcur.
    + by rewrite map_app, concat_app; simpl; rewrite app_nil_r.
    + apply Forall_app; split; [done|]. by constructor.
    + apply Forall_app; split; [done|]. constructor; [|constructor].
      unfold withinBudget. destruct Hbud as [Hb | Hl].
      * left. by rewrite <- Hcur, <- Htok.
      * right. destruct (fresh part') as [|x [|y r]]; simpl in *; [done | done | lia].
    + done.
    + destruct Hcase as [(-> & Hs & _) | (-> & _)]; simpl; eauto.
    + destruct Hcase as [(-> & _) | (-> & _ & _ & _ & Hov)]; simpl; auto.
  - cbn [isEmpty].
    destruct (IH (loopBody opts p false s st) part' ltac:(done) Hopen')
      as (parts & Hm & Hc & Hf & Hb & Hchn & (first & others & -> & Hfirst) & Hlink).
    exists (closed ++ first :: others).
    split; [|split; [|split; [|split; [|split; [|split]]]]].
    + by rewrite Hm, Hcont, map_app, app_assoc.
    + rewrite map_app, concat_app, Hc, app_assoc, Hcat. by rewrite <- app_assoc.
    + by apply Forall_app.
    + by apply Forall_app.
    + destruct Hcase as [(-> & Hs & _) | (-> & _ & _ & _ & pre & Hpre & _)].
      * simpl. by rewrite <- Hs.
      * assert (H : chained (partSentences part) (first :: others)).
        { eapply chained_weaken; [|exact Hchn].
          intros sd [pre' Hsd]. exists (pre ++ pre'). by rewrite Hpre, Hsd, app_assoc. }
        split; [by exists [] | exact H].
    + destruct Hcase as [(-> & Hs & _) | (-> & _)]; simpl; eauto.
      exists first, others. by rewrite Hfirst.
    + destruct Hcase as [(-> & _) | (-> & _ & _ & _ & Hov)]; [done|].
      cbn [app overlapLinked]. split; [|done].
      unfold overlapSeed in *. by rewrite Hfirst.
Qed.

Lemma OpenPart_init opts : OpenPart opts initState {| seed := []; fresh := [] |}.
Proof. repeat split; try done. right. simpl. lia. Qed.

Lemma chunkText_parts t p options :
  exists parts,
    map content (chunkText t p options) = map partContent parts /\
    concat (map fresh parts) = splitIntoSentences t /\
    Forall (fun part => fresh part <> []) parts /\
    Forall (withinBudget (mergeOptions options)) parts /\
    chained [] parts /\
    (forall part, head parts = Some part -> seed part = []) /\
    overlapLinked (mergeOptions options) parts.
Proof.
  unfold chunkText. destruct (splitIntoSentences t) as [|s r] eqn:E.
  - exists []. by repeat split.
  - cbn [isEmpty].
    destruct (mainLoop_parts (mergeOptions options) p (s :: r) initState
                {| seed := []; fresh := [] |} ltac:(done) (OpenPart_init _))
      as (parts & H1 & H2 & H3 & H4 & H5 & (first & rest & -> & H6) & H7).
    exists (first :: rest). do 5 (split; [done|]). split; [|done].
    by intros part [= <-].
Qed.

(** X1.  No sentence is lost, repeated out of turn or reordered.  The
    chunks of a page are the contents of parts [seed ++ fresh], joined by
    single spaces: the [fresh] sentences of all parts, in order, are the
    sentences of the page, every part has at least one, the [seed] of the
    first part is empty and the [seed] of every other part is a trailing
    run of the sentences of the part before it. *)
Theorem chunkText_covers_sentences t p options :
  exists parts,
    map content (chunkText t p options) = map partContent parts /\
    concat (map fresh parts) = splitIntoSentences t /\
    Forall (fun part => fresh part <> []) parts /\
    chained [] parts.
Proof.
  destruct (chunkText_parts t p options) as (parts & H1 & H2 & H3 & _ & H5 & _).
  by exists parts.
Qed.

(** X2.  The token budget.  With the same parts, the token sum of the
    sentences of every chunk (the sum the loop keeps in [currentTokens])
    is at most [maxTokens], except for a chunk that holds a single new
    sentence after its overlap: that sentence is added without a test. *)
Theorem chunkText_token_budget t p options :
  exists parts,
    map content (chunkText t p options) = map partContent parts /\
    concat (map fresh parts) = splitIntoSentences t /\
    Forall (fun part =>
              (inject_Z (sumTokens (seed part ++ fresh part))
               <= optMaxTokens (mergeOptions options))%Q
              \/ length (fresh part) = 1%nat) parts.
Proof.
  destruct (chunkText_parts t p options) as (parts & H1 & H2 & _ & H4 & _).
  by exists parts.
Qed.

(** *** Sentences *)

Lemma terminator_not_space c : isTerminator c = true -> isSpace c = false.
Proof. destruct c as [[] [] [] [] [] [] [] []]; by vm_compute. Qed.

Lemma matchSentences_shape text :
  forall cur (inTerm : bool),
    (if inTerm return Prop then sentenceShape (rev cur)
     else forallb (fun c => negb (isTerminator c)) (rev cur) = true) ->
    Forall sentenceShape (matchSentences cur inTerm text).
Proof.
  induction text as [|c r IH]; intros cur inTerm Hcur; cbn [matchSentences].
  - destruct (isEmpty cur); constructor; [|constructor].
    destruct inTerm; [done|]. exists (rev cur), []. by rewrite app_nil_r.
  - destruct (isTerminator c) eqn:Ec.
    + destruct cur as [|x cur]; cbn [isEmpty]; [by apply IH|].
      apply IH. cbn [rev]. destruct inTerm.
      * destruct Hcur as (body & terms & E & Hb & Ht).
        exists body, (terms ++ [c]). rewrite app_assoc, <- E.
        by rewrite forallb_snoc, Ht, Ec.
      * exists (rev cur ++ [x]), [c]. simpl. by rewrite Ec.
    + destruct inTerm.
      * constructor; [done|]. apply IH. simpl. by rewrite Ec.
      * apply IH. cbn [rev]. by rewrite forallb_snoc, Hcur, Ec.
Qed.

Lemma trimStart_shape s : sentenceShape s -> sentenceShape (trimStart s).
Proof.
  intros (body & terms & -> & Hb & Ht). unfold trimStart. rewrite dropWhile_app.
  destruct (forallb isSpace body).
  - exists [], terms. split; [|done]. simpl. apply dropWhile_id.
    destruct terms as [|c r]; [done|]. simpl in Ht.
    apply andb_true_iff in Ht as [Hc _]. by apply terminator_not_space.
  - exists (dropWhile isSpace body), terms. split; [done|].
    split; [by apply forallb_dropWhile | done].
Qed.

Lemma trimEnd_shape s : sentenceShape s -> sentenceShape (trimEnd s).
Proof.
  intros (body & terms & -> & Hb & Ht).
  destruct terms as [|c r] using rev_ind.
  - rewrite app_nil_r. exists (trimEnd body), []. rewrite app_nil_r.
    split; [done|]. split; [|done]. unfold trimEnd.
    rewrite forallb_rev. apply forallb_dropWhile. by rewrite forallb_rev.
  - clear IHr. exists body, (r ++ [c]). split; [|done].
    unfold trimEnd. rewrite app_assoc, rev_app_distr. simpl.
    rewrite forallb_snoc in Ht. apply andb_true_iff in Ht as [_ Hc].
    rewrite (terminator_not_space c Hc). simpl. by rewrite rev_involutive.
Qed.

(** X3.  Every sentence that [splitIntoSentences] returns is non-empty,
    neither starts nor ends with white space, and has its terminators
    ['.'], ['!'], ['?'] at its end only. *)
Theorem splitIntoSentences_sentences text :
  Forall (fun s => s <> [] /\ noEdgeSpace s /\ sentenceShape s)
    (splitIntoSentences text).
Proof.
  unfold splitIntoSentences. apply List.Forall_forall. intros s Hs.
  apply filter_In in Hs as [Hin Hne]. apply in_map_iff in Hin as (m & <- & Hm).
  split; [by apply negb_true_iff, isEmpty_false in Hne|].
  split; [apply trim_noEdgeSpace|].
  pose proof (matchSentences_shape text [] false eq_refl) as HF.
  rewrite List.Forall_forall in HF. apply trimEnd_shape, trimStart_shape, HF, Hm.
Qed.

Lemma matchSentences_concat text :
  forall cur inTerm,
    concat (matchSentences cur inTerm text)
    = if isEmpty cur then dropWhile isTerminator text else rev cur ++ text.
Proof.
  induction text as [|c r IH]; intros cur inTerm; cbn [matchSentences].
  - destruct cur as [|x cur]; cbn [isEmpty]; [done|]. simpl. by rewrite !app_nil_r.
  - destruct (isTerminator c) eqn:Ec.
    + destruct cur as [|x cur]; cbn [isEmpty].
      * rewrite IH. simpl. by rewrite Ec.
      * rewrite IH. cbn [isEmpty rev]. by rewrite <- !app_assoc.
    + destruct inTerm.
      * cbn [concat]. rewrite IH. cbn [isEmpty rev app].
        destruct cur as [|x cur]; cbn [isEmpty]; [simpl; by rewrite Ec | done].
      * rewrite IH. cbn [isEmpty rev]. rewrite <- app_assoc.
        destruct cur as [|x cur]; cbn [isEmpty]; [simpl; by rewrite Ec | done].
Qed.

(** X4.  The matches of the sentence pattern, before they are trimmed, are
    consecutive pieces of the text: put together they are the text without
    the terminators it starts with. *)
Theorem sentence_matches_cover_text text :
  concat (matchSentences [] false text) = dropWhile isTerminator text.
Proof. by rewrite matchSentences_concat. Qed.

(** *** How many chunks *)

Lemma concat_fresh_length (parts : list Part) :
  Forall (fun part => fresh part <> []) parts ->
  (length parts <= length (concat (map fresh parts)))%nat.
Proof.
  induction 1 as [|part parts Hf _ IH]; simpl; [lia|].
  rewrite length_app. destruct (fresh part); [done|]. simpl. lia.
Qed.

(** X5.  A page gives no chunk exactly when it has no sentence, and never
    more chunks than it has sentences. *)
Theorem chunkText_count t p options :
  (chunkText t p options = [] <-> splitIntoSentences t = [])
  /\ (length (chunkText t p options) <= length (splitIntoSentences t))%nat.
Proof.
  destruct (chunkText_parts t p options) as (parts & Hm & Hc & Hf & _ & _).
  assert (Hl : length (chunkText t p options) = length parts).
  { by rewrite <- (length_map content), Hm, length_map. }
  split; [split|].
  - intros E. rewrite E in Hl. destruct parts; [|done]. by rewrite <- Hc.
  - intros E. unfold chunkText. by rewrite E.
  - rewrite Hl, <- Hc. by apply concat_fresh_length.
Qed.

Lemma mustFlush_within opts st t :
  (inject_Z (currentTokens st + t) <= optMaxTokens opts)%Q ->
  mustFlush opts st t = false.
Proof.
  intros H. unfold mustFlush. apply Qle_bool_iff in H. by rewrite H.
Qed.

Lemma mainLoop_one_chunk opts p sentences :
  forall st,
    sentences <> [] ->
    currentTokens st = sumTokens (currentChunk st) ->
    (inject_Z (sumTokens (currentChunk st ++ sentences)) <= optMaxTokens opts)%Q
    \/ (currentChunk st = [] /\ length sentences = 1%nat) ->
    chunks (mainLoop opts p sentences st)
    = chunks st ++ [mkChunk (join (str " ") (currentChunk st ++ sentences)) p
                      (chunkIndex st) pos_end].
Proof.
  induction sentences as [|s rest IH]; intros st Hne Htok Hb; [done|].
  cbn [mainLoop].
  assert (Hnf : mustFlush opts st (countTokens s) = false).
  { destruct Hb as [Hb | [Hc _]].
    - apply mustFlush_within. eapply Qle_trans; [|exact Hb].
      rewrite <- Zle_Qle, Htok, sumTokens_app. simpl.
      pose proof (sumTokens_nonneg rest). lia.
    - unfold mustFlush. rewrite Hc. cbn [isEmpty negb]. apply andb_false_r. }
  assert (Hstep : loopBody opts p false s st = pushSentence s (countTokens s) st).
  { unfold loopBody. by rewrite Hnf. }
  destruct rest as [|s' rest'].
  - cbn [isEmpty mainLoop]. rewrite loopBody_last, Hstep.
    unfold flushLast, pushSentence. cbn [currentChunk chunks chunkIndex].
    by rewrite isEmpty_snoc.
  - cbn [isEmpty]. rewrite IH; rewrite ?Hstep; unfold pushSentence;
      cbn [currentChunk chunks chunkIndex currentTokens].
    + by rewrite <- app_assoc.
    + done.
    + by rewrite sumTokens_snoc, Htok.
    + destruct Hb as [Hb | [_ Hl]]; [|simpl in Hl; lia].
      left. by rewrite <- app_assoc.
Qed.

(** X6.  A page is one chunk exactly when it has sentences and their
    token sum is within [maxTokens], or it has a single sentence; the chunk
    is then all the sentences joined by single spaces, with index 0,
    position [end] and no overlap. *)
Theorem chunkText_one_chunk t p options :
  chunkText t p options
  = [mkChunk (join (str " ") (splitIntoSentences t)) p 0 pos_end]
  <-> splitIntoSentences t <> []
      /\ ((inject_Z (sumTokens (splitIntoSentences t))
           <= optMaxTokens (mergeOptions options))%Q
          \/ length (splitIntoSentences t) = 1%nat).
Proof.
  split.
  - intros E.
    destruct (chunkText_parts t p options) as (parts & Hm & Hc & Hf & Hb & Hch & _).
    rewrite E in Hm. destruct parts as [|part [|part' parts]]; [done | | done].
    destruct Hch as [[pre Hpre] _]. symmetry in Hpre.
    apply app_eq_nil in Hpre as [_ Hseed].
    simpl in Hc. rewrite app_nil_r in Hc.
    inversion Hf as [|? ? Hfp _]; subst. inversion Hb as [|? ? Hbp _]; subst.
    unfold withinBudget, partSentences in Hbp. rewrite Hseed in Hbp. simpl in Hbp.
    rewrite <- Hc. split; [done | exact Hbp].
  - intros [Hne Hb]. unfold chunkText.
    destruct (splitIntoSentences t) as [|s r] eqn:E; [done|]. cbn [isEmpty].
    rewrite mainLoop_one_chunk; [done | done | done |].
    destruct Hb as [Hb | Hl]; [by left | by right].
Qed.

(** *** The fields of a chunk *)

Lemma loopBody_mkChunk opts p isLast s st :
  Forall (fun c => exists i pos, c = mkChunk (content c) p i pos) (chunks st) ->
  Forall (fun c => exists i pos, c = mkChunk (content c) p i pos)
    (chunks (loopBody opts p isLast s st)).
Proof.
  intros H. unfold loopBody, flushLast, flush, pushSentence.
  destruct (mustFlush _ _ _), (_ && _); cbn [chunks];
    repeat (apply Forall_app; split); try done;
    constructor; try constructor; eauto.
Qed.

Lemma chunkText_mkChunk t p options :
  Forall (fun c => exists i pos, c = mkChunk (content c) p i pos)
    (chunkText t p options).
Proof.
  unfold chunkText. destruct (isEmpty _); [constructor|].
  assert (H : Forall (fun c => exists i pos, c = mkChunk (content c) p i pos)
                (chunks initState)) by constructor.
  revert H. generalize initState.
  induction (splitIntoSentences t) as [|s r IH]; intros st H; [done|].
  cbn [mainLoop]. by apply IH, loopBody_mkChunk.
Qed.

Lemma reindexFrom_pages g cs :
  map page_no (reindexFrom g cs) = map page_no cs.
Proof. by apply reindexFrom_meta. Qed.

(** X7.  Every chunk of [chunkPages] carries the token count and the
    digest of its own content and the same page number and index in
    [meta] as outside it; the page numbers of the chunks are those of the
    pages, each repeated for the chunks of that page, in page order. *)
Theorem chunkPages_fields pages options :
  Forall (fun c => token_count c = countTokens (content c)
                   /\ content_hash c = hashContent (content c)
                   /\ meta_page_no (meta c) = page_no c
                   /\ meta_chunk_index (meta c) = chunk_index c)
    (chunkPages pages options)
  /\ map page_no (chunkPages pages options)
     = concat (map (fun page =>
                 repeat (pageNo page)
                   (length (chunkText (text page) (pageNo page) options))) pages).
Proof.
  rewrite chunkPages_eq. split.
  - apply List.Forall_forall. intros c Hc.
    apply reindexFrom_In in Hc as (c0 & i & Hin & ->).
    unfold pageChunksOf in Hin. apply in_concat in Hin as (l & Hl & Hin).
    apply in_map_iff in Hl as (pg & <- & _).
    pose proof (chunkText_mkChunk (text pg) (pageNo pg) options) as HF.
    rewrite List.Forall_forall in HF. destruct (HF c0 Hin) as (j & pos & E).
    rewrite E. by cbn.
  - rewrite reindexFrom_pages, map_pageChunksOf. f_equal. apply map_ext.
    intros pg. pose proof (chunkText_mkChunk (text pg) (pageNo pg) options) as HF.
    induction HF as [|c l (j & pos & E) _ IH]; simpl; [done|].
    rewrite IH, E. by cbn.
Qed.

(** *** Documents put together *)

Lemma shift_reindexFrom n g cs :
  map (fun c => withGlobalIndex c (chunk_index c + n)) (reindexFrom g cs)
  = reindexFrom (g + n) cs.
Proof.
  revert g; induction cs as [|c cs IH]; intros g; simpl; [done|].
  rewrite IH. f_equal. f_equal. lia.
Qed.

(** X8.  Chunking two lists of pages one after the other: the chunks of
    the first list, then those of the second list with their indices moved
    up by the number of chunks of the first. *)
Theorem chunkPages_app pages1 pages2 options :
  chunkPages (pages1 ++ pages2) options
  = chunkPages pages1 options
    ++ map (fun c => withGlobalIndex c
                       (chunk_index c + Z.of_nat (length (chunkPages pages1 options))))
         (chunkPages pages2 options).
Proof.
  rewrite !chunkPages_eq, shift_reindexFrom, reindexFrom_length.
  unfold pageChunksOf. by rewrite map_app, concat_app, reindexFrom_app.
Qed.

(** *** Pages without sentences *)

Lemma space_not_terminator c : isSpace c = true -> isTerminator c = false.
Proof.
  intros H. destruct (isTerminator c) eqn:E; [|done].
  apply terminator_not_space in E. congruence.
Qed.

Lemma matchSentences_spaces text :
  forall cur, forallb isSpace text = true ->
    matchSentences cur false text
    = if isEmpty (rev cur ++ text) then [] else [rev cur ++ text].
Proof.
  induction text as [|c r IH]; intros cur H; cbn [matchSentences].
  - rewrite app_nil_r. destruct cur as [|x cur]; [done|].
    cbn [isEmpty rev]. by rewrite isEmpty_snoc.
  - simpl in H. apply andb_true_iff in H as [Hc Hr].
    rewrite (space_not_terminator c Hc), IH by done. cbn [rev].
    by rewrite <- app_assoc.
Qed.

Lemma matchSentences_terminators text :
  forallb isTerminator text = true -> matchSentences [] false text = [].
Proof.
  induction text as [|c r IH]; cbn [matchSentences isEmpty]; [done|]. simpl.
  intros H. apply andb_true_iff in H as [-> Hr]. by apply IH.
Qed.

(** X9.  A page whose text is only white space, or only terminators, has
    no sentence and gives no chunk. *)
Theorem chunkText_blank_page t p options :
  forallb isSpace t = true \/ forallb isTerminator t = true ->
  splitIntoSentences t = [] /\ chunkText t p options = [].
Proof.
  intros H. assert (E : splitIntoSentences t = []).
  { unfold splitIntoSentences. destruct H as [H | H].
    - rewrite matchSentences_spaces by done. cbn [rev app].
      destruct t as [|c r]; [done|]. cbn [isEmpty map List.filter].
      by rewrite trim_spaces.
    - by rewrite matchSentences_terminators. }
  split; [done|]. unfold chunkText. by rewrite E.
Qed.

Lemma chunkText_blank_page_witness :
  (forallb isSpace (str "   ") = true \/ forallb isTerminator (str "   ") = true)
  /\ splitIntoSentences (str "   ") = [] /\ chunkText (str "   ") 1 noOptions = [].
Proof.
  split; [left; reflexivity|].
  apply (chunkText_blank_page (str "   ") 1 noOptions). left. reflexivity.
Defined.

(** *** The recorded token count *)

Lemma join_tokens l :
  countTokens (join (str " ") l)
  <= sumTokens l + Z.of_nat (length l - 1).
Proof.
  induction l as [|x [|y r] IH]; [done | simpl; lia |].
  change (join (str " ") (x :: y :: r))
    with (x ++ str " " ++ join (str " ") (y :: r)).
  pose proof (TokenCounterFacts.countTokens_app x (str " " ++ join (str " ") (y :: r))).
  pose proof (TokenCounterFacts.countTokens_app (str " ") (join (str " ") (y :: r))).
  change (countTokens (str " ")) with 1 in *.
  change (sumTokens (x :: y :: r)) with (countTokens x + sumTokens (y :: r)).
  simpl length in *. lia.
Qed.

(** X11.  The token count recorded in a chunk is counted on the joined
    content, not taken from the running sum: with the parts of the chunks
    as before, it exceeds the token sum of the sentences of the chunk by at
    most one token for each space that joins two sentences. *)
Theorem chunkText_token_count_bound t p options :
  exists parts,
    map (fun c => (content c, token_count c)) (chunkText t p options)
    = map (fun part => (partContent part, countTokens (partContent part))) parts /\
    concat (map fresh parts) = splitIntoSentences t /\
    Forall (fun part =>
              countTokens (partContent part)
              <= sumTokens (seed part ++ fresh part)
                 + Z.of_nat (length (seed part ++ fresh part) - 1)) parts.
Proof.
  destruct (chunkText_parts t p options) as (parts & Hm & Hc & _ & _ & _).
  exists parts. split; [|split; [done|]].
  - pose proof (chunkText_mkChunk t p options) as HF.
    clear Hc. revert parts Hm.
    induction HF as [|c l (i & pos & E) _ IH]; intros parts Hm.
    + by destruct parts.
    + destruct parts as [|part parts]; [done|]. simpl in Hm.
      injection Hm as Hc Hm. simpl. rewrite (IH parts Hm), <- Hc.
      by rewrite E.
  - apply List.Forall_forall. intros part _. apply join_tokens.
Qed.

(** *** The overlap *)

Lemma overlapLinked_lookup opts parts :
  overlapLinked opts parts ->
  forall i prev next,
    parts !! i = Some prev -> parts !! S i = Some next -> overlapSeed opts prev next.
Proof.
  induction parts as [|part parts IH]; [done|].
  intros [H1 H2] i prev next Hi Hn. destruct i as [|i].
  - cbn in Hi. injection Hi as <-.
    destruct parts as [|part' parts]; cbn in Hn; [done|]. by injection Hn as <-.
  - by apply (IH H2 i).
Qed.

Lemma parts_token_counts t p options parts :
  map content (chunkText t p options) = map partContent parts ->
  map (fun c => (content c, token_count c)) (chunkText t p options)
  = map (fun part => (partContent part, countTokens (partContent part))) parts.
Proof.
  pose proof (chunkText_mkChunk t p options) as HF. revert parts.
  induction HF as [|c l (i & pos & E) _ IH]; intros parts Hm.
  - by destruct parts.
  - destruct parts as [|part parts]; [done|]. simpl in Hm.
    injection Hm as Hc Hm. simpl. rewrite (IH parts Hm), <- Hc.
    by rewrite E.
Qed.

(** C4, as the code has it.  The chunks of a page are the contents of
    parts [seed ++ fresh] as before.  The first chunk carries nothing.  For
    every later chunk, the sentences [seed] carried into it are the
    shortest trailing run of the sentences of the chunk before it whose
    token sum reaches the target
    [Math.floor(token_count * (overlapPercentage / 100))], computed in
    double precision from the token count of that chunk -- so the sum may
    exceed the target --, or all the sentences of that chunk when no
    trailing run reaches the target. *)
Theorem chunkText_overlap_seed t p options :
  exists parts,
    map (fun c => (content c, token_count c)) (chunkText t p options)
    = map (fun part => (partContent part, countTokens (partContent part))) parts /\
    concat (map fresh parts) = splitIntoSentences t /\
    Forall (fun part => fresh part <> []) parts /\
    (forall part, head parts = Some part -> seed part = []) /\
    (forall i prev next,
       parts !! i = Some prev -> parts !! S i = Some next ->
       shortestRunReaching
         (overlapTokenTarget (mergeOptions options) (countTokens (partContent prev)))
         (partSentences prev) (seed next)).
Proof.
  destruct (chunkText_parts t p options) as (parts & Hm & Hc & Hf & _ & _ & Hh & Hl).
  exists parts. split; [by apply parts_token_counts|]. do 3 (split; [done|]).
  intros i prev next Hi Hn. exact (overlapLinked_lookup _ _ Hl i prev next Hi Hn).
Qed.

End ChunkerFacts.

(** ** Facts about the pages of the parse function *)

Module EdgeFunctionFacts.
Import JS Chunker ChunkerVocabulary JSFacts EdgeFunction.

Lemma padPages_nil pages : padPages 0 pages = pages.
Proof. reflexivity. Qed.

Lemma seq_pages_numbers (f : nat -> jsstring) n :
  map pageNo (map (fun i => {| pageNo := Z.of_nat (i + 1); text := f i |}) (seq 0 n))
  = map Z.of_nat (seq 1 n).
Proof.
  rewrite map_map. cbn [pageNo]. rewrite <- seq_shift, map_map.
  apply map_ext. intros i. f_equal. lia.
Qed.

(** X13.  [parsePDF] returns exactly [pageCount] pages, numbered 1, 2, ...,
    [pageCount] in this order, whatever the text is. *)
Theorem parsePDF_page_numbers fullText pageCount :
  length (parsePDF fullText pageCount) = pageCount
  /\ map pageNo (parsePDF fullText pageCount) = map Z.of_nat (seq 1 pageCount).
Proof.
  unfold parsePDF. destruct (isEmpty fullText || isEmpty (trim fullText)).
  - split; [by rewrite length_map, length_seq | by rewrite map_map].
  - set (pageTexts := List.filter _ _).
    destruct (Nat.ltb_spec (length pageTexts) pageCount) as [Hlt | Hge].
    + rewrite length_map, length_seq, Nat.sub_diag, padPages_nil.
      rewrite firstn_all2 by (rewrite length_map, length_seq; lia).
      split; [by rewrite length_map, length_seq | apply seq_pages_numbers].
    + rewrite Nat.min_r by lia.
      rewrite length_map, length_seq, Nat.sub_diag, padPages_nil.
      rewrite firstn_all2 by (rewrite length_map, length_seq; lia).
      split; [by rewrite length_map, length_seq | apply seq_pages_numbers].
Qed.

Lemma orEmptyPage_trim s :
  orEmptyPage (trim s) <> [] /\ noEdgeSpace (orEmptyPage (trim s)).
Proof.
  unfold orEmptyPage. destruct (trim s) as [|c r] eqn:E; cbn [isEmpty].
  - split; [done | by vm_compute].
  - split; [done|]. rewrite <- E. apply trim_noEdgeSpace.
Qed.

(** X14.  No page of [parsePDF] has an empty text: a page is a note in
    square brackets or a piece of the text, and neither starts nor ends
    with white space. *)
Theorem parsePDF_page_texts fullText pageCount :
  Forall (fun page => text page <> [] /\ noEdgeSpace (text page))
    (parsePDF fullText pageCount).
Proof.
  unfold parsePDF. destruct (isEmpty fullText || isEmpty (trim fullText)).
  - apply List.Forall_forall. intros page Hp. apply in_map_iff in Hp as (i & <- & _).
    split; [done | by vm_compute].
  - set (pageTexts := List.filter _ _).
    destruct (Nat.ltb_spec (length pageTexts) pageCount) as [Hlt | Hge];
      rewrite length_map, length_seq.
    + rewrite Nat.sub_diag, padPages_nil.
      apply Forall_take, List.Forall_forall. intros page Hp.
      apply in_map_iff in Hp as (i & <- & _). apply orEmptyPage_trim.
    + rewrite Nat.min_r by lia. rewrite Nat.sub_diag, padPages_nil.
      apply Forall_take, List.Forall_forall. intros page Hp.
      apply in_map_iff in Hp as (i & <- & _). apply orEmptyPage_trim.
Qed.

Lemma substring_slice s i w :
  substring s (i * w) (Nat.min (i * w + w) (length s)) = take w (drop (i * w) s).
Proof.
  unfold substring.
  destruct (Nat.le_gt_cases (length s) (i * w)) as [Hge | Hlt].
  - rewrite !drop_ge by lia. by rewrite !take_nil.
  - set (b := Nat.min (i * w + w) (length s)).
    replace (Nat.min (i * w) (length s)) with (i * w)%nat by lia.
    replace (Nat.min b (length s)) with b by lia.
    replace (Nat.min (i * w) b) with (i * w)%nat by lia.
    replace (Nat.max (i * w) b) with b by lia.
    destruct (Nat.le_gt_cases (i * w + w) (length s)) as [H | H].
    + f_equal. lia.
    + rewrite (take_ge _ w) by (rewrite length_drop; lia).
      apply take_ge. rewrite length_drop. lia.
Qed.

Lemma slices_concat {A} (s : list A) w n :
  concat (map (fun i => take w (drop (i * w) s)) (seq 0 n)) = take (n * w) s.
Proof.
  induction n as [|n IH]; [done|].
  rewrite seq_S, map_app, concat_app, IH. simpl. rewrite app_nil_r.
  rewrite take_take_drop. f_equal. lia.
Qed.

Lemma textPerPage_covers fullText pageCount :
  (0 < pageCount)%nat ->
  (length fullText <= pageCount * textPerPage fullText pageCount)%nat.
Proof.
  intros Hn. unfold textPerPage.
  pose proof (Nat.div_mod (length fullText + pageCount - 1) pageCount ltac:(lia)) as Hd.
  pose proof (Nat.mod_upper_bound (length fullText + pageCount - 1) pageCount ltac:(lia)).
  lia.
Qed.

(** X15.  When the text has fewer pieces between form feeds (white-space
    pieces left out) than the PDF has pages, the pages are consecutive
    slices of the text, all of one length but the last ones: the slices put
    together are the whole text, and a page is its slice trimmed, or the
    note ['[Empty page]'] when nothing is left of it. *)
Theorem parsePDF_even_split fullText pageCount :
  trim fullText <> [] ->
  (length (List.filter (fun t => negb (isEmpty (trim t)))
             (splitOn formFeed [] fullText)) < pageCount)%nat ->
  exists slices,
    length slices = pageCount /\
    concat slices = fullText /\
    Forall (fun slice =>
              (length slice <= textPerPage fullText pageCount)%nat) slices /\
    map text (parsePDF fullText pageCount)
    = map (fun slice => orEmptyPage (trim slice)) slices.
Proof.
  intros Htrim Hlt. unfold parsePDF.
  assert (Hne : isEmpty fullText || isEmpty (trim fullText) = false).
  { destruct fullText; [done|]. by destruct (trim _). }
  rewrite Hne. apply Nat.ltb_lt in Hlt as Hb. rewrite Hb.
  rewrite length_map, length_seq, Nat.sub_diag, padPages_nil.
  rewrite firstn_all2 by (rewrite length_map, length_seq; lia).
  set (w := textPerPage fullText pageCount).
  exists (map (fun i => take w (drop (i * w) fullText)) (seq 0 pageCount)).
  split; [by rewrite length_map, length_seq|]. split; [|split].
  - rewrite slices_concat. apply take_ge.
    pose proof (textPerPage_covers fullText pageCount ltac:(lia)). fold w in H. lia.
  - apply List.Forall_forall. intros sl Hs. apply in_map_iff in Hs as (i & <- & _).
    rewrite length_take. lia.
  - rewrite !map_map. apply map_ext. intros i. cbn [text].
    by rewrite substring_slice.
Qed.

Lemma parsePDF_even_split_witness :
  trim (str "one two three four") <> []
  /\ (length (List.filter (fun t => negb (isEmpty (trim t)))
                (splitOn formFeed [] (str "one two three four"))) < 3)%nat
  /\ exists slices,
       length slices = 3%nat /\
       concat slices = str "one two three four" /\
       Forall (fun slice =>
                 (length slice <= textPerPage (str "one two three four") 3)%nat) slices /\
       map text (parsePDF (str "one two three four") 3)
       = map (fun slice => orEmptyPage (trim slice)) slices.
Proof.
  split; [discriminate|]. split; [vm_compute; lia|].
  apply (parsePDF_even_split (str "one two three four") 3); [discriminate|].
  vm_compute; lia.
Defined.

End EdgeFunctionFacts.

(** ** Further facts about the fuzzy search *)

Module FuzzyFacts.
Import JS FuzzySearch FuzzySpec FuzzyProofs ChunkerVocabulary FuzzyVocabulary JSFacts.

(** *** The edit distance as a distance *)

Lemma EditScript_sym a b n : EditScript a b n -> EditScript b a n.
Proof. induction 1; by constructor. Qed.

Lemma EditScript_refl a : EditScript a a 0.
Proof.
  induction a as [|x a IH] using rev_ind; [constructor | by apply edit_keep].
Qed.

Lemma EditScript_cost a b n :
  EditScript a b n ->
  0 <= n /\ Z.abs (Z.of_nat (length a) - Z.of_nat (length b)) <= n
  /\ (n = 0 -> a = b).
Proof.
  induction 1 as [|a b x n H (IH1 & IH2 & IH3)|a b y n H (IH1 & IH2 & IH3)
                  |a b x n H (IH1 & IH2 & IH3)|a b x y n H (IH1 & IH2 & IH3)];
    rewrite ?length_app; simpl length; repeat split; try lia.
  intros ->. by rewrite IH3.
Qed.

Lemma levTable_upper str1 str2 j :
  forall i, levTable str1 str2 j i <= Z.max (Z.of_nat i) (Z.of_nat j).
Proof.
  induction j as [|j IHj]; intros i; [rewrite levTable_row0; lia|].
  destruct i as [|i]; [rewrite levTable_col0; lia|].
  pose proof (levTable_subst_le str1 str2 j i).
  pose proof (substCost_bounds str1 str2 i j). specialize (IHj i). lia.
Qed.

Lemma levenshteinDistance_sym a b :
  levenshteinDistance a b = levenshteinDistance b a.
Proof.
  destruct (levenshteinDistance_correct a b) as [Hab Hmin].
  destruct (levenshteinDistance_correct b a) as [Hba Hmin'].
  apply EditScript_sym in Hab. apply EditScript_sym in Hba.
  specialize (Hmin _ Hba). specialize (Hmin' _ Hab). lia.
Qed.

Lemma levenshteinDistance_zero a b : levenshteinDistance a b = 0 <-> a = b.
Proof.
  destruct (levenshteinDistance_correct a b) as [Hab Hmin].
  destruct (EditScript_cost _ _ _ Hab) as (H0 & _ & Hz). split; [exact Hz|].
  intros ->. specialize (Hmin 0 (EditScript_refl b)). lia.
Qed.

Lemma levenshteinDistance_bounds a b :
  Z.abs (Z.of_nat (length a) - Z.of_nat (length b)) <= levenshteinDistance a b
  <= Z.max (Z.of_nat (length a)) (Z.of_nat (length b)).
Proof.
  destruct (levenshteinDistance_correct a b) as [Hab _].
  destruct (EditScript_cost _ _ _ Hab) as (_ & Habs & _). split; [exact Habs|].
  rewrite levenshteinDistance_levTable. apply levTable_upper.
Qed.

(** X16.  [levenshteinDistance] is symmetric, it is 0 exactly for equal
    strings, and it lies between the difference of the two lengths and the
    larger of them. *)
Theorem levenshteinDistance_metric a b :
  levenshteinDistance a b = levenshteinDistance b a
  /\ (levenshteinDistance a b = 0 <-> a = b)
  /\ Z.abs (Z.of_nat (length a) - Z.of_nat (length b)) <= levenshteinDistance a b
     <= Z.max (Z.of_nat (length a)) (Z.of_nat (length b)).
Proof.
  split; [apply levenshteinDistance_sym|].
  split; [apply levenshteinDistance_zero | apply levenshteinDistance_bounds].
Qed.

Lemma EditScript_delete_all a c k a2 :
  EditScript a c k -> EditScript (a ++ a2) c (k + Z.of_nat (length a2)).
Proof.
  intros H. induction a2 as [|x a2 IH] using rev_ind.
  - simpl. by rewrite app_nil_r, Z.add_0_r.
  - rewrite app_assoc, length_app. simpl length.
    replace (k + Z.of_nat (length a2 + 1)) with (k + Z.of_nat (length a2) + 1) by lia.
    by apply edit_delete.
Qed.

Lemma EditScript_weaken_cost a c k k' :
  EditScript a c k -> k = k' -> EditScript a c k'.
Proof. by intros H <-. Qed.

(** How a script reaches the last character [y] of its target: after it,
    the script only deletes; [y] itself is inserted, kept or written over
    another character. *)
Lemma EditScript_last_target a bb n :
  EditScript a bb n ->
  forall b' y, bb = b' ++ [y] ->
  exists a1 a2,
    a = a1 ++ a2 /\
    (EditScript a1 b' (n - Z.of_nat (length a2) - 1)
     \/ (exists a0, a1 = a0 ++ [y] /\ EditScript a0 b' (n - Z.of_nat (length a2)))
     \/ (exists a0 x, a1 = a0 ++ [x]
                      /\ EditScript a0 b' (n - Z.of_nat (length a2) - 1))).
Proof.
  induction 1 as [|a b x n H IH|a b y0 n H IH|a b x n H IH|a b x y0 n H IH];
    intros b' y E.
  - by destruct b'.
  - destruct (IH b' y E) as (a1 & a2 & -> & Hc).
    exists a1, (a2 ++ [x]). split; [by rewrite app_assoc|].
    rewrite length_app. simpl length.
    replace (n + 1 - Z.of_nat (length a2 + 1)) with (n - Z.of_nat (length a2)) by lia.
    exact Hc.
  - apply app_inj_tail in E as [-> ->]. exists a, []. split; [by rewrite app_nil_r|].
    left. eapply EditScript_weaken_cost; [exact H | simpl; lia].
  - apply app_inj_tail in E as [-> ->]. exists (a ++ [y]), [].
    split; [by rewrite app_nil_r|]. right; left. exists a. split; [done|].
    eapply EditScript_weaken_cost; [exact H | simpl; lia].
  - apply app_inj_tail in E as [-> ->]. exists (a ++ [x]), [].
    split; [by rewrite app_nil_r|]. right; right. exists a, x. split; [done|].
    eapply EditScript_weaken_cost; [exact H | simpl; lia].
Qed.

(** Two scripts in a row are no cheaper than the best single script. *)
Lemma EditScript_trans b c m :
  EditScript b c m ->
  forall a n, EditScript a b n -> exists k, k <= n + m /\ EditScript a c k.
Proof.
  induction 1 as [|b c y m H IH|b c z m H IH|b c y m H IH|b c y z m H IH];
    intros a n S1.
  - exists n. split; [lia | done].
  - destruct (EditScript_last_target _ _ _ S1 b y eq_refl)
      as (a1 & a2 & -> & [S | [(a0 & -> & S) | (a0 & x & -> & S)]]);
      destruct (IH _ _ S) as (k & Hk & Sk).
    + exists (k + Z.of_nat (length a2)). split; [lia|]. by apply EditScript_delete_all.
    + exists (k + 1 + Z.of_nat (length a2)). split; [lia|].
      by apply EditScript_delete_all, edit_delete.
    + exists (k + 1 + Z.of_nat (length a2)). split; [lia|].
      by apply EditScript_delete_all, edit_delete.
  - destruct (IH _ _ S1) as (k & Hk & Sk). exists (k + 1). split; [lia|].
    by apply edit_insert.
  - destruct (EditScript_last_target _ _ _ S1 b y eq_refl)
      as (a1 & a2 & -> & [S | [(a0 & -> & S) | (a0 & x & -> & S)]]);
      destruct (IH _ _ S) as (k & Hk & Sk).
    + exists (k + 1 + Z.of_nat (length a2)). split; [lia|].
      by apply EditScript_delete_all, edit_insert.
    + exists (k + Z.of_nat (length a2)). split; [lia|].
      by apply EditScript_delete_all, edit_keep.
    + exists (k + 1 + Z.of_nat (length a2)). split; [lia|].
      by apply EditScript_delete_all, edit_substitute.
  - destruct (EditScript_last_target _ _ _ S1 b y eq_refl)
      as (a1 & a2 & -> & [S | [(a0 & -> & S) | (a0 & x & -> & S)]]);
      destruct (IH _ _ S) as (k & Hk & Sk).
    + exists (k + 1 + Z.of_nat (length a2)). split; [lia|].
      by apply EditScript_delete_all, edit_insert.
    + exists (k + 1 + Z.of_nat (length a2)). split; [lia|].
      by apply EditScript_delete_all, edit_substitute.
    + exists (k + 1 + Z.of_nat (length a2)). split; [lia|].
      by apply EditScript_delete_all, edit_substitute.
Qed.

(** X17.  The triangle inequality: going from [a] to [c] through [b]
    never takes fewer edits than going directly. *)
Theorem levenshteinDistance_triangle a b c :
  levenshteinDistance a c <= levenshteinDistance a b + levenshteinDistance b c.
Proof.
  destruct (levenshteinDistance_correct a b) as [Hab _].
  destruct (levenshteinDistance_correct b c) as [Hbc _].
  destruct (levenshteinDistance_correct a c) as [_ Hmin].
  destruct (EditScript_trans _ _ _ Hbc _ _ Hab) as (k & Hk & Sk).
  specialize (Hmin k Sk). lia.
Qed.

(** *** The similarity *)

(** The distance of the lower-cased strings.  Nothing here looks at what
    [toLowerCase] does to a string. *)
Lemma similarity_distance a b :
  0 <= levenshteinDistance (toLowerCase a) (toLowerCase b)
  /\ (levenshteinDistance (toLowerCase a) (toLowerCase b) = 0
      <-> toLowerCase a = toLowerCase b).
Proof.
  pose proof (levenshteinDistance_bounds (toLowerCase a) (toLowerCase b)) as Hb.
  split; [lia | apply levenshteinDistance_zero].
Qed.

Lemma calculateSimilarity_le_1 a b : (calculateSimilarity a b <= 1)%Q.
Proof.
  destruct (similarity_distance a b) as (Hd & _). unfold calculateSimilarity.
  set (d := levenshteinDistance (toLowerCase a) (toLowerCase b)) in *.
  set (m := Z.max (Z.of_nat (length a)) (Z.of_nat (length b))) in *.
  assert (Hm : 0 <= m) by (subst m; lia).
  destruct (Z.eqb_spec m 0) as [E | E]; [done|].
  destruct m as [|pm|pm]; [done | | lia].
  unfold Qdiv, Qmult, Qinv, Qle, inject_Z; simpl. nia.
Qed.

(** The similarity is not negative when lower-casing makes neither string
    longer: the distance is then at most the larger of the two lengths. *)
Lemma calculateSimilarity_nonneg a b :
  (length (toLowerCase a) <= length a)%nat ->
  (length (toLowerCase b) <= length b)%nat ->
  (0 <= calculateSimilarity a b)%Q.
Proof.
  intros Ha Hb.
  pose proof (levenshteinDistance_bounds (toLowerCase a) (toLowerCase b)) as Hd.
  unfold calculateSimilarity.
  set (d := levenshteinDistance (toLowerCase a) (toLowerCase b)) in *.
  set (m := Z.max (Z.of_nat (length a)) (Z.of_nat (length b))) in *.
  assert (Hm : d <= m) by (subst m; lia).
  destruct (Z.eqb_spec m 0) as [E | E]; [done|].
  destruct m as [|pm|pm]; [done | | lia].
  unfold Qdiv, Qmult, Qinv, Qle, inject_Z; simpl. nia.
Qed.

(** X18.  [calculateSimilarity] is at most 1, is 1 exactly when the two
    strings are equal once in lower case, and does not depend on the order
    of its arguments.  It is at least 0 when lower-casing makes neither
    string longer, as for every string of code units below 256; the
    length is taken before the strings are lower-cased and the distance
    after, so a string that grows in lower case can make it negative. *)
Theorem calculateSimilarity_range a b :
  (calculateSimilarity a b <= 1)%Q
  /\ ((calculateSimilarity a b == 1)%Q <-> toLowerCase a = toLowerCase b)
  /\ calculateSimilarity a b = calculateSimilarity b a
  /\ ((length (toLowerCase a) <= length a)%nat ->
      (length (toLowerCase b) <= length b)%nat ->
      (0 <= calculateSimilarity a b)%Q).
Proof.
  split; [apply calculateSimilarity_le_1|].
  split; [|split; [|apply calculateSimilarity_nonneg]].
  - destruct (similarity_distance a b) as (Hd & Hz).
    unfold calculateSimilarity.
    set (d := levenshteinDistance (toLowerCase a) (toLowerCase b)) in *.
    set (m := Z.max (Z.of_nat (length a)) (Z.of_nat (length b))) in *.
    assert (Hm : 0 <= m) by (subst m; lia).
    destruct (Z.eqb_spec m 0) as [E | E].
    + split; [|reflexivity]. intros _. subst m. destruct a, b; cbn [length] in E; try lia. done.
    + rewrite <- Hz. destruct m as [|pm|pm]; [done | | lia].
      unfold Qdiv, Qmult, Qinv, Qeq, inject_Z; simpl. split; nia.
  - unfold calculateSimilarity.
    rewrite (levenshteinDistance_sym (toLowerCase b) (toLowerCase a)).
    by rewrite (Z.max_comm (Z.of_nat (length b))).
Qed.

Lemma calculateSimilarity_range_witness :
  (length (toLowerCase (str "Hello")) <= length (str "Hello"))%nat
  /\ (length (toLowerCase (str "help")) <= length (str "help"))%nat
  /\ (0 <= calculateSimilarity (str "Hello") (str "help"))%Q.
Proof.
  split; [vm_compute; lia|]. split; [vm_compute; lia|].
  apply (calculateSimilarity_range (str "Hello") (str "help")); vm_compute; lia.
Defined.

(** *** The score *)

Lemma StepOK_refl st : StepOK st st.
Proof. split; [done|]. split; [apply Qle_refl | done]. Qed.

Lemma StepOK_trans st1 st2 st3 : StepOK st1 st2 -> StepOK st2 st3 -> StepOK st1 st3.
Proof.
  intros (A1 & B1 & C1) (A2 & B2 & C2). split; [auto|]. split.
  - by eapply Qle_trans.
  - by rewrite C2.
Qed.

Lemma StepOK_fold {A} (f : ScoreState -> A -> ScoreState) l :
  (forall st x, StepOK st (f st x)) -> forall st, StepOK st (fold_left f l st).
Proof.
  intros Hf. induction l as [|x l IH]; intros st; simpl; [apply StepOK_refl|].
  eapply StepOK_trans; [apply Hf | apply IH].
Qed.

Lemma Qgtb_true a b : Qgtb a b = true -> (b < a)%Q.
Proof.
  unfold Qgtb. rewrite negb_true_iff. intros H. apply Qnot_le_lt. intros Hle.
  apply Qle_bool_iff in Hle. congruence.
Qed.

Lemma fuzzyStep_ok variation st word : StepOK st (fuzzyStep variation st word).
Proof.
  unfold fuzzyStep. destruct (_ <? _)%nat; [|apply StepOK_refl].
  destruct (Qgtb _ _) eqn:E; [|apply StepOK_refl]. apply Qgtb_true in E.
  unfold StepOK, ScoreInv. cbn [curScore curMatchType curHighlights].
  split; [|split].
  - intros (H0 & Ht & Hn). split; [lra|]. split.
    + by destruct (curMatchType st).
    + intros _. by destruct (curHighlights st).
  - lra.
  - by destruct (curMatchType st).
Qed.

Lemma partialStep_ok contentLower st variation :
  StepOK st (partialStep contentLower st variation).
Proof.
  unfold partialStep. destruct (includes _ _); [|apply StepOK_refl].
  unfold StepOK, ScoreInv. cbn [curScore curMatchType curHighlights].
  split; [|split].
  - intros (H0 & Ht & Hn). split; [lra|]. split.
    + by destruct (curMatchType st).
    + intros _. by destruct (curHighlights st).
  - lra.
  - by destruct (curMatchType st).
Qed.

Lemma normalizeScore_range x : (0 <= normalizeScore x <= 100)%Q.
Proof.
  unfold normalizeScore, Qgeb.
  destruct (Qle_bool x 0) eqn:E1.
  - destruct (Qle_bool 100 0) eqn:E2; [apply Qle_bool_iff in E2; lra|]. lra.
  - destruct (Qle_bool 100 x) eqn:E2; [lra|].
    assert (~ (x <= 0)%Q) by (intros H; apply Qle_bool_iff in H; congruence).
    assert (~ (100 <= x)%Q) by (intros H'; apply Qle_bool_iff in H'; congruence).
    lra.
Qed.

Lemma normalizeScore_top x : (100 <= x)%Q -> normalizeScore x = 100%Q.
Proof.
  intros H. unfold normalizeScore, Qgeb.
  destruct (Qle_bool x 0) eqn:E1; [apply Qle_bool_iff in E1; lra|].
  apply Qle_bool_iff in H. by rewrite H.
Qed.

Lemma nonneg_count (n : nat) : (0 <= inject_Z (Z.of_nat n) * 50)%Q.
Proof.
  assert (0 <= inject_Z (Z.of_nat n))%Q by (rewrite <- (Zle_Qle 0); lia). lra.
Qed.

(** The state of [calculateSearchScore] after the two exact tests. *)
Lemma exact_tests cl ql st1 st2 :
  st1 = (if includes cl ql then
           {| curScore := (0 + 100)%Q; curMatchType := exact;
              curHighlights := [] ++ [hl_exact]; fuzzyMatches := 0 |}
         else {| curScore := 0; curMatchType := trigram; curHighlights := [];
                 fuzzyMatches := 0 |}) ->
  st2 = (if negb (isEmpty (exactWords cl ql)) then
           {| curScore := (curScore st1
                           + inject_Z (Z.of_nat (length (exactWords cl ql))) * 50)%Q;
              curMatchType := exact;
              curHighlights := curHighlights st1 ++ [hl_exact_words];
              fuzzyMatches := fuzzyMatches st1 |}
         else st1) ->
  ScoreInv st2
  /\ (curMatchType st2 = exact <->
      includes cl ql = true \/ exactWords cl ql <> [])
  /\ (includes cl ql = true -> (100 <= curScore st2)%Q).
Proof.
  intros -> ->. pose proof (nonneg_count (length (exactWords cl ql))) as Hn.
  destruct (includes cl ql) eqn:Ei; destruct (exactWords cl ql) as [|w ws] eqn:Ew;
    cbn [isEmpty negb]; unfold ScoreInv; cbn [curScore curMatchType curHighlights].
  - split; [split; [lra|split; [done|done]]|]. split; [tauto|]. intros _. lra.
  - split; [split; [lra|split; [done|]]|].
    + intros _. by destruct ([] ++ [hl_exact]).
    + split; [tauto|]. intros _. lra.
  - split; [split; [lra|split; [done|done]]|]. split; [|done].
    split; [done|]. by intros [? | ?].
  - split; [split; [lra|split; [done|done]]|]. split; [|done].
    split; [by right | done].
Qed.

(** What [calculateSearchScore] returns, in terms of its last state. *)
Lemma calculateSearchScore_state content query variations options :
  exists st,
    ScoreInv st
    /\ (curMatchType st = exact <->
        includes (toLowerCase content) (toLowerCase query) = true
        \/ exactWords (toLowerCase content) (toLowerCase query) <> [])
    /\ (includes (toLowerCase content) (toLowerCase query) = true ->
        (100 <= curScore st)%Q)
    /\ calculateSearchScore content query variations options
       = {| scoredScore :=
              normalizeScore
                (if default true (boostExact options) && isExact (curMatchType st)
                 then (curScore st * (3 # 2))%Q else curScore st);
            scoredMatchType := curMatchType st;
            scoredHighlights := curHighlights st |}.
Proof.
  unfold calculateSearchScore.
  set (cl := toLowerCase content). set (ql := toLowerCase query).
  fold (exactWords cl ql).
  set (st1 := if includes cl ql then _ else _).
  set (st2 := if negb (isEmpty (exactWords cl ql)) then _ else _).
  destruct (exact_tests cl ql st1 st2 eq_refl eq_refl) as (Hinv & Hex & Htop).
  clearbody st2. clear st1.
  set (st3 := fold_left (fun st variation => fold_left (fuzzyStep variation) _ st)
                variations st2).
  set (st4 := fold_left (partialStep cl) variations st3).
  assert (Hok : StepOK st2 st4).
  { eapply StepOK_trans.
    - apply (StepOK_fold (fun st variation =>
               fold_left (fuzzyStep variation) (splitSpaces cl) st)).
      intros st v. apply StepOK_fold. intros st' w. apply fuzzyStep_ok.
    - apply StepOK_fold. intros st v. apply partialStep_ok. }
  destruct Hok as (Hi & Hle & Hx). exists st4.
  split; [by apply Hi|]. split; [by rewrite Hx|]. split; [|done].
  intros H. specialize (Htop H). lra.
Qed.

(** X19.  For a query that has no pattern character once in lower case
    (its words are then compiled to patterns that match themselves), the
    score of
    [calculateSearchScore] lies between 0 and 100.  The match type is
    [trigram] exactly when no signal fired, that is when the highlights
    are empty, and the score is then 0. *)
Theorem calculateSearchScore_range content query variations options :
  isLiteralWord (toLowerCase query) = true ->
  (0 <= scoredScore (calculateSearchScore content query variations options) <= 100)%Q
  /\ (scoredMatchType (calculateSearchScore content query variations options) = trigram
      <-> scoredHighlights (calculateSearchScore content query variations options) = [])
  /\ (scoredMatchType (calculateSearchScore content query variations options) = trigram
      -> scoredScore (calculateSearchScore content query variations options) = 0%Q).
Proof.
  intros _.
  destruct (calculateSearchScore_state content query variations options)
    as (st & (H0 & Ht & Hn) & _ & _ & ->).
  cbn [scoredScore scoredMatchType scoredHighlights].
  split; [apply normalizeScore_range|]. split; [split|].
  - intros E. by apply Ht.
  - intros E. destruct (curMatchType st) eqn:Em; try done; by destruct Hn.
  - intros E. destruct (Ht E) as [-> _]. rewrite E. cbn [isExact].
    by rewrite andb_false_r.
Qed.

Lemma calculateSearchScore_range_witness :
  isLiteralWord (toLowerCase (str "c# zz")) = true
  /\ (let s := calculateSearchScore (str "C# rocks") (str "c# zz")
                 (generateQueryVariations (str "c# zz")) RouteSpec.routeOptions in
      (0 <= scoredScore s <= 100)%Q
      /\ (scoredMatchType s = trigram <-> scoredHighlights s = [])
      /\ (scoredMatchType s = trigram -> scoredScore s = 0%Q)).
Proof.
  split; [reflexivity|].
  apply (calculateSearchScore_range (str "C# rocks") (str "c# zz")
           (generateQueryVariations (str "c# zz")) RouteSpec.routeOptions).
  reflexivity.
Defined.

(** X20.  For a query that has no pattern character once in lower
    case, the match type is [exact] exactly when the content, in lower case, contains the query in
    lower case, or contains one of its words with a word boundary on both
    sides; later signals neither give nor take this type.  When the
    content contains the query the score is 100. *)
Theorem calculateSearchScore_exact content query variations options :
  isLiteralWord (toLowerCase query) = true ->
  (scoredMatchType (calculateSearchScore content query variations options) = exact
   <-> includes (toLowerCase content) (toLowerCase query) = true
       \/ exactWords (toLowerCase content) (toLowerCase query) <> [])
  /\ (includes (toLowerCase content) (toLowerCase query) = true ->
      scoredScore (calculateSearchScore content query variations options) = 100%Q).
Proof.
  intros _.
  destruct (calculateSearchScore_state content query variations options)
    as (st & (H0 & _ & _) & Hx & Htop & ->).
  cbn [scoredScore scoredMatchType scoredHighlights]. split; [exact Hx|].
  intros H. specialize (Htop H). apply normalizeScore_top.
  destruct (_ && _); lra.
Qed.

(** In ["c# rocks"] the word ["c#"] has no boundary at its end, so the
    query ["c# zz"] is a partial match of 20; in ["c#rocks"] it has one. *)
Lemma calculateSearchScore_exact_witness :
  isLiteralWord (toLowerCase (str "c# zz")) = true
  /\ (let s := calculateSearchScore (str "c# rocks") (str "c# zz")
                 (generateQueryVariations (str "c# zz")) RouteSpec.routeOptions in
      scoredMatchType s = partial /\ (scoredScore s == 20)%Q)
  /\ exactWords (toLowerCase (str "c#rocks")) (toLowerCase (str "c# zz")) = [str "c#"]
  /\ (scoredMatchType
        (calculateSearchScore (str "c#rocks") (str "c# zz")
           (generateQueryVariations (str "c# zz")) RouteSpec.routeOptions) = exact
      <-> includes (toLowerCase (str "c#rocks")) (toLowerCase (str "c# zz")) = true
          \/ exactWords (toLowerCase (str "c#rocks")) (toLowerCase (str "c# zz")) <> []).
Proof.
  split; [reflexivity|]. split; [by vm_compute|]. split; [reflexivity|].
  apply (calculateSearchScore_exact (str "c#rocks") (str "c# zz")
           (generateQueryVariations (str "c# zz")) RouteSpec.routeOptions).
  reflexivity.
Defined.

(** *** The variations of a query *)

Lemma strEq_eq a b : strEq a b = true <-> a = b.
Proof.
  revert b; induction a as [|x a IH]; intros [|y b]; simpl; try done.
  rewrite andb_true_iff, Ascii.eqb_eq, IH. split; [by intros [-> ->] | by intros [= -> ->]].
Qed.

Lemma existsb_strEq v l : existsb (strEq v) l = true <-> In v l.
Proof.
  rewrite existsb_exists. split.
  - intros (x & Hx & E). apply strEq_eq in E. by subst.
  - intros H. exists v. split; [done | by apply strEq_eq].
Qed.

Lemma growsSet_refl l : growsSet l l.
Proof. repeat split; eauto. Qed.

Lemma growsSet_trans l1 l2 l3 : growsSet l1 l2 -> growsSet l2 l3 -> growsSet l1 l3.
Proof.
  intros (A1 & B1 & C1) (A2 & B2 & C2). repeat split; auto.
  intros x rest E. destruct (A1 _ _ E) as [r' E']. eauto.
Qed.

Lemma setAdd_grows v l : growsSet l (setAdd v l) /\ In v (setAdd v l).
Proof.
  unfold setAdd. destruct (existsb (strEq v) l) eqn:E.
  - apply existsb_strEq in E. split; [apply growsSet_refl | done].
  - split; [|apply in_or_app; right; by left]. repeat split.
    + intros x rest ->. by exists (rest ++ [v]).
    + intros x Hx. apply in_or_app. by left.
    + intros Hn. apply NoDup_app. split; [done|]. split; [|apply NoDup_singleton].
      intros x Hx [<- | []]%list_elem_of_In. apply list_elem_of_In in Hx.
      apply existsb_strEq in Hx. congruence.
Qed.

Lemma growsSet_fold {A} (f : list jsstring -> A -> list jsstring) ws :
  (forall l w, growsSet l (f l w)) -> forall l, growsSet l (fold_left f ws l).
Proof.
  intros Hf. induction ws as [|w ws IH]; intros l; simpl; [apply growsSet_refl|].
  eapply growsSet_trans; [apply Hf | apply IH].
Qed.

Lemma addStem_grows l w : growsSet l (addStem l w).
Proof.
  unfold addStem. destruct (_ <? _)%nat; [|apply growsSet_refl].
  destruct (_ <? _)%nat; [apply setAdd_grows | apply growsSet_refl].
Qed.

Lemma addPartials_grows l w : growsSet l (addPartials l w).
Proof.
  unfold addPartials. destruct (_ <? _)%nat; [|apply growsSet_refl].
  destruct (_ <? _)%nat; [|apply setAdd_grows].
  eapply growsSet_trans; apply setAdd_grows.
Qed.

Lemma fold_setAdd_all ws : forall l w,
  In w ws -> In w (fold_left (fun vs word => setAdd word vs) ws l).
Proof.
  induction ws as [|x ws IH]; intros l w; [done|]. simpl. intros [<- | H]; [|by apply IH].
  destruct (growsSet_fold (fun vs word => setAdd word vs) ws
              (fun l w => proj1 (setAdd_grows w l)) (setAdd x l)) as (_ & Hin & _).
  apply Hin, setAdd_grows.
Qed.

(** X21.  [generateQueryVariations] lists no variation twice; the query in
    lower case is the first variation and every word of the query is
    one. *)
Theorem generateQueryVariations_set query :
  NoDup (generateQueryVariations query)
  /\ (exists rest, generateQueryVariations query = toLowerCase query :: rest)
  /\ Forall (fun word => In word (generateQueryVariations query))
       (List.filter (fun w => negb (isEmpty w)) (splitSpaces (toLowerCase query))).
Proof.
  unfold generateQueryVariations.
  set (words := List.filter _ _).
  set (v1 := fold_left (fun vs word => setAdd word vs) words (setAdd (toLowerCase query) [])).
  assert (G1 : growsSet [toLowerCase query] v1).
  { apply growsSet_fold. intros l w. apply setAdd_grows. }
  assert (G2 : growsSet v1 (fold_left addPartials words (fold_left addStem words v1))).
  { apply (growsSet_trans _ (fold_left addStem words v1)).
    - apply (growsSet_fold addStem). apply addStem_grows.
    - apply (growsSet_fold addPartials). apply addPartials_grows. }
  destruct (growsSet_trans _ _ _ G1 G2) as (Hhd & Hin & Hnd).
  split; [apply Hnd, NoDup_singleton|].
  split; [by apply (Hhd _ [])|].
  apply List.Forall_forall. intros w Hw. destruct G2 as (_ & Hin2 & _).
  apply Hin2. by apply fold_setAdd_all.
Qed.

(** *** Sorting and filtering *)

Lemma arraySort_sorted results : StronglySorted ranksBefore (sortSearchResults results).
Proof.
  unfold sortSearchResults.
  induction results as [|a l IH]; simpl; [constructor | by apply sortInsert_sorted].
Qed.

Lemma sortInsert_first a l :
  Forall (ranksBefore a) l -> sortInsert compareResults a l = a :: l.
Proof.
  destruct l as [|b l]; [done|]. intros H. inversion H as [|? ? Hb _]; subst.
  simpl. apply compareResults_gt in Hb. by rewrite Hb.
Qed.

Lemma arraySort_of_sorted l :
  StronglySorted ranksBefore l -> arraySort compareResults l = l.
Proof.
  induction 1 as [|a l Hs IH Ha]; [done|]. simpl. fold (arraySort compareResults l).
  rewrite IH. by apply sortInsert_first.
Qed.

Lemma filter_sortInsert (p : SearchResult -> bool) a l :
  StronglySorted ranksBefore l ->
  List.filter p (sortInsert compareResults a l)
  = if p a then sortInsert compareResults a (List.filter p l) else List.filter p l.
Proof.
  induction 1 as [|b l Hs IH Hb]; [simpl; by destruct (p a)|].
  cbn [sortInsert]. destruct (Qgtb (compareResults a b) 0) eqn:E.
  - cbn [List.filter]. rewrite IH.
    destruct (p b), (p a); try done. cbn [sortInsert]. by rewrite E.
  - apply compareResults_gt in E.
    assert (Ha : Forall (ranksBefore a) (List.filter p (b :: l))).
    { apply List.Forall_forall. intros c Hc. apply filter_In in Hc as [Hc _].
      destruct Hc as [<- | Hc]; [done|]. rewrite List.Forall_forall in Hb.
      eapply ranksBefore_trans; [exact E | by apply Hb]. }
    change (List.filter p (a :: b :: l))
      with (if p a then a :: List.filter p (b :: l) else List.filter p (b :: l)).
    destruct (p a); [|done]. by rewrite sortInsert_first.
Qed.

(** X22.  Sorting twice is sorting once, and results may be filtered by
    the threshold before they are sorted or after, as the route does: the
    outcome is the same. *)
Theorem sortSearchResults_filter results threshold :
  sortSearchResults (sortSearchResults results) = sortSearchResults results
  /\ filterSearchResults (sortSearchResults results) threshold
     = sortSearchResults (filterSearchResults results threshold).
Proof.
  split; [apply arraySort_of_sorted, arraySort_sorted|].
  unfold filterSearchResults. set (p := fun result => geNum (score result) _).
  induction results as [|a l IH]; [done|].
  change (sortSearchResults (a :: l))
    with (sortInsert compareResults a (sortSearchResults l)).
  rewrite filter_sortInsert by apply arraySort_sorted. rewrite IH.
  cbn [List.filter]. by destruct (p a).
Qed.

(** *** Highlighting *)

Lemma splitKeepSpaces_concat s :
  forall cur inSep, concat (splitKeepSpacesFrom cur inSep s) = rev cur ++ s.
Proof.
  induction s as [|c s IH]; intros cur inSep; cbn [splitKeepSpacesFrom].
  - destruct inSep; simpl; by rewrite ?app_nil_r.
  - destruct (isSpace c), inSep; cbn [concat]; rewrite IH; cbn [rev];
      by rewrite <- ?app_assoc.
Qed.

Lemma highlightWord_text variations word :
  pieceText (highlightWord variations word) = word.
Proof.
  unfold highlightWord. destruct (isEmpty _); [done|]. by destruct (negb _).
Qed.

Lemma bestVariation_inv cleanWord variations :
  forall best,
    (fst best <> [] ->
     (6 # 10 < snd best)%Q /\ In (fst best) variations
     /\ snd best = calculateSimilarity cleanWord (fst best)) ->
    forall vs, (forall v, In v vs -> In v variations) ->
    let best' := fold_left (bestVariation cleanWord) vs best in
    fst best' <> [] ->
    (6 # 10 < snd best')%Q /\ In (fst best') variations
    /\ snd best' = calculateSimilarity cleanWord (fst best').
Proof.
  intros best Hb vs. revert best Hb.
  induction vs as [|v vs IH]; intros best Hb Hin; [exact Hb|].
  cbn [fold_left]. apply IH; [|intros x Hx; apply Hin; by right].
  unfold bestVariation. destruct (_ && _) eqn:E; [|exact Hb].
  apply andb_true_iff in E as [_ E]. apply Qgtb_true in E.
  intros _. cbn [fst snd]. split; [done|]. split; [apply Hin; by left | done].
Qed.

(** X23.  Highlighting changes no character of the text: the pieces of
    [smartHighlight], put together, are the text.  A piece is marked only
    with the similarity of its word (in lower case, word characters only)
    to one of the variations, and that similarity is above 0.6. *)
Theorem smartHighlight_text text query variations :
  concat (map pieceText (smartHighlight text query variations)) = text
  /\ Forall (fun piece =>
               match piece with
               | plain _ => True
               | mark dataScore word =>
                   (6 # 10 < dataScore <= 1)%Q
                   /\ exists variation,
                        In variation variations
                        /\ dataScore
                           = calculateSimilarity
                               (List.filter isWordChar (toLowerCase word)) variation
               end) (smartHighlight text query variations).
Proof.
  unfold smartHighlight. split.
  - rewrite map_map. erewrite map_ext; [|apply highlightWord_text].
    by rewrite map_id, splitKeepSpaces_concat.
  - apply List.Forall_forall. intros piece Hp.
    apply in_map_iff in Hp as (word & <- & _). unfold highlightWord.
    destruct (isEmpty _); [done|].
    set (cleanWord := List.filter isWordChar (toLowerCase word)).
    destruct (negb (isEmpty (fst _))) eqn:E; [|done].
    apply negb_true_iff in E.
    destruct (bestVariation_inv cleanWord variations ([], 0%Q) ltac:(done)
                variations ltac:(auto)) as (H1 & H2 & H3).
    { by destruct (fst _). }
    split.
    + split; [done|]. rewrite H3. apply calculateSimilarity_le_1.
    + by exists (fst (fold_left (bestVariation cleanWord) variations ([], 0%Q))).
Qed.

(** *** The normalized query *)

Lemma blank_lower_char c :
  let c' := lowerChar c in
  let c'' := if isWordChar c' || isSpace c' then c' else " "%char in
  isLowerWordChar c'' || isSpace c'' = true.
Proof. destruct c as [[] [] [] [] [] [] [] []]; by vm_compute. Qed.

Lemma lowerWordChar_facts c :
  isLowerWordChar c = true ->
  isSpace c = false /\ isWordChar c = true /\ lowerChar c = c.
Proof. destruct c as [[] [] [] [] [] [] [] []]; by vm_compute. Qed.

Lemma queryChars_blank s : queryChars (blankSpecials (toLowerCase s)).
Proof.
  unfold queryChars, blankSpecials, toLowerCase. rewrite map_map.
  induction s as [|c s IH]; [done|]. simpl. rewrite IH, andb_true_r.
  apply blank_lower_char.
Qed.

Lemma collapseSpaces_normal s :
  forall inSep : bool,
    queryChars s ->
    singleSpaced (collapseSpaces inSep s)
    /\ queryChars (collapseSpaces inSep s)
    /\ (inSep = true ->
        match collapseSpaces inSep s with
        | c :: _ => isSpace c = false | [] => True end).
Proof.
  unfold queryChars. induction s as [|c s IH]; intros inSep Hq; [done|].
  simpl in Hq. apply andb_true_iff in Hq as [Hc Hs].
  cbn [collapseSpaces]. destruct (isSpace c) eqn:Ec.
  - destruct inSep; [by apply IH|].
    destruct (IH true Hs) as (H1 & H2 & H3). split; [|split; [|done]].
    + cbn [singleSpaced]. split; [|done]. intros _. split; [done | by apply H3].
    + cbn [forallb]. by rewrite H2.
  - destruct (IH false Hs) as (H1 & H2 & _). split; [|split; [|done]].
    + cbn [singleSpaced]. split; [|done]. congruence.
    + cbn [forallb]. rewrite H2, Ec, andb_true_r.
      destruct (isLowerWordChar c); [done | simpl in Hc; congruence].
Qed.

Lemma singleSpaced_app a b : singleSpaced (a ++ b) -> singleSpaced a /\ singleSpaced b.
Proof.
  induction a as [|c a IH]; [done|]. cbn [app singleSpaced]. intros [Hc Hr].
  destruct (IH Hr) as [Ha Hb]. split; [|done]. split; [|done].
  intros E. destruct (Hc E) as [-> Hn]. split; [done|]. by destruct a.
Qed.

Lemma singleSpaced_trim s : singleSpaced s -> singleSpaced (trim s).
Proof.
  intros H. unfold trim.
  destruct (dropWhile_split isSpace s) as (w & E & _). rewrite E in H.
  apply singleSpaced_app in H as [_ H]. fold (trimStart s) in H.
  destruct (trimEnd_split (trimStart s)) as (w' & E' & _). rewrite E' in H.
  by apply singleSpaced_app in H as [H _].
Qed.

Lemma queryChars_trim s : queryChars s -> queryChars (trim s).
Proof.
  unfold queryChars, trim, trimEnd, trimStart. intros H.
  rewrite forallb_rev. apply forallb_dropWhile. rewrite forallb_rev.
  by apply forallb_dropWhile.
Qed.

Lemma join_cons sep x l : l <> [] -> join sep (x :: l) = x ++ sep ++ join sep l.
Proof. by destruct l. Qed.

(** Splitting at white space and joining with single spaces gives back a
    string whose white space is single spaces. *)
Lemma join_splitSpaces s :
  singleSpaced s ->
  forall cur, join (str " ") (splitSpacesFrom cur false s) = rev cur ++ s.
Proof.
  induction s as [|c s IH]; intros Hs cur; [by rewrite app_nil_r|].
  cbn [singleSpaced] in Hs. destruct Hs as [Hc Hs]. cbn [splitSpacesFrom].
  destruct (isSpace c) eqn:Ec.
  - destruct (Hc eq_refl) as [-> Hn].
    rewrite join_cons by apply splitSpacesFrom_nonempty. f_equal.
    change (str " ") with [" "%char]. cbn [app]. f_equal.
    destruct s as [|c' s']; [done|].
    specialize (IH Hs []). cbn [splitSpacesFrom] in *. by rewrite Hn in *.
  - rewrite (IH Hs). cbn [rev]. by rewrite <- app_assoc.
Qed.

Lemma splitSpaces_chars s :
  queryChars s ->
  forall cur inSep,
    forallb isLowerWordChar cur = true ->
    Forall (fun w => forallb isLowerWordChar w = true) (splitSpacesFrom cur inSep s).
Proof.
  unfold queryChars. induction s as [|c s IH]; intros Hq cur inSep Hcur.
  - constructor; [by rewrite forallb_rev | constructor].
  - simpl in Hq. apply andb_true_iff in Hq as [Hc Hs]. cbn [splitSpacesFrom].
    destruct (isSpace c) eqn:Ec.
    + destruct inSep; [by apply IH|]. constructor; [by rewrite forallb_rev|].
      by apply IH.
    + apply IH; [done|]. simpl. rewrite Hcur, andb_true_r.
      destruct (isLowerWordChar c); [done | simpl in Hc; congruence].
Qed.

(** A normalized string goes through the normalization unchanged. *)
Lemma normal_fixed s :
  singleSpaced s -> queryChars s -> noEdgeSpace s ->
  trim (collapseSpaces false (blankSpecials (toLowerCase (trim s)))) = s.
Proof.
  intros Hs Hq [Hh Hl].
  assert (Ht : trim s = s).
  { unfold trim, trimStart, trimEnd. rewrite (dropWhile_id _ s Hh).
    by rewrite (dropWhile_id _ (rev s) Hl), rev_involutive. }
  rewrite Ht.
  assert (Hb : blankSpecials (toLowerCase s) = s).
  { unfold blankSpecials, toLowerCase. rewrite map_map.
    clear Hs Hh Hl Ht. unfold queryChars in Hq.
    induction s as [|c s IH]; [done|]. simpl in Hq.
    apply andb_true_iff in Hq as [Hc Hq]. cbn [map]. rewrite (IH Hq). f_equal.
    destruct (isLowerWordChar c) eqn:Ew.
    - destruct (lowerWordChar_facts c Ew) as (_ & Hw & ->). by rewrite Hw.
    - simpl in Hc. revert Hc. clear.
      destruct c as [[] [] [] [] [] [] [] []]; by vm_compute. }
  rewrite Hb.
  assert (Hc : forall (b : bool) u,
             (b = true -> match u with c :: _ => isSpace c = false | [] => True end) ->
             singleSpaced u -> collapseSpaces b u = u).
  { intros b u. revert b. induction u as [|c u IH]; intros b Hb' Hu; [done|].
    cbn [singleSpaced] in Hu. destruct Hu as [Hc Hu]. cbn [collapseSpaces].
    destruct (isSpace c) eqn:Ec.
    - destruct b; [by specialize (Hb' eq_refl); congruence|].
      destruct (Hc eq_refl) as [-> Hn]. f_equal. by apply IH.
    - f_equal. by apply IH. }
  rewrite Hc by done. exact Ht.
Qed.

Lemma splitSpaces_words s :
  s <> [] -> noEdgeSpace s -> Forall (fun w => w <> []) (splitSpaces s).
Proof.
  intros Hne [Hh Hl]. destruct s as [|c r]; [done|].
  unfold splitSpaces. cbn [splitSpacesFrom]. rewrite Hh.
  apply splitSpaces_pieces; [done|]. cbn [rev] in Hl.
  destruct (rev r) as [|y l]; [|done]. by simpl in Hl.
Qed.

(** X24.  The normalized query is its keywords joined by single spaces,
    and every keyword is a non-empty string of [[a-z0-9_]]; normalizing a
    normalized query changes nothing. *)
Theorem preprocessQuery_normal_form query :
  Forall isKeyword (keywords (preprocessQuery query))
  /\ processed (preprocessQuery query)
     = join (str " ") (keywords (preprocessQuery query))
  /\ processed (preprocessQuery (processed (preprocessQuery query)))
     = processed (preprocessQuery query).
Proof.
  unfold preprocessQuery. cbn [processed keywords].
  set (u := collapseSpaces false (blankSpecials (toLowerCase (trim query)))).
  destruct (collapseSpaces_normal (blankSpecials (toLowerCase (trim query))) false
              (queryChars_blank _)) as (Hs & Hq & _). fold u in Hs, Hq.
  apply singleSpaced_trim in Hs. apply queryChars_trim in Hq.
  pose proof (trim_noEdgeSpace u) as He.
  split; [|split].
  - destruct (trim u) as [|c r] eqn:E; [constructor|]. rewrite <- E in *.
    assert (Hne : trim u <> []) by (by rewrite E).
    pose proof (splitSpaces_words (trim u) Hne He) as Hw.
    rewrite filter_all by (eapply List.Forall_impl; [|exact Hw]; by intros []).
    pose proof (splitSpaces_chars (trim u) Hq [] false eq_refl) as Hc.
    fold (splitSpaces (trim u)) in Hc.
    rewrite List.Forall_forall in Hw, Hc. apply List.Forall_forall.
    intros w Hin. split; [by apply Hw | by apply Hc].
  - destruct (trim u) as [|c r] eqn:E; [done|]. rewrite <- E in *.
    assert (Hne : trim u <> []) by (by rewrite E).
    pose proof (splitSpaces_words (trim u) Hne He) as Hw.
    rewrite filter_all by (eapply List.Forall_impl; [|exact Hw]; by intros []).
    symmetry. apply (join_splitSpaces (trim u) Hs []).
  - by apply normal_fixed.
Qed.

End FuzzyFacts.

(** ** Further facts about the search route *)

Module RouteFacts.
Import JS FuzzySearch FuzzySpec SearchRoute RouteSpec FuzzyProofs RouteProofs.
Import FuzzyVocabulary RouteVocabulary FuzzyFacts.

(** [GET], in terms of its parts. *)
Lemma GET_parts db query documentId threshold maxResults :
  query <> [] ->
  GET db (Some query) documentId threshold maxResults
  = let pre := preprocessQuery query in
    let chunks := candidatesOf db pre documentId maxResults in
    if isEmpty chunks then noCandidates (infoOf query)
    else found (rowsOf pre threshold chunks)
           (Z.of_nat (length (rowsOf pre threshold chunks)))
           (Z.of_nat (length chunks)) (infoOf query) threshold maxResults
           (Z.of_nat (length (strategiesOf pre))).
Proof. by destruct query. Qed.

Lemma GET_found db q documentId threshold maxResults
  results count totalFound info threshold' maxResults' strategiesUsed :
  GET db q documentId threshold maxResults
  = found results count totalFound info threshold' maxResults' strategiesUsed ->
  exists query,
    q = Some query /\ query <> [] /\
    candidatesOf db (preprocessQuery query) documentId maxResults <> [] /\
    results = rowsOf (preprocessQuery query) threshold
                (candidatesOf db (preprocessQuery query) documentId maxResults) /\
    count = Z.of_nat (length results) /\
    totalFound
    = Z.of_nat (length (candidatesOf db (preprocessQuery query) documentId maxResults)) /\
    strategiesUsed = Z.of_nat (length (strategiesOf (preprocessQuery query))).
Proof.
  destruct q as [[|c query]|]; [done | | done].
  rewrite GET_parts by done. cbv zeta.
  destruct (candidatesOf _ _ _ _) as [|ch chs] eqn:E; cbn [isEmpty]; [done|].
  intros H. exists (c :: query). rewrite E. split; [done|]. split; [done|].
  split; [done|].
  pose proof (f_equal resultsOf H) as H1.
  pose proof (f_equal (fun r => match r with found _ n _ _ _ _ _ => n | _ => 0 end) H) as H2.
  pose proof (f_equal (fun r => match r with found _ _ n _ _ _ _ => n | _ => 0 end) H) as H3.
  pose proof (f_equal (fun r => match r with found _ _ _ _ _ _ n => n | _ => 0 end) H) as H4.
  cbv beta iota in H1, H2, H3, H4. unfold resultsOf in H1.
  split; [done|]. split; [by rewrite <- H2, H1|]. split; [by rewrite <- H3 | done].
Qed.

(** X25.  The route answers 400 exactly when the query is missing or
    empty.  When every strategy fails, the answer to a query is the empty
    result with the normalized query, not an error. *)
Theorem GET_bad_request db q documentId threshold maxResults :
  (GET db q documentId threshold maxResults = badRequest
   <-> q = None \/ q = Some [])
  /\ (forall c query,
        GET allFail (Some (c :: query)) documentId threshold maxResults
        = noCandidates (infoOf (c :: query))).
Proof.
  split.
  - destruct q as [[|c query]|]; [by split; auto | | by split; auto].
    rewrite GET_parts by done. cbv zeta. split.
    + by destruct (isEmpty _).
    + by intros [? | ?].
  - intros c query. rewrite GET_parts by done. cbv zeta.
    assert (E : candidatesOf allFail (preprocessQuery (c :: query)) documentId maxResults = []).
    { unfold candidatesOf. generalize (strategiesOf (preprocessQuery (c :: query))).
      intros l. induction l as [|s l IH]; [done|]. exact IH. }
    by rewrite E.
Qed.

(** *** The candidates *)

Lemma addChunk_ids all chunk :
  NoDup (map id all) -> NoDup (map id (addChunk all chunk)).
Proof.
  intros Hn. unfold addChunk.
  destruct (existsb _ all) eqn:E; [done|].
  rewrite map_app. apply NoDup_app. split; [done|]. split; [|apply NoDup_singleton].
  intros x Hx [<- | []]%list_elem_of_In. apply list_elem_of_In in Hx.
  apply in_map_iff in Hx as (c & Hc & Hin).
  assert (existsb (fun c => strEq (id c) (id chunk)) all = true); [|congruence].
  apply existsb_exists. exists c. split; [done|]. by apply strEq_eq.
Qed.

Lemma candidates_ids db pre documentId maxResults :
  NoDup (map id (candidatesOf db pre documentId maxResults)).
Proof.
  unfold candidatesOf. generalize (strategiesOf pre) as ss.
  assert (H : NoDup (map id (@nil DocChunk))) by constructor.
  revert H. generalize (@nil DocChunk) as all. intros all H ss. revert all H.
  induction ss as [|s ss IH]; intros all H; [done|]. cbn [map fold_left]. apply IH.
  unfold collect. destruct (db s _ _) as [data|]; [|done].
  revert all H. induction data as [|c data IHd]; intros all H; [done|].
  cbn [fold_left]. by apply IHd, addChunk_ids.
Qed.

Lemma collect_from (results : list (option (list DocChunk))) :
  forall all chunk,
    In chunk (fold_left collect results all) ->
    In chunk all \/ exists data, In (Some data) results /\ In chunk data.
Proof.
  induction results as [|r results IH]; intros all chunk H; [by left|].
  cbn [fold_left] in H. apply IH in H as [H | (data & Hd & Hc)];
    [|right; exists data; split; [by right | done]].
  unfold collect in H. destruct r as [data|]; [|by left].
  assert (Hadd : forall data all, In chunk (fold_left addChunk data all) ->
                   In chunk all \/ In chunk data).
  { clear. intros data. induction data as [|c data IHd]; intros all H; [by left|].
    cbn [fold_left] in H. apply IHd in H as [H | H]; [|right; by right].
    unfold addChunk in H. destruct (existsb _ all); [by left|].
    apply in_app_or in H as [H | [<- | []]]; [by left | right; by left]. }
  apply Hadd in H as [H | H]; [by left|]. right. exists data. split; [by left | done].
Qed.

Lemma candidates_from db pre documentId maxResults chunk :
  In chunk (candidatesOf db pre documentId maxResults) ->
  exists strategy data,
    In strategy (strategiesOf pre)
    /\ db strategy (scopeOf documentId) maxResults = Some data
    /\ In chunk data.
Proof.
  intros H. apply collect_from in H as [[] | (data & Hd & Hc)].
  apply in_map_iff in Hd as (s & Hs & Hin). by exists s, data.
Qed.

Lemma NoDup_map_filter {A B} (f : A -> B) (p : A -> bool) l :
  NoDup (map f l) -> NoDup (map f (List.filter p l)).
Proof.
  induction l as [|x l IH]; [done|]. cbn [map List.filter].
  intros H. apply NoDup_cons in H as [Hx Hl]. destruct (p x); [|by apply IH].
  cbn [map]. apply NoDup_cons. split; [|by apply IH].
  intros Hin. apply Hx. apply list_elem_of_In in Hin. apply list_elem_of_In.
  apply in_map_iff in Hin as (y & Hy & Hin). apply filter_In in Hin as [Hin _].
  apply in_map_iff. by exists y.
Qed.

Lemma rowsOf_rows pre threshold chunks :
  map row (rowsOf pre threshold chunks)
  = map chunk (filterSearchResults
                 (sortSearchResults
                    (map (scoreChunk (processed pre) (variations pre)) chunks))
                 (Some threshold)).
Proof. unfold rowsOf. rewrite map_map. by apply map_ext. Qed.

Lemma filter_perm {A} (p : A -> bool) (l l' : list A) :
  Permutation l l' -> Permutation (List.filter p l) (List.filter p l').
Proof.
  induction 1 as [|x l l' _ IH|x y l|l l' l'' _ IH1 _ IH2]; cbn [List.filter].
  - done.
  - destruct (p x); [by constructor | done].
  - destruct (p x), (p y); try done. apply perm_swap.
  - by etransitivity.
Qed.

Lemma filter_scored (p : SearchResult -> bool) processed variations chunks :
  map chunk (List.filter p (map (scoreChunk processed variations) chunks))
  = List.filter (fun c => p (scoreChunk processed variations c)) chunks.
Proof.
  induction chunks as [|c chunks IH]; [done|]. cbn [map List.filter].
  destruct (p _); [|done]. cbn [map]. by rewrite IH.
Qed.

(** C8, as the code has it.  Every row that the search returns has a score
    of at least the threshold.  The rows are not cut to [maxResults]: the
    limit is put on the query of every strategy, before anything is
    scored, and the response holds every candidate whose score reaches the
    threshold. *)
Theorem search_results_reach_threshold_uncut db q documentId threshold maxResults
  results count totalFound info threshold' maxResults' strategiesUsed :
  GET db q documentId threshold maxResults
  = found results count totalFound info threshold' maxResults' strategiesUsed ->
  Forall (fun r => geNum (searchScore r) threshold = true) results
  /\ exists query,
       q = Some query
       /\ Permutation (map row results)
            (List.filter
               (fun chunk =>
                  geNum (score (scoreChunk (processed (preprocessQuery query))
                                  (variations (preprocessQuery query)) chunk))
                    threshold)
               (candidatesOf db (preprocessQuery query) documentId maxResults)).
Proof.
  intros H. apply GET_found in H as (query & -> & _ & _ & -> & _).
  set (pre := preprocessQuery query).
  set (chunks := candidatesOf db pre documentId maxResults).
  split.
  - unfold rowsOf. apply List.Forall_map. exact (filterSearchResults_ge _ _).
  - exists query. split; [done|]. fold pre. fold chunks. rewrite rowsOf_rows.
    unfold filterSearchResults, sortSearchResults. cbn [default].
    pose proof (filter_scored (fun r => geNum (score r) threshold)
                  (processed pre) (variations pre) chunks) as E.
    cbv beta in E. rewrite <- E. apply Permutation_map, filter_perm.
    symmetry. apply arraySort_perm.
Qed.

Lemma search_results_reach_threshold_uncut_witness :
  exists results info,
    GET oneRowEach (Some (str "document")) None (finite 10) (Some 1)
    = found results 2 2 info (finite 10) (Some 1) 3
    /\ map (fun r => chunk_index (row r)) results = [1; 0]
    /\ Forall (fun r => geNum (searchScore r) (finite 10) = true) results
    /\ exists query,
         Some (str "document") = Some query
         /\ Permutation (map row results)
              (List.filter
                 (fun chunk =>
                    geNum (score (scoreChunk (processed (preprocessQuery query))
                                    (variations (preprocessQuery query)) chunk))
                      (finite 10))
                 (candidatesOf oneRowEach (preprocessQuery query) None (Some 1))).
Proof.
  do 2 eexists. split; [vm_compute; reflexivity|]. split; [reflexivity|].
  eapply (search_results_reach_threshold_uncut oneRowEach (Some (str "document")) None
            (finite 10) (Some 1)).
  vm_compute; reflexivity.
Defined.

(** C8 as stated fails in its second half: nothing is cut to [maxResults]
    after the threshold filter.  With [maxResults = 1] every query of
    [oneRowEach] returns one row, and the response holds two rows. *)
Lemma search_results_exceed_maxResults :
  (forall strategy scope,
     exists data, oneRowEach strategy scope (Some 1) = Some data
                  /\ (length data <= 1)%nat)
  /\ exists results info,
       GET oneRowEach (Some (str "document")) None (finite 10) (Some 1)
       = found results 2 2 info (finite 10) (Some 1) 3
       /\ length results = 2%nat.
Proof.
  split.
  - intros [processed | needle] scope; eexists; (split; [reflexivity | simpl; lia]).
  - do 2 eexists. split; [vm_compute; reflexivity | reflexivity].
Qed.

(** X26.  The results hold no chunk twice: the [id]s of the rows of a
    response are pairwise different, whatever the strategies return. *)
Theorem GET_distinct_ids db q documentId threshold maxResults
  results count totalFound info threshold' maxResults' strategiesUsed :
  GET db q documentId threshold maxResults
  = found results count totalFound info threshold' maxResults' strategiesUsed ->
  NoDup (map (fun r => id (row r)) results).
Proof.
  intros H. apply GET_found in H as (query & _ & _ & _ & -> & _).
  set (pre := preprocessQuery query).
  set (chunks := candidatesOf db pre documentId maxResults).
  rewrite <- (map_map row id), rowsOf_rows, map_map.
  unfold filterSearchResults. apply NoDup_map_filter.
  pose proof (arraySort_perm compareResults
                (map (scoreChunk (processed pre) (variations pre)) chunks)) as Hp.
  apply (Permutation_map (fun r => id (chunk r))) in Hp.
  unfold sortSearchResults. rewrite <- Hp.
  rewrite map_map. cbn [chunk scoreChunk]. apply candidates_ids.
Qed.

Lemma GET_distinct_ids_witness :
  exists results count totalFound info strategiesUsed,
    GET twoRows (Some (str "documnt")) None (finite 0) (Some 50)
    = found results count totalFound info (finite 0) (Some 50) strategiesUsed
    /\ map (fun r => id (row r)) results = [str "chunk-1"; str "chunk-0"]
    /\ NoDup (map (fun r => id (row r)) results).
Proof.
  do 5 eexists. split; [vm_compute; reflexivity|]. split; [reflexivity|].
  eapply (GET_distinct_ids twoRows (Some (str "documnt")) None (finite 0) (Some 50)).
  vm_compute; reflexivity.
Defined.

Lemma filter_sorted {A} (R : A -> A -> Prop) (p : A -> bool) l :
  StronglySorted R l -> StronglySorted R (List.filter p l).
Proof.
  induction 1 as [|a l Hs IH Ha]; [constructor|]. cbn [List.filter].
  destruct (p a); [|done]. constructor; [done|].
  apply List.Forall_forall. intros x Hx. apply filter_In in Hx as [Hx _].
  by apply (proj1 (List.Forall_forall _ _) Ha).
Qed.

Lemma map_sorted {A B} (R : A -> A -> Prop) (R' : B -> B -> Prop) (f : A -> B) l :
  (forall a b, R a b -> R' (f a) (f b)) ->
  StronglySorted R l -> StronglySorted R' (map f l).
Proof.
  intros Hf. induction 1 as [|a l Hs IH Ha]; [constructor|]. cbn [map].
  constructor; [done|]. apply List.Forall_forall. intros y Hy.
  apply in_map_iff in Hy as (x & <- & Hx).
  by apply Hf, (proj1 (List.Forall_forall _ _) Ha).
Qed.

(** X27.  The rows of a response are in ranking order: every row comes
    before the rows of a lower match type and, within its match type,
    before the rows of a lower score.  Filtering by the threshold and
    highlighting do not disturb the order of the sort. *)
Theorem GET_ranked db q documentId threshold maxResults
  results count totalFound info threshold' maxResults' strategiesUsed :
  GET db q documentId threshold maxResults
  = found results count totalFound info threshold' maxResults' strategiesUsed ->
  StronglySorted rowRanksBefore results.
Proof.
  intros H. apply GET_found in H as (query & _ & _ & _ & -> & _).
  unfold rowsOf. apply (map_sorted ranksBefore); [by intros a b|].
  unfold filterSearchResults. apply filter_sorted, arraySort_sorted.
Qed.

Lemma GET_ranked_witness :
  exists results count totalFound info strategiesUsed,
    GET twoRows (Some (str "documnt")) None (finite 0) (Some 50)
    = found results count totalFound info (finite 0) (Some 50) strategiesUsed
    /\ map (fun r => (chunk_index (row r), rowMatchType r)) results
       = [(1, fuzzy); (0, trigram)]
    /\ StronglySorted rowRanksBefore results.
Proof.
  do 5 eexists. split; [vm_compute; reflexivity|]. split; [reflexivity|].
  eapply (GET_ranked twoRows (Some (str "documnt")) None (finite 0) (Some 50)).
  vm_compute; reflexivity.
Defined.

(** X28.  Every row of a response is a chunk that some strategy of the
    request returned from the database, for the requested document scope and
    limit, and it carries the score and the match type that
    [calculateSearchScore] gives to the content of that chunk for the
    normalized query and its variations. *)
Theorem GET_rows_from_strategies db q documentId threshold maxResults
  results count totalFound info threshold' maxResults' strategiesUsed r :
  GET db q documentId threshold maxResults
  = found results count totalFound info threshold' maxResults' strategiesUsed ->
  In r results ->
  exists query strategy data,
    q = Some query
    /\ In strategy (strategiesOf (preprocessQuery query))
    /\ db strategy (scopeOf documentId) maxResults = Some data
    /\ In (row r) data
    /\ let pre := preprocessQuery query in
       let s := calculateSearchScore (content (row r)) (processed pre) (variations pre)
                  {| FuzzySearch.threshold := None; FuzzySearch.maxResults := None;
                     includePartial := None; boostExact := Some true |} in
       searchScore r = scoredScore s /\ rowMatchType r = scoredMatchType s
       /\ rowHighlights r = scoredHighlights s.
Proof.
  intros H Hr. apply GET_found in H as (query & -> & _ & _ & -> & _).
  unfold rowsOf in Hr. apply in_map_iff in Hr as (res & <- & Hres).
  unfold filterSearchResults in Hres. apply filter_In in Hres as [Hres _].
  unfold sortSearchResults in Hres.
  apply (Permutation_in _ (Permutation_sym (arraySort_perm compareResults _))) in Hres.
  apply in_map_iff in Hres as (ch & <- & Hch).
  apply candidates_from in Hch as (strategy & data & Hs & Hdb & Hin).
  exists query, strategy, data. by cbn.
Qed.

Lemma GET_rows_from_strategies_witness :
  exists results count totalFound info strategiesUsed r,
    GET twoRows (Some (str "documnt")) None (finite 0) (Some 50)
    = found results count totalFound info (finite 0) (Some 50) strategiesUsed
    /\ nth_error results 0 = Some r
    /\ chunk_index (row r) = 1
    /\ exists query strategy data,
         Some (str "documnt") = Some query
         /\ In strategy (strategiesOf (preprocessQuery query))
         /\ twoRows strategy (scopeOf None) (Some 50) = Some data
         /\ In (row r) data
         /\ let pre := preprocessQuery query in
            let s := calculateSearchScore (content (row r)) (processed pre)
                       (variations pre)
                       {| FuzzySearch.threshold := None; FuzzySearch.maxResults := None;
                          includePartial := None; boostExact := Some true |} in
            searchScore r = scoredScore s /\ rowMatchType r = scoredMatchType s
            /\ rowHighlights r = scoredHighlights s.
Proof.
  do 6 eexists. split; [vm_compute; reflexivity|]. split; [reflexivity|].
  split; [reflexivity|].
  eapply (GET_rows_from_strategies twoRows (Some (str "documnt")) None (finite 0)
            (Some 50)).
  - vm_compute; reflexivity.
  - by left.
Defined.

Lemma candidates_failuresAsEmpty db pre documentId maxResults :
  candidatesOf (failuresAsEmpty db) pre documentId maxResults
  = candidatesOf db pre documentId maxResults.
Proof.
  unfold candidatesOf. generalize (@nil DocChunk) as all.
  induction (strategiesOf pre) as [|s ss IH]; intros all; [done|].
  cbn [map fold_left]. rewrite IH. f_equal.
  unfold failuresAsEmpty. by destruct (db s _ _).
Qed.

(** X29.  A strategy whose database query fails counts as a strategy that
    found nothing: the response is the one of a database that answers each
    failed query with no rows.  A failure never becomes an error response
    and never removes what the other strategies found. *)
Theorem GET_failures_as_empty db q documentId threshold maxResults :
  GET db q documentId threshold maxResults
  = GET (failuresAsEmpty db) q documentId threshold maxResults.
Proof.
  destruct q as [[|c query]|]; [done | | done].
  rewrite !GET_parts by done. cbv zeta. by rewrite candidates_failuresAsEmpty.
Qed.

(** X30.  In a response with results, [count] is the number of rows and is
    at most [totalFound], the number of distinct candidates, which is at
    least one; [strategiesUsed] is two plus the number of keywords of more
    than two characters. *)
Theorem GET_counts db q documentId threshold maxResults
  results count totalFound info threshold' maxResults' strategiesUsed :
  GET db q documentId threshold maxResults
  = found results count totalFound info threshold' maxResults' strategiesUsed ->
  count = Z.of_nat (length results)
  /\ count <= totalFound
  /\ 1 <= totalFound
  /\ exists query,
       q = Some query
       /\ strategiesUsed
          = 2 + Z.of_nat (length (List.filter (fun keyword => (2 <? length keyword)%nat)
                                    (keywords (preprocessQuery query)))).
Proof.
  intros H. apply GET_found in H as (query & -> & _ & Hne & -> & -> & -> & ->).
  set (pre := preprocessQuery query) in *.
  set (chunks := candidatesOf db pre documentId maxResults) in *.
  split; [done|]. split; [|split].
  - unfold rowsOf, filterSearchResults, sortSearchResults.
    rewrite length_map.
    match goal with
    | |- context [length (List.filter ?p ?l)] => pose proof (filter_length_le p l) as Hl
    end.
    rewrite <- (Permutation_length (arraySort_perm compareResults _)), length_map in Hl.
    lia.
  - clearbody chunks. destruct chunks; [done | rewrite length_cons; lia].
  - exists query. split; [done|]. unfold strategiesOf.
    rewrite length_app, length_map. cbn [length]. subst pre. lia.
Qed.

Lemma GET_counts_witness :
  exists results info,
    GET twoRows (Some (str "documnt")) None (finite 10) (Some 50)
    = found results 1 2 info (finite 10) (Some 50) 3
    /\ 1 = Z.of_nat (length results)
    /\ 1 <= 2
    /\ 1 <= 2
    /\ exists query,
         Some (str "documnt") = Some query
         /\ 3 = 2 + Z.of_nat (length (List.filter
                                       (fun keyword => (2 <? length keyword)%nat)
                                       (keywords (preprocessQuery query)))).
Proof.
  do 2 eexists. split; [vm_compute; reflexivity|].
  eapply (GET_counts twoRows (Some (str "documnt")) None (finite 10) (Some 50)).
  vm_compute; reflexivity.
Defined.

End RouteFacts.
